(** * pewpi-shared: the integration event bus, the machines adapter and the
      token, authentication and wallet services

    A shallow embedding of [IntegrationListener] (event registration,
    priority dispatch, one-shot subscriptions, bounded history queue), of
    [MachinesAdapter] (machine registry, table-driven transitions, adapter
    registry), and of [TokenService], [AuthService] and [WalletUnified]
    (expiring tokens, sessions and roles, wallets and their balances),
    followed by the properties the specification states about the first two
    and by further properties of all five. *)

From Stdlib Require Import Floats.PrimFloat.
From stdpp Require Import gmap strings list fin_maps pretty.
From Stdlib Require Import ZArith Lia Sorting.Sorted Permutation.

Open Scope string_scope.
Open Scope nat_scope.
Open Scope list_scope.
Open Scope stdpp_scope.

(** ** JavaScript values *)

(** The primitive values that occur as event data, machine context entries
    and payload entries. *)
Inductive Value : Type :=
| VNull
| VBool (b : bool)
| VNum (n : Z)
| VStr (s : string).

(** A plain JS object used as a dictionary from property names to values. *)
Abbreviation Obj := (gmap string Value).

(** [!s] on a string: only the empty string is falsy. *)
Definition truthy_string (s : string) : bool :=
  negb (String.eqb s "").

(** ** Insertion-ordered maps (the JS [Map])

    A JS [Map] iterates in insertion order; [set] on a present key keeps the
    key's position and replaces the value; [delete] reports whether the key
    was present. *)
Section JSMap.
Context {K V : Type} `{EqDecision K}.

Fixpoint jm_get (k : K) (m : list (K * V)) : option V :=
  match m with
  | [] => None
  | (k', v) :: m' => if decide (k = k') then Some v else jm_get k m'
  end.

Definition jm_has (k : K) (m : list (K * V)) : bool :=
  match jm_get k m with Some _ => true | None => false end.

Fixpoint jm_set (k : K) (v : V) (m : list (K * V)) : list (K * V) :=
  match m with
  | [] => [(k, v)]
  | (k', v') :: m' =>
      if decide (k = k') then (k, v) :: m' else (k', v') :: jm_set k v m'
  end.

Fixpoint jm_delete (k : K) (m : list (K * V)) : list (K * V) :=
  match m with
  | [] => []
  | (k', v') :: m' =>
      if decide (k = k') then m' else (k', v') :: jm_delete k m'
  end.

Definition jm_keys (m : list (K * V)) : list K := m.*1.
Definition jm_values (m : list (K * V)) : list V := m.*2.
Definition jm_size (m : list (K * V)) : nat := length m.
End JSMap.

(** ** [Array.prototype.sort]

    The sort is stable; with a consistent comparator its result is the
    stable insertion of every element into the sorted rest.  [comparefn a b]
    positive means that [a] goes after [b]. *)
Section JSSort.
Context {A : Type} (comparefn : A → A → Z).

Fixpoint sort_insert (x : A) (l : list A) : list A :=
  match l with
  | [] => [x]
  | y :: l' =>
      if (0 <? comparefn x y)%Z then y :: sort_insert x l' else x :: l
  end.

Definition js_sort (l : list A) : list A := foldr sort_insert [] l.
End JSSort.

(** [arr.slice(start)] for an integer [start]: a negative start counts from
    the end, and both ends are clamped. *)
Definition js_slice_from {A : Type} (start : Z) (l : list A) : list A :=
  let len := Z.of_nat (length l) in
  let k := if (start <? 0)%Z then Z.max (len + start) 0 else Z.min start len in
  drop (Z.to_nat k) l.

(** ** Listeners and events *)

(** Handlers are JS functions; a function value is a reference, here the
    name of its code. *)
Definition HandlerRef := nat.

Module Listener.
Record t : Type := mk {
  id : string;
  handler : HandlerRef;
  once : bool;
  priority : Z;
  createdAt : Z
}.
End Listener.

Module Event.
Record t : Type := mk {
  type : string;
  data : Obj;
  timestamp : Z;
  id : string
}.
End Event.

(** What may be passed as the [handler] argument of [on]. *)
Inductive HandlerArg : Type :=
| Fn (h : HandlerRef)
| NotFn.

(** The [options] argument of [on] when it is an object; an absent property
    is [None].  The argument itself is an [option Options]: [None] is
    [null], which the default value [{}] does not replace; a caller that
    leaves the argument out passes [Some no_options]. *)
Record Options : Type := {
  opt_once : option bool;
  opt_priority : option Z
}.

Definition no_options : Options := {| opt_once := None; opt_priority := None |}.

(** A call of the listener's API, as a collaborator or a handler makes it.
    The results of [Date.now()] and of the id generators are inputs. *)
Inductive Call : Type :=
| CallOn (eventType : string) (handler : HandlerArg)
         (options : option Options) (listenerId : string) (now : Z)
| CallOff (eventType listenerId : string)
| CallRemoveAllListeners (eventType : option string)
| CallEmit (eventType : string) (data : Obj) (now : Z) (eventId : string)
| CallClearQueue.

(** The behaviour of a handler on the event it receives: the calls it makes
    on the listener, each of them awaited, and whether it then throws or
    returns.  A handler that fails half way is one with the calls made up
    to there and [throws] set.  Emissions started and not awaited, which
    would interleave with the one in progress, are not part of this
    model. *)
Record Script : Type := {
  calls : list Call;
  throws : bool
}.

(** [OptionsNull] is the [TypeError] of reading a property of [null]. *)
Inductive Error : Type :=
| NotInitialized
| HandlerNotFunction
| OptionsNull
| HandlerFailed (h : HandlerRef).

Module IntegrationListener.

(** What is observed of a handler: that it is called, and how the call
    ends. *)
Inductive Phase : Type :=
| Begin
| EndOk
| EndThrow.

#[global] Instance Phase_eq_dec : EqDecision Phase.
Proof. solve_decision. Defined.

(** One observation: the nesting depth of the emission that made the call,
    the phase, the listener, and the event passed. *)
Record Invocation : Type := {
  inv_depth : nat;
  inv_phase : Phase;
  inv_listener : Listener.t;
  inv_event : Event.t
}.

(** The listener object.  [listeners] maps an event type to the address of
    its inner [Map]; [buckets] is the store of those inner maps, so that a
    reference to one of them stays valid after the outer entry is gone.
    [invoked] records what was observed of the handlers so far. *)
Record State : Type := {
  listeners : list (string * nat);
  buckets : list (list (string * Listener.t));
  eventQueue : list Event.t;
  initialized : bool;
  maxQueueSize : nat;
  invoked : list Invocation
}.

Definition with_listeners (m : list (string * nat)) (st : State) : State :=
  {| listeners := m; buckets := buckets st; eventQueue := eventQueue st;
     initialized := initialized st; maxQueueSize := maxQueueSize st;
     invoked := invoked st |}.

Definition with_buckets (b : list (list (string * Listener.t))) (st : State)
  : State :=
  {| listeners := listeners st; buckets := b; eventQueue := eventQueue st;
     initialized := initialized st; maxQueueSize := maxQueueSize st;
     invoked := invoked st |}.

Definition with_eventQueue (q : list Event.t) (st : State) : State :=
  {| listeners := listeners st; buckets := buckets st; eventQueue := q;
     initialized := initialized st; maxQueueSize := maxQueueSize st;
     invoked := invoked st |}.

Definition with_initialized (b : bool) (st : State) : State :=
  {| listeners := listeners st; buckets := buckets st;
     eventQueue := eventQueue st; initialized := b;
     maxQueueSize := maxQueueSize st; invoked := invoked st |}.

Definition with_invoked (t : list Invocation) (st : State) : State :=
  {| listeners := listeners st; buckets := buckets st;
     eventQueue := eventQueue st; initialized := initialized st;
     maxQueueSize := maxQueueSize st; invoked := t |}.

(** The result of a method call: it returns, it throws, or the run was cut
    off (a chain of nested emissions longer than the fuel). *)
Inductive outcome (A : Type) : Type :=
| Returned (st : State) (a : A)
| Threw (st : State) (e : Error)
| OutOfFuel.
Arguments Returned {A} st a.
Arguments Threw {A} st e.
Arguments OutOfFuel {A}.

Definition constructor : State :=
  {| listeners := []; buckets := []; eventQueue := []; initialized := false;
     maxQueueSize := 1000; invoked := [] |}.

Definition init (st : State) : outcome unit :=
  if initialized st then Returned st tt
  else Returned (with_initialized true st) tt.

(** The inner map an address refers to. *)
Definition bucket_at (st : State) (loc : nat) : list (string * Listener.t) :=
  default [] (buckets st !! loc).

(** The inner map of an event type, empty when there is none. *)
Definition bucket_of (st : State) (eventType : string)
  : list (string * Listener.t) :=
  match jm_get eventType (listeners st) with
  | Some loc => bucket_at st loc
  | None => []
  end.

(** The inner map of the event type is created, when there is none,
    before the listener record is built; with [null] as [options] the
    reading of [options.once] throws after that. *)
Definition on (st : State) (eventType : string) (handler : HandlerArg)
    (options : option Options) (listenerId : string) (now : Z)
  : outcome string :=
  if negb (initialized st) then Threw st NotInitialized else
  match handler with
  | NotFn => Threw st HandlerNotFunction
  | Fn h =>
      let st1 :=
        if jm_has eventType (listeners st) then st
        else with_buckets (buckets st ++ [[]])
               (with_listeners
                  (jm_set eventType (length (buckets st)) (listeners st)) st)
      in
      match options with
      | None => Threw st1 OptionsNull
      | Some options =>
          let listener :=
            {| Listener.id := listenerId;
               Listener.handler := h;
               Listener.once := default false (opt_once options);
               Listener.priority := default 0%Z (opt_priority options);
               Listener.createdAt := now |} in
          match jm_get eventType (listeners st1) with
          | Some loc =>
              Returned
                (with_buckets
                   (<[loc := jm_set listenerId listener (bucket_at st1 loc)]>
                      (buckets st1)) st1)
                listenerId
          | None => Returned st1 listenerId
          end
      end
  end.

Definition once (st : State) (eventType : string) (handler : HandlerArg)
    (listenerId : string) (now : Z) : outcome string :=
  on st eventType handler
     (Some {| opt_once := Some true; opt_priority := None |}) listenerId now.

Definition off (st : State) (eventType listenerId : string) : outcome bool :=
  if negb (initialized st) then Threw st NotInitialized else
  match jm_get eventType (listeners st) with
  | Some loc =>
      let removed := jm_has listenerId (bucket_at st loc) in
      Returned
        (with_buckets
           (<[loc := jm_delete listenerId (bucket_at st loc)]> (buckets st))
           st)
        removed
  | None => Returned st false
  end.

Definition removeAllListeners (st : State) (eventType : option string)
  : outcome unit :=
  if negb (initialized st) then Threw st NotInitialized else
  match eventType with
  | Some ty =>
      if truthy_string ty
      then Returned (with_listeners (jm_delete ty (listeners st)) st) tt
      else Returned (with_listeners [] st) tt
  | None => Returned (with_listeners [] st) tt
  end.

Definition getEventTypes (st : State) : outcome (list string) :=
  if negb (initialized st) then Threw st NotInitialized
  else Returned st (jm_keys (listeners st)).

Definition listenerCount (st : State) (eventType : string) : outcome nat :=
  if negb (initialized st) then Threw st NotInitialized else
  match jm_get eventType (listeners st) with
  | Some loc => Returned st (jm_size (bucket_at st loc))
  | None => Returned st 0
  end.

(** [limit] is [None] when the caller leaves the argument out. *)
Definition getRecentEvents (st : State) (limit : option Z)
  : outcome (list Event.t) :=
  let limit := default 10%Z limit in
  if negb (initialized st) then Threw st NotInitialized
  else Returned st (js_slice_from (- limit) (eventQueue st)).

Definition clearQueue (st : State) : outcome unit :=
  if negb (initialized st) then Threw st NotInitialized
  else Returned (with_eventQueue [] st) tt.

(** [push], then one [shift] when the length has passed [maxQueueSize]. *)
Definition _addToQueue (st : State) (event : Event.t) : State :=
  let q := eventQueue st ++ [event] in
  if decide (maxQueueSize st < length q)
  then with_eventQueue (drop 1 q) st
  else with_eventQueue q st.

(** A call by which a handler does not re-enter [emit].  A call of [on] in
    it passes a function and options that are not [null], and the generated
    id is not [lid], an id that is in use. *)
Definition plain_call (lid : string) (c : Call) : Prop :=
  match c with
  | CallEmit _ _ _ _ => False
  | CallOn _ handler options listenerId _ =>
      handler ≠ NotFn ∧ options ≠ None ∧ listenerId ≠ lid
  | _ => True
  end.

(** *** Emission

    A handler may call back into the listener, [emit] included, so the
    dispatch functions take the emission function to use for nested calls.
    [code] gives every handler function its behaviour. *)
Section Dispatch.
Variable code : HandlerRef → Event.t → Script.

Definition emit_fn : Type :=
  nat → State → string → Obj → Z → string → outcome nat.

Definition discard {A : Type} (o : outcome A) : outcome unit :=
  match o with
  | Returned st _ => Returned st tt
  | Threw st e => Threw st e
  | OutOfFuel => OutOfFuel
  end.

Definition run_call (emit_rec : emit_fn) (depth : nat) (st : State) (c : Call)
  : outcome unit :=
  match c with
  | CallOn eventType handler options listenerId now =>
      discard (on st eventType handler options listenerId now)
  | CallOff eventType listenerId => discard (off st eventType listenerId)
  | CallRemoveAllListeners eventType => removeAllListeners st eventType
  | CallEmit eventType data now eventId =>
      discard (emit_rec depth st eventType data now eventId)
  | CallClearQueue => clearQueue st
  end.

(** Calls made one after the other; the first one that throws ends the
    sequence. *)
Fixpoint run_calls (emit_rec : emit_fn) (depth : nat) (st : State)
    (cs : list Call) : outcome unit :=
  match cs with
  | [] => Returned st tt
  | c :: cs' =>
      match run_call emit_rec depth st c with
      | Returned st' _ => run_calls emit_rec depth st' cs'
      | Threw st' e => Threw st' e
      | OutOfFuel => OutOfFuel
      end
  end.

Definition observe (depth : nat) (phase : Phase) (listener : Listener.t)
    (event : Event.t) (st : State) : State :=
  with_invoked
    (invoked st ++
       [{| inv_depth := depth; inv_phase := phase; inv_listener := listener;
           inv_event := event |}]) st.

(** [await listener.handler(event)]: the handler's calls run one nesting
    level deeper; a call that throws makes the handler throw. *)
Definition call_handler (emit_rec : emit_fn) (depth : nat) (st : State)
    (listener : Listener.t) (event : Event.t) : outcome unit :=
  let script := code (Listener.handler listener) event in
  match run_calls emit_rec (S depth) (observe depth Begin listener event st)
          (calls script) with
  | Returned st2 _ =>
      if throws script
      then Threw (observe depth EndThrow listener event st2)
             (HandlerFailed (Listener.handler listener))
      else Returned (observe depth EndOk listener event st2) tt
  | Threw st2 e => Threw (observe depth EndThrow listener event st2) e
  | OutOfFuel => OutOfFuel
  end.

(** The loop over [sortedListeners], with its two accumulators. *)
Fixpoint notify (emit_rec : emit_fn) (depth : nat) (event : Event.t)
    (sortedListeners : list Listener.t) (st : State) (notified : nat)
    (toRemove : list string) : outcome (nat * list string) :=
  match sortedListeners with
  | [] => Returned st (notified, toRemove)
  | listener :: rest =>
      match call_handler emit_rec depth st listener event with
      | Returned st' _ =>
          notify emit_rec depth event rest st' (S notified)
            (if Listener.once listener
             then toRemove ++ [Listener.id listener] else toRemove)
      | Threw st' _ => notify emit_rec depth event rest st' notified toRemove
      | OutOfFuel => OutOfFuel
      end
  end.

(** [listeners.delete(listenerId)] on the inner map at [loc]. *)
Definition delete_at (loc : nat) (st : State) (listenerId : string) : State :=
  with_buckets
    (<[loc := jm_delete listenerId (bucket_at st loc)]> (buckets st)) st.

Definition priority_compare (a b : Listener.t) : Z :=
  (Listener.priority b - Listener.priority a)%Z.

Definition emit_step (emit_rec : emit_fn) (depth : nat) (st : State)
    (eventType : string) (data : Obj) (now : Z) (eventId : string)
  : outcome nat :=
  if negb (initialized st) then Threw st NotInitialized else
  let event :=
    {| Event.type := eventType; Event.data := data; Event.timestamp := now;
       Event.id := eventId |} in
  let st1 := _addToQueue st event in
  match jm_get eventType (listeners st1) with
  | None => Returned st1 0
  | Some loc =>
      if Nat.eqb (jm_size (bucket_at st1 loc)) 0 then Returned st1 0 else
      let sortedListeners :=
        js_sort priority_compare (jm_values (bucket_at st1 loc)) in
      match notify emit_rec depth event sortedListeners st1 0 [] with
      | Returned st2 (notified, toRemove) =>
          Returned (foldl (delete_at loc) st2 toRemove) notified
      | Threw st2 e => Threw st2 e
      | OutOfFuel => OutOfFuel
      end
  end.

(** [emit], with [fuel] bounding how deep emissions may nest: an emission
    made by a handler runs with one unit less. *)
Fixpoint emit (fuel : nat) (depth : nat) (st : State) (eventType : string)
    (data : Obj) (now : Z) (eventId : string) : outcome nat :=
  emit_step
    (match fuel with
     | 0 => fun _ _ _ _ _ _ => OutOfFuel
     | S fuel' => emit fuel'
     end)
    depth st eventType data now eventId.

(** A sequence of calls made by a collaborator from outside any handler,
    each of them awaited before the next is made.  Calls of [emit] that
    are started without being awaited run interleaved, each up to its next
    [await]; such runs are outside this model. *)
Definition run (fuel : nat) (st : State) (cs : list Call) : outcome unit :=
  run_calls (emit fuel) 0 st cs.

(** The states a listener can be in: it is constructed and initialised, and
    then collaborators call it; a call that throws leaves the state it had
    reached. *)
Inductive reachable : State → Prop :=
| reachable_init : reachable (with_initialized true constructor)
| reachable_returned st fuel c st' :
    reachable st → run_call (emit fuel) 0 st c = Returned st' tt →
    reachable st'
| reachable_threw st fuel c st' e :
    reachable st → run_call (emit fuel) 0 st c = Threw st' e →
    reachable st'.

(** Handlers that make no call on the listener. *)
Definition quiet : Prop := ∀ h ev, calls (code h ev) = [].

(** Handlers none of whose calls on the listener is a call of [emit]. *)
Definition is_emit (c : Call) : bool :=
  match c with
  | CallEmit _ _ _ _ => true
  | _ => false
  end.

Definition never_emits : Prop :=
  ∀ h ev, Forall (λ c, is_emit c = false) (calls (code h ev)).

(** Handlers that may call the listener, but never [emit]. *)
Definition no_reentry (lid : string) : Prop :=
  ∀ h ev, Forall (plain_call lid) (calls (code h ev)).

(** A listener whose handler returns on the event. *)
Definition returns_on (ev : Event.t) (l : Listener.t) : Prop :=
  throws (code (Listener.handler l) ev) = false.

#[global] Instance returns_on_dec ev l : Decision (returns_on ev l).
Proof. unfold returns_on. apply _. Defined.

(** What such handlers let observe of an emission to the listeners [ls],
    and the ids the emission then deletes. *)
Definition quiet_trace (depth : nat) (ev : Event.t) (ls : list Listener.t)
  : list Invocation :=
  l ← ls;
  [ {| inv_depth := depth; inv_phase := Begin; inv_listener := l;
       inv_event := ev |};
    {| inv_depth := depth;
       inv_phase := if throws (code (Listener.handler l) ev)
                    then EndThrow else EndOk;
       inv_listener := l; inv_event := ev |} ].

Definition removable (ev : Event.t) (ls : list Listener.t) : list string :=
  Listener.id <$>
    filter (λ l, Listener.once l = true ∧ returns_on ev l) ls.

End Dispatch.

(** A property of the state an outcome ends in. *)
Definition post {A : Type} (P : State → Prop) (o : outcome A) : Prop :=
  match o with
  | Returned st _ => P st
  | Threw st _ => P st
  | OutOfFuel => True
  end.

(** An emission function that keeps a property of the state. *)
Definition preserving (P : State → Prop) (f : emit_fn) : Prop :=
  ∀ depth st eventType data now eventId,
    P st → post P (f depth st eventType data now eventId).

(** [g] gives every result that [f] gives. *)
Definition refines (f g : emit_fn) : Prop :=
  ∀ depth st eventType data now eventId,
    f depth st eventType data now eventId ≠ OutOfFuel →
    g depth st eventType data now eventId
    = f depth st eventType data now eventId.

(** A property of the state that every elementary update keeps. *)
Record closed (P : State → Prop) : Prop := {
  closed_on : ∀ st ty h o lid now, P st → post P (on st ty h o lid now);
  closed_off : ∀ st ty lid, P st → post P (off st ty lid);
  closed_removeAll : ∀ st ty, P st → post P (removeAllListeners st ty);
  closed_clearQueue : ∀ st, P st → post P (clearQueue st);
  closed_addToQueue : ∀ st ev, P st → P (_addToQueue st ev);
  closed_delete_at : ∀ loc st lid, P st → P (delete_at loc st lid);
  closed_observe : ∀ d ph l ev st, P st → P (observe d ph l ev st)
}.

(** A property of the state that such calls keep. *)
Record closed_for (lid : string) (P : State → Prop) : Prop := {
  cf_call : ∀ f d st c, plain_call lid c → P st → post P (run_call f d st c);
  cf_addToQueue : ∀ st ev, P st → P (_addToQueue st ev);
  cf_delete_at : ∀ loc st listenerId, P st → P (delete_at loc st listenerId);
  cf_observe : ∀ d ph l ev st, P st → P (observe d ph l ev st)
}.

(** The call of [emit] that builds the event [ev]. *)
Definition emit_call (ev : Event.t) : Call :=
  CallEmit (Event.type ev) (Event.data ev) (Event.timestamp ev) (Event.id ev).

(** An inner map as [on] builds it: every listener sits under its own id. *)
Definition wf_bucket (b : list (string * Listener.t)) : Prop :=
  NoDup (jm_keys b) ∧ Forall (λ kv, kv.1 = Listener.id kv.2) b.

(** The shape of the registry: one entry per event type, each with an inner
    map of its own in the store. *)
Definition wf (st : State) : Prop :=
  NoDup (jm_keys (listeners st)) ∧
  NoDup (jm_values (listeners st)) ∧
  Forall (λ loc, loc < length (buckets st)) (jm_values (listeners st)) ∧
  Forall wf_bucket (buckets st).

(** The history holds at most [m] events when [m] is the capacity. *)
Definition bounded (m : nat) (st : State) : Prop :=
  maxQueueSize st = m ∧ length (eventQueue st) ≤ m.

#[global] Instance wf_bucket_dec b : Decision (wf_bucket b).
Proof. unfold wf_bucket. apply _. Defined.

#[global] Instance wf_dec st : Decision (wf st).
Proof. unfold wf. apply _. Defined.

(** The observations of one phase made by the emission at one depth. *)
Definition own (depth : nat) (phase : Phase) (seg : list Invocation)
  : list Invocation :=
  filter (λ i, inv_depth i = depth ∧ inv_phase i = phase) seg.

(** The calls that ended, either way, in the emission at one depth. *)
Definition settled (depth : nat) (seg : list Invocation) : list Invocation :=
  filter (λ i, inv_depth i = depth ∧ inv_phase i ≠ Begin) seg.

(** Observations made at depth [depth] or deeper. *)
Definition deeper (depth : nat) (seg : list Invocation) : Prop :=
  Forall (λ i, depth ≤ inv_depth i) seg.

(** The outcome only adds observations, none of them above [depth]. *)
Definition extends {A : Type} (depth : nat) (st : State) (o : outcome A)
  : Prop :=
  post (λ st', ∃ seg, invoked st' = invoked st ++ seg ∧ deeper depth seg) o.

Definition logs_from_depth (f : emit_fn) : Prop :=
  ∀ depth st eventType data now eventId,
    extends depth st (f depth st eventType data now eventId).

(** A registration: the arguments of one call of [on] with a function as
    handler, and the listener record that call builds. *)
Record Registration : Type := {
  reg_type : string;
  reg_handler : HandlerRef;
  reg_options : Options;
  reg_id : string;
  reg_now : Z
}.

Definition reg_call (r : Registration) : Call :=
  CallOn (reg_type r) (Fn (reg_handler r)) (Some (reg_options r)) (reg_id r)
    (reg_now r).

Definition reg_listener (r : Registration) : Listener.t :=
  {| Listener.id := reg_id r;
     Listener.handler := reg_handler r;
     Listener.once := default false (opt_once (reg_options r));
     Listener.priority := default 0%Z (opt_priority (reg_options r));
     Listener.createdAt := reg_now r |}.

(** The registrations for one event type, in registration order. *)
Definition registered (eventType : string) (regs : list Registration)
  : list Registration :=
  filter (λ r, reg_type r = eventType) regs.

(** Where a subscription is in the store: [l] sits under its id in the
    inner map at [loc]; its id is not in that inner map; its id is not in
    the inner map of the event type; its id is used for [l] in the inner map
    at [loc] and nowhere else in the store. *)
Definition registered_at (loc : nat) (l : Listener.t) (st : State) : Prop :=
  (Listener.id l, l) ∈ bucket_at st loc.

Definition absent_at (loc : nat) (l : Listener.t) (st : State) : Prop :=
  Listener.id l ∉ jm_keys (bucket_at st loc).

Definition gone_from (eventType : string) (l : Listener.t) (st : State)
  : Prop :=
  Listener.id l ∉ jm_keys (bucket_of st eventType).

Definition only_at (loc : nat) (l : Listener.t) (st : State) : Prop :=
  ∀ loc' v, jm_get (Listener.id l) (bucket_at st loc') = Some v →
            loc' = loc ∧ v = l.

(** An initialised, well-formed listener in which the id of [l] is used
    for [l] only. *)
Definition sound (loc : nat) (l : Listener.t) (st : State) : Prop :=
  initialized st = true ∧ wf st ∧ only_at loc l st.

(** How often a listener id was called with an event of a type. *)
Definition fired (eventType listenerId : string) (seg : list Invocation)
  : nat :=
  length
    (filter
       (λ i, inv_phase i = Begin ∧ Event.type (inv_event i) = eventType ∧
             Listener.id (inv_listener i) = listenerId) seg).

End IntegrationListener.

(** ** The machines adapter *)

Module Machine.
Record t : Type := mk {
  id : string;
  type : string;
  state : string;
  states : Obj;
  transitions : gmap string (gmap string string);
  context : Obj;
  createdAt : Z;
  updatedAt : Z
}.
End Machine.

(** The [config] argument of [registerMachine]; an absent property is
    [None]. *)
Module Config.
Record t : Type := mk {
  type : option string;
  initialState : option string;
  states : option Obj;
  transitions : option (gmap string (gmap string string));
  context : option Obj
}.
End Config.

Module TransitionResult.
Record t : Type := mk {
  success : bool;
  from : string;
  to : string;
  event : string;
  context : option Obj
}.
End TransitionResult.

(** [s || d] for an optional string: absent and empty both give [d]. *)
Definition string_or (s : option string) (d : string) : string :=
  match s with
  | Some s' => if truthy_string s' then s' else d
  | None => d
  end.

(** [!x] for the result of a property lookup in a table of strings. *)
Definition js_not (x : option string) : bool :=
  match x with
  | Some s => negb (truthy_string s)
  | None => true
  end.

(** The members every plain object inherits from [Object.prototype].  A
    property read [o[name]] on a plain object that has no own property
    [name] finds them; each of them is a function or an object, hence
    truthy, and none is a string. *)
Definition object_prototype_members : list string :=
  ["constructor"; "__proto__"; "__defineGetter__"; "__defineSetter__";
   "__lookupGetter__"; "__lookupSetter__"; "hasOwnProperty"; "isPrototypeOf";
   "propertyIsEnumerable"; "toLocaleString"; "toString"; "valueOf"].

Definition inherited (name : string) : bool :=
  bool_decide (name ∈ object_prototype_members).

Module MachinesAdapter.
Section MachinesAdapter.

(** The external systems the adapters talk to, together with the adapters'
    own fields, and the failures an adapter operation may end with. *)
Context {World Failure : Type}.

(** [TypeError] is what reading a property of [undefined] throws. *)
Inductive Error : Type :=
| NotInitialized
| MachineNotFound (machineId : string)
| InvalidAdapter
| AdapterNotFound (adapterType : string)
| AdapterFailed (error : Failure)
| TypeError.

(** How an awaited adapter operation settles. *)
Inductive settled (A : Type) : Type :=
| Fulfilled (a : A)
| Rejected (error : Failure).
Arguments Fulfilled {A} a.
Arguments Rejected {A} error.

Record Adapter : Type := {
  adapter_connect : Obj → World → World * settled unit;
  adapter_send : Obj → World → World * settled (option Obj);
  adapter_receive : World → World * settled (option Obj)
}.

(** An object offered to [registerAdapter]; a missing method is [None]. *)
Record AdapterObject : Type := {
  obj_connect : option (Obj → World → World * settled unit);
  obj_send : option (Obj → World → World * settled (option Obj));
  obj_receive : option (World → World * settled (option Obj))
}.

Inductive Operation : Type :=
| OpConnect (config : Obj)
| OpSend (data : Obj)
| OpReceive.

(** The world, with the adapter operations invoked so far, by adapter
    type. *)
Record Env : Type := {
  world : World;
  performed : list (string * Operation)
}.

Record State : Type := {
  machines : list (string * Machine.t);
  adapters : list (string * Adapter);
  initialized : bool
}.

(** The result of a method call.  The last two are results of [transition]
    on the adapter in the state [st], where a lookup in the table finds a
    member of [Object.prototype] and no own entry.
    [InheritedDestination st member]: the event is the name [member] and the
    code takes the inherited member for the destination; it reports success
    and stores the member, which is not a string, as the state of the
    machine.  [InheritedRow st member]: the state of the machine is the name
    [member] and the code takes the inherited member for the row of the
    table; what it finds in there for the event is not modelled.  In both
    cases the machine has left the states this model describes, and a
    sequence of calls is followed no further. *)
Inductive outcome (A : Type) : Type :=
| Returned (st : State) (a : A)
| Threw (st : State) (e : Error)
| InheritedDestination (st : State) (member : string)
| InheritedRow (st : State) (member : string).
Arguments Returned {A} st a.
Arguments Threw {A} st e.
Arguments InheritedDestination {A} st member.
Arguments InheritedRow {A} st member.

Definition constructor : State :=
  {| machines := []; adapters := []; initialized := false |}.

Definition registerAdapter (st : State) (adapterType : string)
    (adapter : AdapterObject) : outcome unit :=
  if negb (initialized st) then Threw st NotInitialized else
  match obj_connect adapter, obj_send adapter, obj_receive adapter with
  | Some c, Some s, Some r =>
      Returned
        {| machines := machines st;
           adapters :=
             jm_set adapterType
               {| adapter_connect := c; adapter_send := s;
                  adapter_receive := r |} (adapters st);
           initialized := initialized st |} tt
  | _, _, _ => Threw st InvalidAdapter
  end.

(** [registerAdapter] called without an adapter object: reading
    [adapter.connect] of [undefined] throws. *)
Definition registerAdapter_undefined (st : State) (adapterType : string)
  : outcome unit :=
  if negb (initialized st) then Threw st NotInitialized
  else Threw st TypeError.

(** The two adapter objects [_registerDefaultAdapters] builds. *)
Variable httpAdapter : AdapterObject.
Variable wsAdapter : AdapterObject.

Definition _registerDefaultAdapters (st : State) : outcome unit :=
  match registerAdapter st "http" httpAdapter with
  | Returned st1 _ => registerAdapter st1 "websocket" wsAdapter
  | o => o
  end.

Definition init (st : State) : outcome unit :=
  if initialized st then Returned st tt else
  match
    _registerDefaultAdapters
      {| machines := machines st; adapters := adapters st;
         initialized := true |}
  with
  | Returned st1 _ => Returned st1 tt
  | Threw st1 e =>
      Threw {| machines := machines st1; adapters := adapters st1;
               initialized := false |} e
  | o => o
  end.

(** [config] is [None] when the caller leaves the argument out: reading
    [config.type] then throws.  [createdNow] and [updatedNow] are the two
    readings of [Date.now()], in the order they are made. *)
Definition registerMachine (st : State) (machineId : string)
    (config : option Config.t) (createdNow updatedNow : Z)
  : outcome Machine.t :=
  if negb (initialized st) then Threw st NotInitialized else
  match config with
  | None => Threw st TypeError
  | Some config =>
      let machine :=
        {| Machine.id := machineId;
           Machine.type := string_or (Config.type config) "generic";
           Machine.state := string_or (Config.initialState config) "idle";
           Machine.states := default ∅ (Config.states config);
           Machine.transitions := default ∅ (Config.transitions config);
           Machine.context := default ∅ (Config.context config);
           Machine.createdAt := createdNow;
           Machine.updatedAt := updatedNow |} in
      Returned
        {| machines := jm_set machineId machine (machines st);
           adapters := adapters st; initialized := initialized st |}
        machine
  end.

Definition getMachine (st : State) (machineId : string)
  : outcome (option Machine.t) :=
  if negb (initialized st) then Threw st NotInitialized
  else Returned st (jm_get machineId (machines st)).

(** [payload] is [None] for a falsy payload ([null]); a caller that leaves
    the argument out passes the empty object.  The table and its rows are
    plain objects, read with [machine.transitions[currentState]] and
    [transitions[event]]: a read that finds no own entry finds the member
    of [Object.prototype] of that name, when there is one.  The row [{}]
    that stands in for a missing row inherits the same members. *)
Definition transition (st : State) (machineId event : string)
    (payload : option Obj) (now : Z) : outcome TransitionResult.t :=
  if negb (initialized st) then Threw st NotInitialized else
  match jm_get machineId (machines st) with
  | None => Threw st (MachineNotFound machineId)
  | Some machine =>
      let currentState := Machine.state machine in
      if bool_decide (Machine.transitions machine !! currentState = None)
         && inherited currentState
      then InheritedRow st currentState else
      let transitions :=
        default ∅ (Machine.transitions machine !! currentState) in
      if bool_decide (transitions !! event = None) && inherited event
      then InheritedDestination st event else
      if js_not (transitions !! event) then
        Returned st
          {| TransitionResult.success := false;
             TransitionResult.from := currentState;
             TransitionResult.to := currentState;
             TransitionResult.event := event;
             TransitionResult.context := None |}
      else
        let nextState := default "" (transitions !! event) in
        let context' :=
          match payload with
          | Some p => p ∪ Machine.context machine
          | None => Machine.context machine
          end in
        let machine' :=
          {| Machine.id := Machine.id machine;
             Machine.type := Machine.type machine;
             Machine.state := nextState;
             Machine.states := Machine.states machine;
             Machine.transitions := Machine.transitions machine;
             Machine.context := context';
             Machine.createdAt := Machine.createdAt machine;
             Machine.updatedAt := now |} in
        Returned
          {| machines := jm_set machineId machine' (machines st);
             adapters := adapters st; initialized := initialized st |}
          {| TransitionResult.success := true;
             TransitionResult.from := currentState;
             TransitionResult.to := nextState;
             TransitionResult.event := event;
             TransitionResult.context := Some context' |}
  end.

Definition getAdapter (st : State) (adapterType : string)
  : outcome (option Adapter) :=
  if negb (initialized st) then Threw st NotInitialized
  else Returned st (jm_get adapterType (adapters st)).

(** The three adapter calls leave the registry as it is; what they change is
    the world.  A rejection of the awaited operation is caught, logged and
    thrown again. *)
Definition invoke {A : Type} (adapterType : string) (op : Operation)
    (run : World → World * settled A) (env : Env) : Env * (A + Error) :=
  let '(w, r) := run (world env) in
  ({| world := w; performed := performed env ++ [(adapterType, op)] |},
   match r with
   | Fulfilled a => inl a
   | Rejected error => inr (AdapterFailed error)
   end).

Definition connect (st : State) (env : Env) (adapterType : string)
    (config : Obj) : Env * (bool + Error) :=
  if negb (initialized st) then (env, inr NotInitialized) else
  match jm_get adapterType (adapters st) with
  | None => (env, inr (AdapterNotFound adapterType))
  | Some adapter =>
      let '(env', r) :=
        invoke adapterType (OpConnect config) (adapter_connect adapter config)
          env in
      (env', match r with inl _ => inl true | inr e => inr e end)
  end.

Definition send (st : State) (env : Env) (adapterType : string) (data : Obj)
  : Env * (option Obj + Error) :=
  if negb (initialized st) then (env, inr NotInitialized) else
  match jm_get adapterType (adapters st) with
  | None => (env, inr (AdapterNotFound adapterType))
  | Some adapter =>
      invoke adapterType (OpSend data) (adapter_send adapter data) env
  end.

Definition receive (st : State) (env : Env) (adapterType : string)
  : Env * (option Obj + Error) :=
  if negb (initialized st) then (env, inr NotInitialized) else
  match jm_get adapterType (adapters st) with
  | None => (env, inr (AdapterNotFound adapterType))
  | Some adapter => invoke adapterType OpReceive (adapter_receive adapter) env
  end.

Definition getAllMachines (st : State) : outcome (list Machine.t) :=
  if negb (initialized st) then Threw st NotInitialized
  else Returned st (jm_values (machines st)).

Definition getAllAdapters (st : State) : outcome (list string) :=
  if negb (initialized st) then Threw st NotInitialized
  else Returned st (jm_keys (adapters st)).

(** The same call of [transition] made [n] times in a row, as long as it
    returns. *)
Fixpoint repeat_transition (n : nat) (st : State) (machineId event : string)
    (payload : option Obj) (now : Z) : State :=
  match n with
  | 0 => st
  | S n' =>
      match transition st machineId event payload now with
      | Returned st' _ => repeat_transition n' st' machineId event payload now
      | Threw st' _ | InheritedDestination st' _ | InheritedRow st' _ => st'
      end
  end.

End MachinesAdapter.

Arguments Returned {World Failure A} st a.
Arguments Threw {World Failure A} st e.
Arguments InheritedDestination {World Failure A} st member.
Arguments InheritedRow {World Failure A} st member.
Arguments Fulfilled {Failure A} a.
Arguments Rejected {Failure A} error.

End MachinesAdapter.

(** ** Sample handlers, states and machines *)
Module Samples.
Import IntegrationListener.

(** Handlers that only observe; handler 2 throws. *)
Definition observers (h : HandlerRef) (ev : Event.t) : Script :=
  {| calls := []; throws := Nat.eqb h 2 |}.

(** Handler 0 answers the event [e1] by emitting an event of type [a]
    itself; every other handler only observes. *)
Definition relay (h : HandlerRef) (ev : Event.t) : Script :=
  match h with
  | 0 =>
      if String.eqb (Event.id ev) "e1"
      then {| calls := [CallEmit "a" ∅ 0 "e2"]; throws := false |}
      else {| calls := []; throws := false |}
  | _ => {| calls := []; throws := false |}
  end.

(** Handler 0 drops every subscription for [a] and registers handler 1
    again under the new id [l9]; every other handler only observes. *)
Definition janitor (h : HandlerRef) (ev : Event.t) : Script :=
  match h with
  | 0 =>
      {| calls := [CallRemoveAllListeners (Some "a");
                   CallOn "a" (Fn 1) (Some no_options) "l9" 3];
         throws := false |}
  | _ => {| calls := []; throws := false |}
  end.

(** A listener that has been constructed and initialised. *)
Definition ready : State := with_initialized true constructor.

Definition with_priority (p : Z) : Options :=
  {| opt_once := None; opt_priority := Some p |}.

Definition three_registrations : list Registration :=
  [ {| reg_type := "a"; reg_handler := 0; reg_options := with_priority 1;
       reg_id := "l0"; reg_now := 10 |};
    {| reg_type := "a"; reg_handler := 2; reg_options := with_priority 5;
       reg_id := "l1"; reg_now := 11 |};
    {| reg_type := "a"; reg_handler := 1; reg_options := with_priority 1;
       reg_id := "l2"; reg_now := 12 |} ].

(** Registrations with three different priorities. *)
Definition ranked_registrations : list Registration :=
  [ {| reg_type := "a"; reg_handler := 0; reg_options := with_priority 1;
       reg_id := "l0"; reg_now := 10 |};
    {| reg_type := "a"; reg_handler := 2; reg_options := with_priority 5;
       reg_id := "l1"; reg_now := 11 |};
    {| reg_type := "a"; reg_handler := 1; reg_options := with_priority 3;
       reg_id := "l2"; reg_now := 12 |} ].

(** The listener with one plain subscription and one one-shot
    subscription for [a]. *)
Definition once_listener : Listener.t :=
  {| Listener.id := "l1"; Listener.handler := 1; Listener.once := true;
     Listener.priority := 0; Listener.createdAt := 0 |}.

Definition plain_and_once : State :=
  {| listeners := [("a", 0)];
     buckets :=
       [[("l0", {| Listener.id := "l0"; Listener.handler := 0;
                   Listener.once := false; Listener.priority := 5;
                   Listener.createdAt := 0 |});
         ("l1", once_listener)]];
     eventQueue := []; initialized := true; maxQueueSize := 1000;
     invoked := [] |}.

(** The listener with a single one-shot subscription whose handler
    throws. *)
Definition once_thrower : State :=
  {| listeners := [("a", 0)];
     buckets :=
       [[("l2", {| Listener.id := "l2"; Listener.handler := 2;
                   Listener.once := true; Listener.priority := 0;
                   Listener.createdAt := 0 |})]];
     eventQueue := []; initialized := true; maxQueueSize := 1000;
     invoked := [] |}.

Definition event_e2 : Event.t :=
  {| Event.type := "a"; Event.data := ∅; Event.timestamp := 1;
     Event.id := "e2" |}.

(** A listener in use.  It has three subscriptions for [a]: a plain one
    with priority 5 and two one-shot ones, the second with handler 2, which
    throws under [observers]; and a single, one-shot subscription for [b].
    Seven events of type [c], which nobody listens to, are in its
    history. *)
Definition once_opts : Options :=
  {| opt_once := Some true; opt_priority := None |}.

Definition past (n : Z) (eventId : string) : Call :=
  CallEmit "c" ∅ n eventId.

Definition busy_calls : list Call :=
  [ CallOn "a" (Fn 0) (Some (with_priority 5)) "l0" 0;
    CallOn "a" (Fn 1) (Some once_opts) "l1" 0;
    CallOn "a" (Fn 2) (Some once_opts) "l2" 0;
    CallOn "b" (Fn 1) (Some once_opts) "l3" 0;
    past 1 "p1"; past 2 "p2"; past 3 "p3"; past 4 "p4"; past 5 "p5";
    past 6 "p6"; past 7 "p7" ].

Definition past_event (n : Z) (eventId : string) : Event.t :=
  {| Event.type := "c"; Event.data := ∅; Event.timestamp := n;
     Event.id := eventId |}.

Definition busy : State :=
  {| listeners := [("a", 0); ("b", 1)];
     buckets :=
       [[("l0", {| Listener.id := "l0"; Listener.handler := 0;
                   Listener.once := false; Listener.priority := 5;
                   Listener.createdAt := 0 |});
         ("l1", once_listener);
         ("l2", {| Listener.id := "l2"; Listener.handler := 2;
                   Listener.once := true; Listener.priority := 0;
                   Listener.createdAt := 0 |})];
        [("l3", {| Listener.id := "l3"; Listener.handler := 1;
                   Listener.once := true; Listener.priority := 0;
                   Listener.createdAt := 0 |})]];
     eventQueue :=
       [past_event 1 "p1"; past_event 2 "p2"; past_event 3 "p3";
        past_event 4 "p4"; past_event 5 "p5"; past_event 6 "p6";
        past_event 7 "p7"];
     initialized := true; maxQueueSize := 1000; invoked := [] |}.

(** The listener after its only subscription was removed with [off]. *)
Definition emptied : State :=
  {| listeners := [("a", 0)]; buckets := [[]]; eventQueue := [];
     initialized := true; maxQueueSize := 1000; invoked := [] |}.

Definition event_e1 : Event.t :=
  {| Event.type := "a"; Event.data := ∅; Event.timestamp := 0;
     Event.id := "e1" |}.

(** A machine in state [idle] whose table sends [start] to [processing] and
    has an entry for [go] with the empty string as destination. *)
Definition flow : Machine.t :=
  {| Machine.id := "flow"; Machine.type := "generic"; Machine.state := "idle";
     Machine.states := ∅;
     Machine.transitions :=
       {[ "idle" := {[ "start" := "processing"; "go" := "" ]};
          "processing" := {[ "complete" := "done" ]} ]};
     Machine.context := {[ "step" := VNum 1; "user" := VStr "ada" ]};
     Machine.createdAt := 1; Machine.updatedAt := 1 |}.

(** An adapter whose operations all reject with [offline]; its world is the
    list of the requests that reached it. *)
Definition offline : MachinesAdapter.Adapter (World := list string)
                       (Failure := string) :=
  {| MachinesAdapter.adapter_connect :=
       λ _ w, (w ++ ["connect"], MachinesAdapter.Rejected "offline");
     MachinesAdapter.adapter_send :=
       λ _ w, (w ++ ["send"], MachinesAdapter.Rejected "offline");
     MachinesAdapter.adapter_receive :=
       λ w, (w ++ ["receive"], MachinesAdapter.Rejected "offline") |}.

Definition one_machine : MachinesAdapter.State (World := list string)
                           (Failure := string) :=
  {| MachinesAdapter.machines := [("flow", flow)];
     MachinesAdapter.adapters := [("radio", offline)];
     MachinesAdapter.initialized := true |}.

Definition quiet_world : MachinesAdapter.Env (World := list string) :=
  {| MachinesAdapter.world := []; MachinesAdapter.performed := [] |}.

End Samples.

(** ** Sequences of calls on the machines adapter *)
Module MachineRuns.
Import MachinesAdapter.

(** Where a machine gets by following its table from the state [s] on the
    events [events]: an event with a non-empty destination in the row of the
    current state moves it there, any other event leaves it where it is. *)
Fixpoint table_walk (table : gmap string (gmap string string)) (s : string)
    (events : list string) : string :=
  match events with
  | [] => s
  | event :: events' =>
      match default ∅ (table !! s) !! event with
      | Some destination =>
          if truthy_string destination
          then table_walk table destination events'
          else table_walk table s events'
      | None => table_walk table s events'
      end
  end.

Section MachineRuns.
Context {World Failure : Type}.

(** A call by which a collaborator changes the registries.  The adapter of
    [CallRegisterAdapter] is [None] when the caller passes no object. *)
Inductive Call : Type :=
| CallRegisterMachine (machineId : string) (config : option Config.t)
    (createdNow updatedNow : Z)
| CallTransition (machineId event : string) (payload : option Obj) (now : Z)
| CallRegisterAdapter (adapterType : string)
    (adapter : option (@AdapterObject World Failure)).

Definition discard {A : Type} (o : @outcome World Failure A)
  : @outcome World Failure unit :=
  match o with
  | Returned st _ => Returned st tt
  | Threw st e => Threw st e
  | InheritedDestination st member => InheritedDestination st member
  | InheritedRow st member => InheritedRow st member
  end.

Definition run_call (st : @State World Failure) (c : Call)
  : @outcome World Failure unit :=
  match c with
  | CallRegisterMachine machineId config createdNow updatedNow =>
      discard (registerMachine st machineId config createdNow updatedNow)
  | CallTransition machineId event payload now =>
      discard (transition st machineId event payload now)
  | CallRegisterAdapter adapterType (Some adapter) =>
      registerAdapter st adapterType adapter
  | CallRegisterAdapter adapterType None =>
      registerAdapter_undefined st adapterType
  end.

(** Calls made one after the other; the first one that does not return
    ends the sequence. *)
Fixpoint run (st : @State World Failure) (cs : list Call)
  : @outcome World Failure unit :=
  match cs with
  | [] => Returned st tt
  | c :: cs' =>
      match run_call st c with
      | Returned st' _ => run st' cs'
      | o => o
      end
  end.

(** The events sent to one machine by a sequence of calls. *)
Definition events_for (machineId : string) (cs : list Call) : list string :=
  c ← cs;
  match c with
  | CallTransition machineId' event _ _ =>
      if decide (machineId' = machineId) then [event] else []
  | _ => []
  end.

(** A call that registers the machine, possibly again. *)
Definition registers (machineId : string) (c : Call) : Prop :=
  match c with
  | CallRegisterMachine machineId' _ _ _ => machineId' = machineId
  | _ => False
  end.

#[global] Instance registers_dec machineId c : Decision (registers machineId c).
Proof. destruct c; simpl; apply _. Defined.

(** The state an outcome ends in. *)
Definition final {A : Type} (o : @outcome World Failure A)
  : @State World Failure :=
  match o with
  | Returned st _ | Threw st _ | InheritedDestination st _
  | InheritedRow st _ => st
  end.

End MachineRuns.
End MachineRuns.

(** ** The token service *)

(** [x || d] for an optional number: absent and 0 both give [d]. *)
Definition number_or (x : option Z) (d : Z) : Z :=
  match x with
  | Some n => if (n =? 0)%Z then d else n
  | None => d
  end.

(** The [payload] argument of [generate]: its [expiresAt] property, a number
    when it is there, and its other properties. *)
Module Payload.
Record t : Type := mk {
  expiresAt : option Z;
  fields : Obj
}.
Definition empty : t := {| expiresAt := None; fields := ∅ |}.
End Payload.

Module Token.
Record t : Type := mk {
  id : string;
  value : string;
  type : string;
  payload : Payload.t;
  createdAt : Z;
  expiresAt : Z
}.
End Token.

Module TokenService.

(** [InvalidCharacter] is what [btoa] throws on a string with a character
    above U+00FF, [PayloadNull] the [TypeError] of reading a property of
    [null]. *)
Inductive Error : Type :=
| NotInitialized
| InvalidCharacter
| PayloadNull.

Record State : Type := {
  tokens : list (string * Token.t);
  initialized : bool
}.

Inductive outcome (A : Type) : Type :=
| Returned (st : State) (a : A)
| Threw (st : State) (e : Error).
Arguments Returned {A} st a.
Arguments Threw {A} st e.

Definition with_tokens (m : list (string * Token.t)) (st : State) : State :=
  {| tokens := m; initialized := initialized st |}.

Definition constructor : State := {| tokens := []; initialized := false |}.

(** [new Map(entries)]: the entries are set one after the other. *)
Definition map_of_entries {V : Type} (entries : list (string * V))
  : list (string * V) :=
  foldl (λ m kv, jm_set kv.1 kv.2 m) [] entries.

(** [stored] is what [_loadFromStorage] finds: the entries of the stored
    [tokens] object, or [None] when there is no storage, nothing stored, or
    no such property.  What the service writes to the storage is not part of
    the model. *)
Definition init (st : State) (stored : option (list (string * Token.t)))
  : outcome unit :=
  if initialized st then Returned st tt else
  match stored with
  | Some entries =>
      Returned {| tokens := map_of_entries entries; initialized := true |} tt
  | None => Returned {| tokens := tokens st; initialized := true |} tt
  end.

(** The generated id and value and the two readings of the clock, for
    [createdAt] and for the default of [expiresAt], are inputs.
    [tokenValue] is the result of [_generateTokenValue]: the encoding of
    the type, the payload and a reading of the clock, or [None] when [btoa]
    throws, as it does when the type or the payload holds a character above
    U+00FF.  [payload] is [None] for [null], which the default value [{}]
    does not replace: the value is computed, and then reading
    [payload.expiresAt] throws.  Either way nothing has been stored. *)
Definition generate (st : State) (type : string) (payload : option Payload.t)
    (tokenId : string) (tokenValue : option string) (createdNow expiryNow : Z)
  : outcome Token.t :=
  if negb (initialized st) then Threw st NotInitialized else
  match tokenValue with
  | None => Threw st InvalidCharacter
  | Some tokenValue =>
      match payload with
      | None => Threw st PayloadNull
      | Some payload =>
          let token :=
            {| Token.id := tokenId;
               Token.value := tokenValue;
               Token.type := type;
               Token.payload := payload;
               Token.createdAt := createdNow;
               Token.expiresAt :=
                 number_or (Payload.expiresAt payload)
                   (expiryNow + 3600000)%Z |} in
          Returned (with_tokens (jm_set tokenId token (tokens st)) st) token
      end
  end.

Definition revoke (st : State) (tokenId : string) : outcome bool :=
  if negb (initialized st) then Threw st NotInitialized else
  let removed := jm_has tokenId (tokens st) in
  Returned (with_tokens (jm_delete tokenId (tokens st)) st) removed.

Definition validate (st : State) (tokenId : string) (now : Z) : outcome bool :=
  if negb (initialized st) then Threw st NotInitialized else
  match jm_get tokenId (tokens st) with
  | None => Returned st false
  | Some token =>
      if (Token.expiresAt token <? now)%Z then
        match revoke st tokenId with
        | Returned st' _ => Returned st' false
        | Threw st' e => Threw st' e
        end
      else Returned st true
  end.

Definition get (st : State) (tokenId : string) (now : Z)
  : outcome (option Token.t) :=
  if negb (initialized st) then Threw st NotInitialized else
  match jm_get tokenId (tokens st) with
  | None => Returned st None
  | Some token =>
      match validate st tokenId now with
      | Returned st' true => Returned st' (Some token)
      | Returned st' false => Returned st' None
      | Threw st' e => Threw st' e
      end
  end.

(** One step of the loop of [cleanup] over the entries of the map: the
    entry visited is deleted from the map when it has expired.  Deleting the
    entry being visited does not disturb the iteration, so the loop visits
    the entries the map had when it started. *)
Definition cleanup_step (now : Z) (acc : list (string * Token.t) * nat)
    (entry : string * Token.t) : list (string * Token.t) * nat :=
  if (Token.expiresAt entry.2 <? now)%Z
  then (jm_delete entry.1 acc.1, S acc.2)
  else acc.

Definition cleanup (st : State) (now : Z) : outcome nat :=
  if negb (initialized st) then Threw st NotInitialized else
  let '(m, cleaned) := foldl (cleanup_step now) (tokens st, 0) (tokens st) in
  Returned (with_tokens m st) cleaned.

(** A map as the service builds it: every token sits under its own id. *)
Definition wf (st : State) : Prop :=
  NoDup (jm_keys (tokens st)) ∧
  Forall (λ kv, kv.1 = Token.id kv.2) (tokens st).

#[global] Instance wf_dec st : Decision (wf st).
Proof. unfold wf. apply _. Defined.

End TokenService.

(** ** The authentication service *)

Module User.
Record t : Type := mk {
  id : string;
  username : string;
  authenticatedAt : Z;
  role : string
}.
End User.

(** The [credentials] argument of [authenticate]; an absent property is
    [None]. *)
Module Credentials.
Record t : Type := mk {
  username : option string;
  role : option string
}.
End Credentials.

(** A session as found in the storage. *)
Module Session.
Record t : Type := mk {
  user : option User.t;
  token : option Token.t
}.
End Session.

Module AuthService.

(** The last three are the failures of the token service, which this
    service lets through. *)
Inductive Error : Type :=
| NotInitialized
| InvalidCredentials
| UserIsNull
| TokenServiceNotInitialized
| InvalidCharacter
| PayloadNull.

Definition token_error (e : TokenService.Error) : Error :=
  match e with
  | TokenService.NotInitialized => TokenServiceNotInitialized
  | TokenService.InvalidCharacter => InvalidCharacter
  | TokenService.PayloadNull => PayloadNull
  end.

(** The service holds a reference to the token service it was constructed
    with; [tokenService] is the state of that shared object. *)
Record State : Type := {
  tokenService : TokenService.State;
  currentUser : option User.t;
  sessionToken : option Token.t;
  initialized : bool
}.

Inductive outcome (A : Type) : Type :=
| Returned (st : State) (a : A)
| Threw (st : State) (e : Error).
Arguments Returned {A} st a.
Arguments Threw {A} st e.

Definition with_tokenService (ts : TokenService.State) (st : State) : State :=
  {| tokenService := ts; currentUser := currentUser st;
     sessionToken := sessionToken st; initialized := initialized st |}.

Definition constructor (tokenService : TokenService.State) : State :=
  {| tokenService := tokenService; currentUser := None; sessionToken := None;
     initialized := false |}.

(** A call of the token service made by this service. *)
Definition lift {A : Type} (st : State) (o : TokenService.outcome A)
  : outcome A :=
  match o with
  | TokenService.Returned ts a => Returned (with_tokenService ts st) a
  | TokenService.Threw ts e => Threw (with_tokenService ts st) (token_error e)
  end.

(** A failure while restoring is caught; the session is then left as it
    is at that point. *)
Definition _restoreSession (st : State) (session : Session.t) (now : Z)
  : State :=
  match Session.token session with
  | Some token =>
      match TokenService.validate (tokenService st) (Token.id token) now with
      | TokenService.Returned ts true =>
          {| tokenService := ts; currentUser := Session.user session;
             sessionToken := Some token; initialized := initialized st |}
      | TokenService.Returned ts false => with_tokenService ts st
      | TokenService.Threw ts _ => with_tokenService ts st
      end
  | None => st
  end.

(** [session] is what [_loadSession] finds in the storage.  What the
    service writes to the storage or clears there is not part of the
    model. *)
Definition init (st : State) (session : option Session.t) (now : Z)
  : outcome unit :=
  if initialized st then Returned st tt else
  let st1 :=
    match session with
    | Some s => _restoreSession st s now
    | None => st
    end in
  Returned
    {| tokenService := tokenService st1; currentUser := currentUser st1;
       sessionToken := sessionToken st1; initialized := true |} tt.

(** The generated ids and value and the readings of the clock are inputs,
    in the order the code takes them: the user id, [authenticatedAt], the
    reading the session's expiry is computed from, and then those of
    [generate].  The payload of the session token holds the user name, so
    [tokenValue] is [None] for a user name with a character above U+00FF.
    A failure of [generate] is caught, logged and thrown again, before the
    user and the token are stored. *)
Definition authenticate (st : State) (credentials : option Credentials.t)
    (userId : string) (authNow sessionNow : Z) (tokenId : string)
    (tokenValue : option string) (createdNow expiryNow : Z)
  : outcome (User.t * Token.t) :=
  if negb (initialized st) then Threw st NotInitialized else
  match credentials with
  | None => Threw st InvalidCredentials
  | Some c =>
      match Credentials.username c with
      | None => Threw st InvalidCredentials
      | Some username =>
          if negb (truthy_string username) then Threw st InvalidCredentials
          else
            let user :=
              {| User.id := userId;
                 User.username := username;
                 User.authenticatedAt := authNow;
                 User.role := string_or (Credentials.role c) "user" |} in
            let payload :=
              {| Payload.expiresAt := Some (sessionNow + 86400000)%Z;
                 Payload.fields :=
                   {[ "userId" := VStr userId;
                      "username" := VStr username ]} |} in
            match
              TokenService.generate (tokenService st) "session" (Some payload)
                tokenId tokenValue createdNow expiryNow
            with
            | TokenService.Returned ts token =>
                Returned
                  {| tokenService := ts; currentUser := Some user;
                     sessionToken := Some token;
                     initialized := initialized st |}
                  (user, token)
            | TokenService.Threw ts e =>
                Threw (with_tokenService ts st) (token_error e)
            end
      end
  end.

Definition isAuthenticated (st : State) (now : Z) : outcome bool :=
  if negb (initialized st) then Returned st false else
  match currentUser st, sessionToken st with
  | Some _, Some token =>
      lift st (TokenService.validate (tokenService st) (Token.id token) now)
  | _, _ => Returned st false
  end.

Definition getCurrentUser (st : State) (now : Z) : outcome (option User.t) :=
  if negb (initialized st) then Threw st NotInitialized else
  match isAuthenticated st now with
  | Returned st' true => Returned st' (currentUser st')
  | Returned st' false => Returned st' None
  | Threw st' e => Threw st' e
  end.

Definition getSessionToken (st : State) (now : Z)
  : outcome (option Token.t) :=
  if negb (initialized st) then Threw st NotInitialized else
  match isAuthenticated st now with
  | Returned st' true => Returned st' (sessionToken st')
  | Returned st' false => Returned st' None
  | Threw st' e => Threw st' e
  end.

Definition logout (st : State) : outcome unit :=
  if negb (initialized st) then Threw st NotInitialized else
  let cleared ts :=
    {| tokenService := ts; currentUser := None; sessionToken := None;
       initialized := initialized st |} in
  match sessionToken st with
  | Some token =>
      match TokenService.revoke (tokenService st) (Token.id token) with
      | TokenService.Returned ts _ => Returned (cleared ts) tt
      | TokenService.Threw ts e =>
          Threw (with_tokenService ts st) (token_error e)
      end
  | None => Returned (cleared (tokenService st)) tt
  end.

(** [authorize] asks [isAuthenticated] and then [getCurrentUser], which asks
    it again; [now1] and [now2] are the two readings of the clock.  When the
    second answer is no, the user is [null] and reading its role throws. *)
Definition authorize (st : State) (action : string) (now1 now2 : Z)
  : outcome bool :=
  if negb (initialized st) then Threw st NotInitialized else
  match isAuthenticated st now1 with
  | Threw st1 e => Threw st1 e
  | Returned st1 false => Returned st1 false
  | Returned st1 true =>
      match getCurrentUser st1 now2 with
      | Threw st2 e => Threw st2 e
      | Returned st2 None => Threw st2 UserIsNull
      | Returned st2 (Some user) =>
          if String.eqb (User.role user) "admin" then Returned st2 true
          else if String.eqb (User.role user) "user"
          then Returned st2
                 (bool_decide (action ∈ ["read"; "write"; "execute"]))
          else Returned st2 false
      end
  end.

End AuthService.

(** ** The wallet service

    Balances and amounts are JS numbers on which the code computes: 64-bit
    floating-point numbers, with their comparison [<] and their rounded
    subtraction. *)

Module Wallet.
Record t : Type := mk {
  id : string;
  userId : string;
  type : string;
  address : string;
  balance : float;
  createdAt : Z;
  name : string;
  metadata : Obj;
  lastUpdated : option Z
}.
End Wallet.

(** The [config] argument of [createWallet]; an absent property is
    [None]. *)
Module WalletConfig.
Record t : Type := mk {
  type : option string;
  name : option string;
  metadata : option Obj
}.
End WalletConfig.

(** The [txData] argument of [createTransaction]. *)
Module TxData.
Record t : Type := mk {
  fromWalletId : string;
  toAddress : string;
  amount : float;
  type : option string
}.
End TxData.

(** A transaction as [createTransaction] returns it, confirmed. *)
Module Transaction.
Record t : Type := mk {
  id : string;
  fromWalletId : string;
  fromAddress : string;
  toAddress : string;
  amount : float;
  type : string;
  status : string;
  createdAt : Z;
  hash : string;
  confirmedAt : Z
}.
End Transaction.

(** What [_loadFromStorage] finds.  What the service writes to the storage
    is not part of the model. *)
Module StoredWallets.
Record t : Type := mk {
  wallets : option (list (string * Wallet.t));
  defaultWallet : option string
}.
End StoredWallets.

Module WalletUnified.

Inductive Error : Type :=
| NotInitialized
| NotAuthenticated
| WalletNotFound
| InsufficientBalance
| UserIsNull
| AuthFailed (e : AuthService.Error).

(** The service holds a reference to the authentication service it was
    constructed with; [authService] is the state of that shared object. *)
Record State : Type := {
  authService : AuthService.State;
  wallets : list (string * Wallet.t);
  initialized : bool;
  defaultWallet : option string
}.

Inductive outcome (A : Type) : Type :=
| Returned (st : State) (a : A)
| Threw (st : State) (e : Error).
Arguments Returned {A} st a.
Arguments Threw {A} st e.

Definition with_authService (a : AuthService.State) (st : State) : State :=
  {| authService := a; wallets := wallets st; initialized := initialized st;
     defaultWallet := defaultWallet st |}.

Definition with_wallets (m : list (string * Wallet.t)) (st : State) : State :=
  {| authService := authService st; wallets := m;
     initialized := initialized st; defaultWallet := defaultWallet st |}.

Definition with_defaultWallet (d : option string) (st : State) : State :=
  {| authService := authService st; wallets := wallets st;
     initialized := initialized st; defaultWallet := d |}.

Definition constructor (authService : AuthService.State) : State :=
  {| authService := authService; wallets := []; initialized := false;
     defaultWallet := None |}.

(** [x || null] for an optional string. *)
Definition string_or_null (x : option string) : option string :=
  match x with
  | Some s => if truthy_string s then Some s else None
  | None => None
  end.

Definition init (st : State) (stored : option StoredWallets.t) : outcome unit :=
  if initialized st then Returned st tt else
  match stored with
  | Some s =>
      match StoredWallets.wallets s with
      | Some entries =>
          Returned
            {| authService := authService st;
               wallets := foldl (λ m kv, jm_set kv.1 kv.2 m) (wallets st) entries;
               initialized := true;
               defaultWallet := string_or_null (StoredWallets.defaultWallet s) |}
            tt
      | None =>
          Returned
            {| authService := authService st; wallets := wallets st;
               initialized := true; defaultWallet := defaultWallet st |} tt
      end
  | None =>
      Returned
        {| authService := authService st; wallets := wallets st;
           initialized := true; defaultWallet := defaultWallet st |} tt
  end.

(** [isAuthenticated()] and then [getCurrentUser()], as [createWallet] and
    [getWallet] ask them one after the other; [now1] and [now2] are the two
    readings of the clock.  The result is the user, or [None] when nobody is authenticated
    at the first reading.  When the session ends between the two readings
    the user is [null], and reading its id throws. *)
Definition current_user (st : State) (now1 now2 : Z)
  : outcome (option User.t) :=
  match AuthService.isAuthenticated (authService st) now1 with
  | AuthService.Threw a e => Threw (with_authService a st) (AuthFailed e)
  | AuthService.Returned a false => Returned (with_authService a st) None
  | AuthService.Returned a true =>
      match AuthService.getCurrentUser a now2 with
      | AuthService.Threw a' e => Threw (with_authService a' st) (AuthFailed e)
      | AuthService.Returned a' None => Threw (with_authService a' st) UserIsNull
      | AuthService.Returned a' (Some user) =>
          Returned (with_authService a' st) (Some user)
      end
  end.

(** The generated id and address digits and the reading of the clock for
    [createdAt] are inputs. *)
Definition createWallet (st : State) (config : WalletConfig.t) (now1 now2 : Z)
    (walletId digits : string) (createdNow : Z) : outcome Wallet.t :=
  if negb (initialized st) then Threw st NotInitialized else
  match current_user st now1 now2 with
  | Threw st1 e => Threw st1 e
  | Returned st1 None => Threw st1 NotAuthenticated
  | Returned st1 (Some user) =>
      let prefix :=
        if decide (default "ethereum" (WalletConfig.type config) = "ethereum")
        then "0x" else "" in
      let wallet :=
        {| Wallet.id := walletId;
           Wallet.userId := User.id user;
           Wallet.type := string_or (WalletConfig.type config) "ethereum";
           Wallet.address := prefix +:+ digits;
           Wallet.balance := 0%float;
           Wallet.createdAt := createdNow;
           Wallet.name :=
             string_or (WalletConfig.name config)
               ("Wallet " +:+ pretty (jm_size (wallets st1) + 1));
           Wallet.metadata := default ∅ (WalletConfig.metadata config);
           Wallet.lastUpdated := None |} in
      let wallets' := jm_set walletId wallet (wallets st1) in
      Returned
        {| authService := authService st1; wallets := wallets';
           initialized := initialized st1;
           defaultWallet :=
             if decide (jm_size wallets' = 1) then Some walletId
             else defaultWallet st1 |}
        wallet
  end.

(** A wallet that is not there is [null] without the authentication
    service being asked. *)
Definition getWallet (st : State) (walletId : string) (now1 now2 : Z)
  : outcome (option Wallet.t) :=
  if negb (initialized st) then Threw st NotInitialized else
  match jm_get walletId (wallets st) with
  | None => Returned st None
  | Some wallet =>
      match current_user st now1 now2 with
      | Threw st1 e => Threw st1 e
      | Returned st1 None => Returned st1 None
      | Returned st1 (Some user) =>
          if decide (Wallet.userId wallet = User.id user)
          then Returned st1 (Some wallet)
          else Returned st1 None
      end
  end.

(** With no wallet at all the loop does not run and the user's id is not
    read. *)
Definition getUserWallets (st : State) (now1 now2 : Z)
  : outcome (list Wallet.t) :=
  if negb (initialized st) then Threw st NotInitialized else
  match AuthService.isAuthenticated (authService st) now1 with
  | AuthService.Threw a e => Threw (with_authService a st) (AuthFailed e)
  | AuthService.Returned a false => Returned (with_authService a st) []
  | AuthService.Returned a true =>
      match AuthService.getCurrentUser a now2 with
      | AuthService.Threw a' e => Threw (with_authService a' st) (AuthFailed e)
      | AuthService.Returned a' None =>
          match wallets st with
          | [] => Returned (with_authService a' st) []
          | _ :: _ => Threw (with_authService a' st) UserIsNull
          end
      | AuthService.Returned a' (Some user) =>
          Returned (with_authService a' st)
            (filter (λ wallet, Wallet.userId wallet = User.id user)
               (jm_values (wallets st)))
      end
  end.

Definition getDefaultWallet (st : State) (now1 now2 : Z)
  : outcome (option Wallet.t) :=
  if negb (initialized st) then Threw st NotInitialized else
  match string_or_null (defaultWallet st) with
  | Some walletId => getWallet st walletId now1 now2
  | None => Returned st None
  end.

Definition setDefaultWallet (st : State) (walletId : string) (now1 now2 : Z)
  : outcome bool :=
  if negb (initialized st) then Threw st NotInitialized else
  match getWallet st walletId now1 now2 with
  | Threw st1 e => Threw st1 e
  | Returned st1 (Some _) =>
      Returned (with_defaultWallet (Some walletId) st1) true
  | Returned st1 None => Returned st1 false
  end.

(** The wallet found is the object held by the map, so writing to it
    changes the entry. *)
Definition updateBalance (st : State) (walletId : string) (balance : float)
    (now1 now2 updatedNow : Z) : outcome bool :=
  if negb (initialized st) then Threw st NotInitialized else
  match getWallet st walletId now1 now2 with
  | Threw st1 e => Threw st1 e
  | Returned st1 (Some wallet) =>
      let wallet' :=
        {| Wallet.id := Wallet.id wallet;
           Wallet.userId := Wallet.userId wallet;
           Wallet.type := Wallet.type wallet;
           Wallet.address := Wallet.address wallet;
           Wallet.balance := balance;
           Wallet.createdAt := Wallet.createdAt wallet;
           Wallet.name := Wallet.name wallet;
           Wallet.metadata := Wallet.metadata wallet;
           Wallet.lastUpdated := Some updatedNow |} in
      Returned (with_wallets (jm_set walletId wallet' (wallets st1)) st1) true
  | Returned st1 None => Returned st1 false
  end.

(** [now0] is the reading of the clock for the first authentication check,
    [now1] and [now2] are those of [getWallet]; the generated id and hash
    and the readings for [createdAt] and [confirmedAt] are inputs. *)
Definition createTransaction (st : State) (txData : TxData.t)
    (now0 now1 now2 : Z) (transactionId : string) (createdNow : Z)
    (hash : string) (confirmedNow : Z) : outcome Transaction.t :=
  if negb (initialized st) then Threw st NotInitialized else
  match AuthService.isAuthenticated (authService st) now0 with
  | AuthService.Threw a e => Threw (with_authService a st) (AuthFailed e)
  | AuthService.Returned a false =>
      Threw (with_authService a st) NotAuthenticated
  | AuthService.Returned a true =>
      match
        getWallet (with_authService a st) (TxData.fromWalletId txData) now1 now2
      with
      | Threw st1 e => Threw st1 e
      | Returned st1 None => Threw st1 WalletNotFound
      | Returned st1 (Some wallet) =>
          if (Wallet.balance wallet <? TxData.amount txData)%float
          then Threw st1 InsufficientBalance
          else
            let transaction :=
              {| Transaction.id := transactionId;
                 Transaction.fromWalletId := TxData.fromWalletId txData;
                 Transaction.fromAddress := Wallet.address wallet;
                 Transaction.toAddress := TxData.toAddress txData;
                 Transaction.amount := TxData.amount txData;
                 Transaction.type := string_or (TxData.type txData) "transfer";
                 Transaction.status := "confirmed";
                 Transaction.createdAt := createdNow;
                 Transaction.hash := hash;
                 Transaction.confirmedAt := confirmedNow |} in
            let wallet' :=
              {| Wallet.id := Wallet.id wallet;
                 Wallet.userId := Wallet.userId wallet;
                 Wallet.type := Wallet.type wallet;
                 Wallet.address := Wallet.address wallet;
                 Wallet.balance :=
                   (Wallet.balance wallet - TxData.amount txData)%float;
                 Wallet.createdAt := Wallet.createdAt wallet;
                 Wallet.name := Wallet.name wallet;
                 Wallet.metadata := Wallet.metadata wallet;
                 Wallet.lastUpdated := Wallet.lastUpdated wallet |} in
            Returned
              (with_wallets
                 (jm_set (TxData.fromWalletId txData) wallet' (wallets st1)) st1)
              transaction
      end
  end.

(** The user of the session the authentication service has open, with the
    time the session token expires. *)
Definition session_until (a : AuthService.State) : option (User.t * Z) :=
  if AuthService.initialized a
     && TokenService.initialized (AuthService.tokenService a)
  then
    match AuthService.currentUser a, AuthService.sessionToken a with
    | Some user, Some token =>
        match
          jm_get (Token.id token)
            (TokenService.tokens (AuthService.tokenService a))
        with
        | Some stored => Some (user, Token.expiresAt stored)
        | None => None
        end
    | _, _ => None
    end
  else None.

End WalletUnified.

(** ** More sample states and calls *)
Module Scenarios.
Import MachinesAdapter MachineRuns.

(** An adapter whose operations all succeed; [send] answers with what it
    was sent and [receive] with nothing.  Its world is the list of the
    requests that reached it. *)
Definition online : Adapter (World := list string) (Failure := string) :=
  {| adapter_connect := λ _ w, (w ++ ["connect"], Fulfilled tt);
     adapter_send := λ data w, (w ++ ["send"], Fulfilled (Some data));
     adapter_receive := λ w, (w ++ ["receive"], Fulfilled None) |}.

Definition online_object
  : AdapterObject (World := list string) (Failure := string) :=
  {| obj_connect := Some (adapter_connect online);
     obj_send := Some (adapter_send online);
     obj_receive := Some (adapter_receive online) |}.

(** The machine [flow] with two adapters, one that fails and one that
    works. *)
Definition two_adapters : State (World := list string) (Failure := string) :=
  {| machines := [("flow", Samples.flow)];
     adapters := [("radio", Samples.offline); ("wire", online)];
     initialized := true |}.

(** A door that starts in the default state, the initial state given being
    empty. *)
Definition door_config : Config.t :=
  {| Config.type := None; Config.initialState := Some "";
     Config.states := None;
     Config.transitions := Some {[ "idle" := {[ "open" := "opened" ]} ]};
     Config.context := None |}.

(** Calls that walk [flow] to its last state while a second machine is
    registered and moved. *)
Definition errands : list (Call (World := list string) (Failure := string)) :=
  [ CallTransition "flow" "start" (Some {[ "step" := VNum 2 ]}) 5;
    CallRegisterMachine "door" (Some door_config) 6 7;
    CallTransition "flow" "go" None 7;
    CallTransition "door" "open" None 8;
    CallTransition "flow" "complete" None 9 ].

(** A token service holding a token that expires at 100 and one that
    expires at 5000. *)
Definition stale : Token.t :=
  {| Token.id := "t1"; Token.value := "c3RhbGU"; Token.type := "api";
     Token.payload := Payload.empty; Token.createdAt := 0;
     Token.expiresAt := 100 |}.

Definition lasting : Token.t :=
  {| Token.id := "t2"; Token.value := "bGFzdGluZw"; Token.type := "session";
     Token.payload := Payload.empty; Token.createdAt := 50;
     Token.expiresAt := 5000 |}.

Definition vault : TokenService.State :=
  {| TokenService.tokens := [("t1", stale); ("t2", lasting)];
     TokenService.initialized := true |}.

(** The authentication service over that token service, before anybody has
    signed in and with [ada] signed in under the second token. *)
Definition ada : User.t :=
  {| User.id := "u1"; User.username := "ada"; User.authenticatedAt := 50;
     User.role := "user" |}.

Definition signed_out : AuthService.State :=
  {| AuthService.tokenService := vault; AuthService.currentUser := None;
     AuthService.sessionToken := None; AuthService.initialized := true |}.

Definition signed_in : AuthService.State :=
  {| AuthService.tokenService := vault; AuthService.currentUser := Some ada;
     AuthService.sessionToken := Some lasting;
     AuthService.initialized := true |}.

(** The wallet service with [ada] signed in: a wallet of hers, which is the
    default one, and a wallet of somebody else. *)
Definition purse : Wallet.t :=
  {| Wallet.id := "w1"; Wallet.userId := "u1"; Wallet.type := "ethereum";
     Wallet.address := "0xab"; Wallet.balance := 10%float;
     Wallet.createdAt := 60;
     Wallet.name := "Wallet 1"; Wallet.metadata := ∅;
     Wallet.lastUpdated := None |}.

Definition strongbox : Wallet.t :=
  {| Wallet.id := "w2"; Wallet.userId := "u9"; Wallet.type := "bitcoin";
     Wallet.address := "cd"; Wallet.balance := 99%float;
     Wallet.createdAt := 61;
     Wallet.name := "Savings"; Wallet.metadata := ∅;
     Wallet.lastUpdated := None |}.

Definition bank : WalletUnified.State :=
  {| WalletUnified.authService := signed_in;
     WalletUnified.wallets := [("w1", purse); ("w2", strongbox)];
     WalletUnified.initialized := true;
     WalletUnified.defaultWallet := Some "w1" |}.

Definition plain_wallet : WalletConfig.t :=
  {| WalletConfig.type := None; WalletConfig.name := None;
     WalletConfig.metadata := None |}.

Definition payment : TxData.t :=
  {| TxData.fromWalletId := "w1"; TxData.toAddress := "0xef";
     TxData.amount := 1.5%float; TxData.type := None |}.

End Scenarios.

(** ** Facts about insertion-ordered maps *)
Section JSMapFacts.
Context {K V : Type} `{EqDecision K}.
Implicit Types (m : list (K * V)) (k : K) (v : V).

Lemma jm_get_None m k : jm_get k m = None ↔ k ∉ jm_keys m.
Proof.
  unfold jm_keys. induction m as [|[k' v'] m IH]; simpl.
  - split; [intros _; apply not_elem_of_nil | done].
  - rewrite not_elem_of_cons. destruct (decide (k = k')) as [->|Hne].
    + split; [done | by intros [? _]].
    + rewrite IH. by split; [|intros [_ ?]].
Qed.

Lemma jm_get_Some_key m k v : jm_get k m = Some v → k ∈ jm_keys m.
Proof.
  intros Hg. destruct (decide (k ∈ jm_keys m)) as [|Hn]; [done|].
  apply jm_get_None in Hn. congruence.
Qed.

Lemma jm_has_true m k : jm_has k m = true ↔ k ∈ jm_keys m.
Proof.
  unfold jm_has. destruct (jm_get k m) eqn:Hg.
  - split; [intros _; by eapply jm_get_Some_key | done].
  - split; [done | intros Hk; by apply jm_get_None in Hg].
Qed.

Lemma jm_get_set_eq m k v : jm_get k (jm_set k v m) = Some v.
Proof.
  induction m as [|[k' v'] m IH]; simpl.
  - by rewrite decide_True.
  - destruct (decide (k = k')); simpl.
    + by rewrite decide_True.
    + by rewrite decide_False.
Qed.

Lemma jm_get_set_ne m k k' v : k ≠ k' → jm_get k' (jm_set k v m) = jm_get k' m.
Proof.
  intros Hne. induction m as [|[k2 v2] m IH]; simpl.
  - by rewrite decide_False.
  - destruct (decide (k = k2)) as [->|]; simpl.
    + by rewrite !decide_False.
    + by rewrite IH.
Qed.

(** A new key goes to the end. *)
Lemma jm_set_fresh m k v : k ∉ jm_keys m → jm_set k v m = m ++ [(k, v)].
Proof.
  unfold jm_keys. induction m as [|[k' v'] m IH]; simpl; [done|].
  rewrite not_elem_of_cons. intros [Hne Hnin].
  rewrite decide_False by done. by rewrite IH.
Qed.

(** A present key keeps its place. *)
Lemma jm_keys_set_present m k v : k ∈ jm_keys m → jm_keys (jm_set k v m) = jm_keys m.
Proof.
  unfold jm_keys. induction m as [|[k' v'] m IH]; simpl.
  - intros Hin. by apply elem_of_nil in Hin.
  - intros Hin. destruct (decide (k = k')) as [->|Hne]; simpl; [done|].
    apply elem_of_cons in Hin as [?|Hin]; [done|]. f_equal. by apply IH.
Qed.

Lemma jm_keys_set m k v :
  jm_keys (jm_set k v m) = if decide (k ∈ jm_keys m) then jm_keys m else jm_keys m ++ [k].
Proof.
  destruct (decide (k ∈ jm_keys m)) as [Hin|Hnin].
  - by apply jm_keys_set_present.
  - rewrite jm_set_fresh by done. unfold jm_keys. by rewrite fmap_app.
Qed.

Lemma jm_keys_set_NoDup m k v : NoDup (jm_keys m) → NoDup (jm_keys (jm_set k v m)).
Proof.
  intros Hnd. rewrite jm_keys_set. destruct (decide (k ∈ jm_keys m)); [done|].
  apply NoDup_app. split_and!; [done | | apply NoDup_singleton].
  intros x Hx Hx'. apply list_elem_of_singleton in Hx'. by subst.
Qed.

Lemma jm_keys_delete_subseteq m k : jm_keys (jm_delete k m) ⊆ jm_keys m.
Proof.
  unfold jm_keys. induction m as [|[k' v'] m IH]; simpl; [done|].
  destruct (decide (k = k')); simpl.
  - intros x Hx. by right.
  - intros x Hx. apply elem_of_cons in Hx as [->|Hx]; [left|right; by apply IH].
Qed.

Lemma jm_keys_delete_NoDup m k : NoDup (jm_keys m) → NoDup (jm_keys (jm_delete k m)).
Proof.
  unfold jm_keys. induction m as [|[k' v'] m IH]; simpl; [done|].
  intros Hnd. apply NoDup_cons in Hnd as [Hnin Hnd].
  destruct (decide (k = k')); simpl; [done|].
  apply NoDup_cons. split; [|by apply IH].
  intros Hin. apply Hnin. by apply (jm_keys_delete_subseteq m k).
Qed.

Lemma jm_delete_not_elem m k : NoDup (jm_keys m) → k ∉ jm_keys (jm_delete k m).
Proof.
  unfold jm_keys. induction m as [|[k' v'] m IH]; simpl.
  - intros _. apply not_elem_of_nil.
  - intros Hnd. apply NoDup_cons in Hnd as [Hnin Hnd].
    destruct (decide (k = k')) as [->|Hne]; simpl; [done|].
    rewrite not_elem_of_cons. split; [done | by apply IH].
Qed.

Lemma jm_delete_absent m k : k ∉ jm_keys m → jm_delete k m = m.
Proof.
  unfold jm_keys. induction m as [|[k' v'] m IH]; simpl; [done|].
  rewrite not_elem_of_cons. intros [Hne Hnin].
  rewrite decide_False by done. by rewrite IH.
Qed.

Lemma jm_delete_sublist m k : jm_delete k m `sublist_of` m.
Proof.
  induction m as [|[k' v'] m IH]; simpl; [done|].
  destruct (decide (k = k')); [by apply sublist_cons | by apply sublist_skip].
Qed.

Lemma jm_delete_Forall (Q : K * V → Prop) m k :
  Forall Q m → Forall Q (jm_delete k m).
Proof.
  rewrite !Forall_forall. intros HQ x Hx. apply HQ.
  eapply elem_of_sublist; [exact Hx | apply jm_delete_sublist].
Qed.

Lemma jm_set_Forall (Q : K * V → Prop) m k v :
  Forall Q m → Q (k, v) → Forall Q (jm_set k v m).
Proof.
  intros HQ Hkv. induction HQ as [|[k' v'] m Hx HQ IH]; simpl.
  - by constructor.
  - destruct (decide (k = k')); by constructor.
Qed.

Lemma jm_get_Some_value m k v : jm_get k m = Some v → v ∈ jm_values m.
Proof.
  unfold jm_values. induction m as [|[k' v'] m IH]; simpl; [done|].
  destruct (decide (k = k')).
  - intros [= ->]. left.
  - intros Hg. right. by apply IH.
Qed.

(** Two keys with the same value are the same key when no value occurs
    twice. *)
Lemma jm_get_values_inj m k1 k2 v :
  NoDup (jm_values m) → jm_get k1 m = Some v → jm_get k2 m = Some v → k1 = k2.
Proof.
  unfold jm_values. induction m as [|[k' v'] m IH]; simpl; [done|].
  intros Hnd. apply NoDup_cons in Hnd as [Hnin Hnd].
  destruct (decide (k1 = k')) as [->|Hne1], (decide (k2 = k')) as [->|Hne2].
  - done.
  - intros [= ->] Hg. by apply jm_get_Some_value in Hg.
  - intros Hg [= ->]. by apply jm_get_Some_value in Hg.
  - by apply IH.
Qed.

Lemma jm_get_elem m k v : NoDup (jm_keys m) → (k, v) ∈ m → jm_get k m = Some v.
Proof.
  unfold jm_keys. induction m as [|[k' v'] m IH]; simpl.
  - intros _ Hin. by apply elem_of_nil in Hin.
  - intros Hnd Hin. apply NoDup_cons in Hnd as [Hnin Hnd].
    apply elem_of_cons in Hin as [[= -> ->]|Hin].
    + by rewrite decide_True.
    + rewrite decide_False; [by apply IH|].
      intros ->. apply Hnin. by apply (list_elem_of_fmap_2 fst) in Hin.
Qed.

Lemma jm_get_delete m k k' :
  NoDup (jm_keys m) →
  jm_get k (jm_delete k' m) = if decide (k = k') then None else jm_get k m.
Proof.
  unfold jm_keys. induction m as [|[k2 v2] m IH]; simpl; intros Hnd.
  - by case_decide.
  - apply NoDup_cons in Hnd as [Hnin Hnd].
    destruct (decide (k' = k2)) as [->|Hne]; simpl.
    + destruct (decide (k = k2)) as [->|Hne']; [|done].
      by apply jm_get_None.
    + rewrite IH by done. destruct (decide (k = k2)) as [->|Hne'].
      * by rewrite decide_False.
      * done.
Qed.

Lemma jm_values_elem m v : v ∈ jm_values m → ∃ k, (k, v) ∈ m.
Proof.
  unfold jm_values. intros Hin. apply list_elem_of_fmap in Hin as [[k v'] [-> Hin]].
  by exists k.
Qed.
End JSMapFacts.

(** ** Facts about the stable sort

    With the comparator [key b - key a] the sort is a stable sort into
    descending key order. *)
Section JSSortFacts.
Context {A : Type} (key : A → Z).
Local Abbreviation descending := (λ a b : A, (key b - key a)%Z).
Implicit Types (x : A) (l : list A).

Lemma sort_insert_Permutation x l : sort_insert descending x l ≡ₚ x :: l.
Proof.
  induction l as [|y l IH]; simpl; [done|].
  destruct (0 <? key y - key x)%Z; [|done].
  rewrite IH. apply Permutation_swap.
Qed.

Lemma js_sort_Permutation l : js_sort descending l ≡ₚ l.
Proof.
  induction l as [|x l IH]; simpl; [done|].
  rewrite sort_insert_Permutation. by rewrite IH.
Qed.

Lemma js_sort_length l : length (js_sort descending l) = length l.
Proof. apply Permutation_length, js_sort_Permutation. Qed.

Lemma sort_insert_sorted x l :
  StronglySorted (λ a b, key b ≤ key a)%Z l →
  StronglySorted (λ a b, key b ≤ key a)%Z (sort_insert descending x l).
Proof.
  induction 1 as [|y l Hs IH Hall]; simpl.
  - repeat constructor.
  - destruct (0 <? key y - key x)%Z eqn:Hc.
    + apply Z.ltb_lt in Hc. constructor; [done|].
      rewrite sort_insert_Permutation. constructor; [lia | done].
    + apply Z.ltb_ge in Hc. constructor; [by constructor|].
      constructor; [lia|]. eapply Forall_impl; [exact Hall|].
      intros z Hz. simpl in Hz. lia.
Qed.

Lemma js_sort_sorted l :
  StronglySorted (λ a b, key b ≤ key a)%Z (js_sort descending l).
Proof.
  induction l as [|x l IH]; simpl; [constructor|].
  by apply sort_insert_sorted.
Qed.

(** Elements of one key keep their relative order. *)
Lemma sort_insert_stable (p : Z) x l :
  filter (λ a, key a = p) (sort_insert descending x l)
  = filter (λ a, key a = p) (x :: l).
Proof.
  induction l as [|y l IH]; simpl; [done|].
  destruct (0 <? key y - key x)%Z eqn:Hc; [|done].
  apply Z.ltb_lt in Hc.
  rewrite filter_cons, IH, !filter_cons.
  repeat case_decide; try done; lia.
Qed.

Lemma js_sort_stable (p : Z) l :
  filter (λ a, key a = p) (js_sort descending l) = filter (λ a, key a = p) l.
Proof.
  induction l as [|x l IH]; simpl; [done|].
  rewrite sort_insert_stable, !filter_cons. by rewrite IH.
Qed.

(** With pairwise distinct keys the order is strictly descending. *)
Lemma js_sort_strict l :
  NoDup (key <$> l) →
  StronglySorted (λ a b, key b < key a)%Z (js_sort descending l).
Proof.
  intros Hnd.
  assert (Hnd' : NoDup (key <$> js_sort descending l)).
  { by rewrite js_sort_Permutation. }
  pose proof (js_sort_sorted l) as Hs.
  induction Hs as [|y l' Hs IH Hall]; [constructor|].
  rewrite fmap_cons in Hnd'. apply NoDup_cons in Hnd' as [Hnin Hnd'].
  constructor; [by apply IH|].
  apply Forall_forall. intros z Hz.
  rewrite Forall_forall in Hall. specialize (Hall z Hz). simpl in Hall.
  assert (key z ≠ key y); [|lia].
  intros Heq. apply Hnin. rewrite <- Heq. by apply list_elem_of_fmap_2.
Qed.
(** A sorted list that keeps, for every key, the elements of that key in
    their order in [l] is the result of the sort: the result does not depend
    on the algorithm. *)
Lemma stable_sorted_unique l1 :
  ∀ l2,
    StronglySorted (λ a b, key b ≤ key a)%Z l1 →
    StronglySorted (λ a b, key b ≤ key a)%Z l2 →
    (∀ p, filter (λ a, key a = p) l1 = filter (λ a, key a = p) l2) →
    l1 = l2.
Proof.
  induction l1 as [|x l1 IH]; intros l2 Hs1 Hs2 Hst.
  - destruct l2 as [|y l2]; [done|].
    specialize (Hst (key y)). rewrite filter_nil, filter_cons in Hst.
    by rewrite decide_True in Hst.
  - destruct l2 as [|y l2].
    + specialize (Hst (key x)). rewrite filter_nil, filter_cons in Hst.
      by rewrite decide_True in Hst.
    + apply StronglySorted_inv in Hs1 as [Hs1 Hx].
      apply StronglySorted_inv in Hs2 as [Hs2 Hy].
      assert (Hxy : key x = key y).
      { assert (Hxin : x ∈ y :: l2).
        { pose proof (Hst (key x)) as H1. rewrite filter_cons in H1.
          rewrite decide_True in H1 by done.
          assert (Hin : x ∈ filter (λ a, key a = key x) (y :: l2)).
          { rewrite <- H1. left. }
          by apply list_elem_of_filter in Hin as [_ ?]. }
        assert (Hyin : y ∈ x :: l1).
        { pose proof (Hst (key y)) as H1. rewrite (filter_cons _ y) in H1.
          rewrite decide_True in H1 by done.
          assert (Hin : y ∈ filter (λ a, key a = key y) (x :: l1)).
          { rewrite H1. left. }
          by apply list_elem_of_filter in Hin as [_ ?]. }
        rewrite Forall_forall in Hx, Hy.
        apply elem_of_cons in Hxin as [->|Hxin]; [done|].
        apply elem_of_cons in Hyin as [->|Hyin]; [done|].
        specialize (Hx _ Hyin). specialize (Hy _ Hxin). simpl in *. lia. }
      pose proof (Hst (key x)) as Hhead. rewrite !filter_cons in Hhead.
      rewrite decide_True in Hhead by done.
      rewrite decide_True in Hhead by done.
      injection Hhead as -> Htail. f_equal. apply IH; [done | done|].
      intros p. specialize (Hst p). rewrite !filter_cons in Hst.
      destruct (decide (key y = p)); [by injection Hst | done].
Qed.

Lemma js_sort_unique l l' :
  StronglySorted (λ a b, key b ≤ key a)%Z l' →
  (∀ p, filter (λ a, key a = p) l' = filter (λ a, key a = p) l) →
  l' = js_sort descending l.
Proof.
  intros Hs Hst. apply stable_sorted_unique; [done | apply js_sort_sorted|].
  intros p. by rewrite js_sort_stable.
Qed.
End JSSortFacts.

(** ** Facts about array slices *)

Lemma js_slice_from_neg {A : Type} (l : list A) (n : Z) :
  (0 < n)%Z →
  js_slice_from (- n) l = drop (length l - Z.to_nat n) l.
Proof.
  intros Hn. unfold js_slice_from.
  replace (- n <? 0)%Z with true by (symmetry; apply Z.ltb_lt; lia).
  f_equal. lia.
Qed.

Lemma js_slice_from_zero {A : Type} (l : list A) : js_slice_from (- 0) l = l.
Proof. unfold js_slice_from. simpl. by rewrite Z.min_l by lia. Qed.

(** ** The integration listener *)
Module ListenerFacts.
Import IntegrationListener.

(** The constructor followed by [init] gives the initialised empty
    listener, with a capacity of 1000. *)
Example init_constructor : init constructor = Returned Samples.ready tt.
Proof. reflexivity. Qed.

(** C10: with a positive limit [getRecentEvents] returns the last
    [min limit length] events of the history, oldest first; with limit 0 the
    start index is [-0 = 0] and the whole history is returned. *)
Theorem getRecentEvents_suffix (st : State) (limit : Z) :
  initialized st = true →
  ((0 < limit)%Z →
   ∃ evs, getRecentEvents st (Some limit) = Returned st evs ∧
          evs = drop (length (eventQueue st) - Z.to_nat limit) (eventQueue st) ∧
          length evs = Nat.min (Z.to_nat limit) (length (eventQueue st)) ∧
          evs `suffix_of` eventQueue st) ∧
  getRecentEvents st (Some 0%Z) = Returned st (eventQueue st).
Proof.
  intros Hinit. unfold getRecentEvents. rewrite Hinit. simpl. split.
  - intros Hpos. eexists. split; [reflexivity|].
    rewrite js_slice_from_neg by done. split_and!; [done | | ].
    + rewrite length_drop. lia.
    + apply suffix_drop.
  - by rewrite (js_slice_from_zero (eventQueue st)).
Qed.

(** The sample listener has seven events in its history: a limit of 5 gives
    the last five of them, which is neither nothing nor all, and a limit of
    0 gives all seven. *)
Lemma getRecentEvents_suffix_witness :
  let st := Samples.busy in
  length (eventQueue st) = 7 ∧
  (∃ evs, getRecentEvents st (Some 5%Z) = Returned st evs ∧
          evs = drop 2 (eventQueue st) ∧ length evs = 5 ∧
          evs `suffix_of` eventQueue st ∧
          Event.id <$> evs = ["p3"; "p4"; "p5"; "p6"; "p7"]) ∧
  getRecentEvents st (Some 0%Z) = Returned st (eventQueue st).
Proof.
  intros st. split; [reflexivity|].
  destruct (getRecentEvents_suffix Samples.busy 5) as [Hpositive Hzero].
  { reflexivity. }
  split; [|exact Hzero].
  destruct Hpositive as (evs & Hget & Hevs & Hlen & Hsuffix); [lia|].
  exists evs. split_and!; try assumption.
  by rewrite Hevs.
Defined.

(** Three events in the history: a limit of 2 gives the last two, a limit of
    0 gives all three, and so does a limit of 5. *)
Example getRecentEvents_limits :
  let ev (n : Z) := {| Event.type := "a"; Event.data := ∅;
                       Event.timestamp := n; Event.id := "e" |} in
  let all := [ev 1%Z; ev 2%Z; ev 3%Z] in
  let st := with_eventQueue all Samples.ready in
  getRecentEvents st (Some 2%Z) = Returned st [ev 2%Z; ev 3%Z] ∧
  getRecentEvents st (Some 0%Z) = Returned st all ∧
  getRecentEvents st (Some 5%Z) = Returned st all ∧
  getRecentEvents st None = Returned st all.
Proof. split_and!; reflexivity. Qed.

(** *** Fuel

    The fuel only cuts runs off: a result obtained with some fuel is the
    result with any larger fuel. *)
Section Fuel.
Variable code : HandlerRef → Event.t → Script.

Lemma run_call_refines f g d st c :
  refines f g → run_call f d st c ≠ OutOfFuel →
  run_call g d st c = run_call f d st c.
Proof.
  intros Hfg. destruct c; simpl; try done.
  intros Hne. rewrite Hfg; [done|]. intros Hf. by rewrite Hf in Hne.
Qed.

Lemma run_calls_refines f g d cs :
  refines f g → ∀ st, run_calls f d st cs ≠ OutOfFuel →
  run_calls g d st cs = run_calls f d st cs.
Proof.
  intros Hfg. induction cs as [|c cs IH]; intros st; simpl; [done|].
  intros Hne.
  rewrite (run_call_refines f g d st c Hfg).
  - destruct (run_call f d st c); [by apply IH | done | done].
  - intros Hf. by rewrite Hf in Hne.
Qed.

Lemma call_handler_refines f g d st l ev :
  refines f g → call_handler code f d st l ev ≠ OutOfFuel →
  call_handler code g d st l ev = call_handler code f d st l ev.
Proof.
  intros Hfg. unfold call_handler. intros Hne.
  rewrite (run_calls_refines f g (S d) _ Hfg); [done|].
  intros Hf. by rewrite Hf in Hne.
Qed.

Lemma notify_refines f g d ev ls :
  refines f g → ∀ st n tr, notify code f d ev ls st n tr ≠ OutOfFuel →
  notify code g d ev ls st n tr = notify code f d ev ls st n tr.
Proof.
  intros Hfg. induction ls as [|l ls IH]; intros st n tr; simpl; [done|].
  intros Hne.
  rewrite (call_handler_refines f g d st l ev Hfg).
  - destruct (call_handler code f d st l ev); [by apply IH | by apply IH | done].
  - intros Hf. by rewrite Hf in Hne.
Qed.

Lemma emit_step_refines f g :
  refines f g → refines (emit_step code f) (emit_step code g).
Proof.
  intros Hfg d st ty data now eid. unfold emit_step.
  destruct (initialized st); simpl; [|done].
  destruct (jm_get ty _) as [loc|]; [|done].
  destruct (Nat.eqb _ 0); [done|]. intros Hne.
  rewrite (notify_refines f g d _ _ Hfg); [done|].
  intros Hf. by rewrite Hf in Hne.
Qed.

Lemma emit_fuel_S fuel : refines (emit code fuel) (emit code (S fuel)).
Proof.
  induction fuel as [|fuel IH].
  - apply (emit_step_refines _ (emit code 0)). by intros d st ty data now eid.
  - apply (emit_step_refines (emit code fuel) (emit code (S fuel))), IH.
Qed.

Lemma emit_fuel_le fuel fuel' :
  fuel ≤ fuel' → refines (emit code fuel) (emit code fuel').
Proof.
  induction 1 as [|fuel' Hle IH]; [by intros d st ty data now eid|].
  intros d st ty data now eid Hne.
  rewrite (emit_fuel_S fuel'); rewrite IH; done.
Qed.

End Fuel.

(** *** Properties kept by every call

    A property of the state that the elementary updates keep is kept by
    [emit], however its handlers call back into the listener. *)
Section Preservation.
Variable code : HandlerRef → Event.t → Script.
Variable P : State → Prop.
Hypothesis P_closed : closed P.

Lemma post_discard {A : Type} (o : outcome A) : post P (discard o) ↔ post P o.
Proof. by destruct o. Qed.

Lemma run_call_preserves f d st c :
  preserving P f → P st → post P (run_call f d st c).
Proof.
  intros Hf HP. destruct P_closed. destruct c; simpl; rewrite ?post_discard; auto.
Qed.

Lemma run_calls_preserves f d cs :
  preserving P f → ∀ st, P st → post P (run_calls f d st cs).
Proof.
  intros Hf. induction cs as [|c cs IH]; intros st HP; simpl; [done|].
  pose proof (run_call_preserves f d st c Hf HP) as Hc.
  destruct (run_call f d st c); simpl in *; auto.
Qed.

Lemma call_handler_preserves f d st l ev :
  preserving P f → P st → post P (call_handler code f d st l ev).
Proof.
  intros Hf HP. unfold call_handler.
  pose proof (run_calls_preserves f (S d) (calls (code (Listener.handler l) ev))
                Hf _ (closed_observe P P_closed d Begin l ev st HP)) as Hc.
  destruct P_closed.
  destruct (run_calls _ _ _ _); simpl in *; [|auto..].
  destruct (throws _); simpl; auto.
Qed.

Lemma notify_preserves f d ev ls :
  preserving P f → ∀ st n tr, P st → post P (notify code f d ev ls st n tr).
Proof.
  intros Hf. induction ls as [|l ls IH]; intros st n tr HP; simpl; [done|].
  pose proof (call_handler_preserves f d st l ev Hf HP) as Hc.
  destruct (call_handler _ _ _ _ _ _); simpl in *; auto.
Qed.

Lemma foldl_delete_at_preserves loc ids : ∀ st, P st → P (foldl (delete_at loc) st ids).
Proof.
  destruct P_closed. induction ids as [|i ids IH]; intros st HP; simpl; auto.
Qed.

Lemma emit_step_preserves f : preserving P f → preserving P (emit_step code f).
Proof.
  intros Hf d st ty data now eid HP. unfold emit_step.
  destruct (initialized st); simpl; [|done].
  set (ev := {| Event.type := ty |}).
  pose proof (closed_addToQueue P P_closed st ev HP) as HP1.
  destruct (jm_get ty (listeners (_addToQueue st ev))) as [loc|]; [|done].
  destruct (Nat.eqb _ 0); [done|].
  pose proof (notify_preserves f d ev
                (js_sort priority_compare
                   (jm_values (bucket_at (_addToQueue st ev) loc)))
                Hf _ 0 [] HP1) as Hn.
  destruct (notify _ _ _ _ _ _ _ _) as [st2 [n tr]| |]; simpl in *; auto.
  by apply foldl_delete_at_preserves.
Qed.

Lemma emit_preserves fuel : preserving P (emit code fuel).
Proof.
  induction fuel as [|fuel IH]; intros d st ty data now eid HP; simpl.
  - by apply emit_step_preserves.
  - by apply emit_step_preserves.
Qed.

Lemma run_preserves fuel st cs : P st → post P (run code fuel st cs).
Proof. intros HP. apply run_calls_preserves; [apply emit_preserves | done]. Qed.

Lemma reachable_preserves st :
  P (with_initialized true constructor) → reachable code st → P st.
Proof.
  intros H0. induction 1 as [|st fuel c st' Hr IH Hc|st fuel c st' e Hr IH Hc].
  - done.
  - pose proof (run_call_preserves (emit code fuel) 0 st c (emit_preserves fuel) IH) as Hp.
    by rewrite Hc in Hp.
  - pose proof (run_call_preserves (emit code fuel) 0 st c (emit_preserves fuel) IH) as Hp.
    by rewrite Hc in Hp.
Qed.
End Preservation.

(** *** Three properties of every reachable state *)

Lemma on_inv st ty h o lid now st' r :
  on st ty h o lid now = Returned st' r →
  r = lid ∧ eventQueue st' = eventQueue st ∧ initialized st' = initialized st ∧
  maxQueueSize st' = maxQueueSize st ∧ invoked st' = invoked st.
Proof.
  unfold on. destruct (initialized st) eqn:Hi; simpl; [|done].
  destruct h as [h|]; [|done]. destruct o as [o|]; [|done].
  destruct (jm_has ty (listeners st)); simpl.
  - destruct (jm_get ty (listeners st)); intros [= <- <-]; by rewrite ?Hi.
  - destruct (jm_get ty _); intros [= <- <-]; by rewrite ?Hi.
Qed.

(** A call of [on] that throws leaves everything but the registry as it
    was, and the registry too unless the options are [null]. *)
Lemma on_threw_inv st ty h o lid now st' e :
  on st ty h o lid now = Threw st' e →
  eventQueue st' = eventQueue st ∧ initialized st' = initialized st ∧
  maxQueueSize st' = maxQueueSize st ∧ invoked st' = invoked st.
Proof.
  unfold on. destruct (initialized st) eqn:Hi; simpl; [|by intros [= <- _]].
  destruct h as [h|]; [|by intros [= <- _]]. destruct o as [o|].
  - by destruct (jm_get ty _).
  - intros [= <- _]. by destruct (jm_has ty (listeners st)).
Qed.

Lemma on_threw st ty h o lid now st' e :
  on st ty h (Some o) lid now = Threw st' e → st' = st.
Proof.
  unfold on. destruct (initialized st); simpl; [|by intros [= <-]].
  destruct h as [h|]; [|by intros [= <-]].
  by destruct (jm_get ty _).
Qed.

Lemma wf_bucket_set b lid l :
  Listener.id l = lid → wf_bucket b → wf_bucket (jm_set lid l b).
Proof.
  intros Hid [Hnd Hk]. split; [by apply jm_keys_set_NoDup|].
  by apply jm_set_Forall.
Qed.

Lemma wf_bucket_delete b lid : wf_bucket b → wf_bucket (jm_delete lid b).
Proof.
  intros [Hnd Hk]. split; [by apply jm_keys_delete_NoDup | by apply jm_delete_Forall].
Qed.

Lemma wf_bucket_at st loc : wf st → wf_bucket (bucket_at st loc).
Proof.
  intros (_ & _ & _ & Hb). unfold bucket_at.
  destruct (buckets st !! loc) as [b|] eqn:Hl; simpl.
  - by eapply Forall_lookup_1.
  - split; [apply NoDup_nil_2 | constructor].
Qed.

Lemma wf_update_bucket st loc b :
  wf st → wf_bucket b → wf (with_buckets (<[loc := b]> (buckets st)) st).
Proof.
  intros (Hk & Hv & Hr & Hb) Hwb. unfold wf; simpl. split_and!; [done..| |].
  - by rewrite length_insert.
  - by apply Forall_insert.
Qed.

(** The first step of [on]: an empty inner map for a type that has none. *)
Lemma wf_on_entry st ty :
  wf st →
  wf (if jm_has ty (listeners st) then st
      else with_buckets (buckets st ++ [[]])
             (with_listeners
                (jm_set ty (length (buckets st)) (listeners st)) st)).
Proof.
  intros Hwf. destruct (jm_has ty (listeners st)) eqn:Hhas; [done|].
  assert (Hfresh : ty ∉ jm_keys (listeners st)).
  { intros Hin. apply jm_has_true in Hin. congruence. }
  destruct Hwf as (Hk & Hv & Hr & Hb).
  unfold wf; simpl. rewrite length_app. simpl.
  rewrite (jm_set_fresh _ _ _ Hfresh).
  unfold jm_keys, jm_values in *. rewrite !fmap_app. simpl. split_and!.
  - apply NoDup_app. split_and!; [done | | apply NoDup_singleton].
    intros x Hx Hx'. apply list_elem_of_singleton in Hx'. by subst.
  - apply NoDup_app. split_and!; [done | | apply NoDup_singleton].
    intros x Hx Hx'. apply list_elem_of_singleton in Hx'. subst.
    rewrite Forall_forall in Hr. specialize (Hr _ Hx). lia.
  - apply Forall_app. split.
    + eapply Forall_impl; [exact Hr|]. intros; simpl in *; lia.
    + constructor; [lia | constructor].
  - apply Forall_app. split; [done|]. constructor; [|constructor].
    split; [apply NoDup_nil_2 | constructor].
Qed.

Lemma wf_on st ty h o lid now : wf st → post wf (on st ty h o lid now).
Proof.
  intros Hwf. unfold on. destruct (initialized st); simpl; [|done].
  destruct h as [h|]; [|done].
  pose proof (wf_on_entry st ty Hwf) as Hwf1.
  destruct o as [o|]; [|done].
  destruct (jm_get ty _) as [loc|]; simpl; [|done].
  apply wf_update_bucket; [done|].
  apply wf_bucket_set; [done | by apply wf_bucket_at].
Qed.

Lemma wf_off st ty lid : wf st → post wf (off st ty lid).
Proof.
  intros Hwf. unfold off. destruct (initialized st); simpl; [|done].
  destruct (jm_get ty (listeners st)) as [loc|]; simpl; [|done].
  apply wf_update_bucket; [done|]. by apply wf_bucket_delete, wf_bucket_at.
Qed.

Lemma wf_delete_at loc st lid : wf st → wf (delete_at loc st lid).
Proof.
  intros Hwf. apply wf_update_bucket; [done|].
  by apply wf_bucket_delete, wf_bucket_at.
Qed.

Lemma wf_removeAll st ty : wf st → post wf (removeAllListeners st ty).
Proof.
  intros (Hk & Hv & Hr & Hb). unfold removeAllListeners.
  destruct (initialized st); simpl; [|done].
  assert (Hclear : wf (with_listeners [] st)).
  { unfold wf; simpl. split_and!; [apply NoDup_nil_2 | apply NoDup_nil_2 | constructor | done]. }
  destruct ty as [ty|]; [|done].
  destruct (truthy_string ty); [|done]. simpl.
  pose proof (jm_delete_sublist (listeners st) ty) as Hsub.
  unfold wf; simpl. split_and!.
  - by apply jm_keys_delete_NoDup.
  - eapply sublist_NoDup; [exact Hv|]. unfold jm_values. by apply fmap_sublist.
  - rewrite Forall_forall in Hr |- *. intros x Hx. apply Hr.
    eapply elem_of_sublist; [exact Hx|]. unfold jm_values. by apply fmap_sublist.
  - done.
Qed.

Lemma wf_addToQueue st ev : wf st → wf (_addToQueue st ev).
Proof. unfold _addToQueue. by case_decide. Qed.

Lemma wf_closed : closed wf.
Proof.
  split.
  - apply wf_on.
  - apply wf_off.
  - apply wf_removeAll.
  - intros st0 Hwf. unfold clearQueue. by destruct (initialized st0).
  - apply wf_addToQueue.
  - apply wf_delete_at.
  - done.
Qed.

(** A listener never goes back to the uninitialised state. *)
Lemma initialized_closed : closed (λ st, initialized st = true).
Proof.
  split.
  - intros st ty h o lid now Hi.
    destruct (on st ty h o lid now) as [st' r|st' e|] eqn:Hon; simpl; [| |done].
    + apply on_inv in Hon. destruct Hon as (_ & _ & -> & _). done.
    + apply on_threw_inv in Hon. destruct Hon as (_ & -> & _). done.
  - intros st ty lid Hi. unfold off. rewrite Hi. simpl.
    by destruct (jm_get ty (listeners st)).
  - intros st ty Hi. unfold removeAllListeners. rewrite Hi. simpl.
    destruct ty as [ty|]; [|done]. by destruct (truthy_string ty).
  - intros st Hi. unfold clearQueue. by rewrite Hi.
  - intros st ev Hi. unfold _addToQueue. by case_decide.
  - done.
  - done.
Qed.

Lemma bounded_addToQueue m st ev : bounded m st → bounded m (_addToQueue st ev).
Proof.
  intros [Hm Hlen]. unfold _addToQueue, bounded.
  case_decide as Hc; simpl; rewrite ?length_drop, ?length_app in *; simpl in *; lia.
Qed.

(** The history never grows past the capacity. *)
Lemma bounded_closed m : closed (bounded m).
Proof.
  split.
  - intros st0 ty h o lid now [Hm Hlen].
    destruct (on st0 ty h o lid now) as [st' r|st' e|] eqn:Hon; simpl; [| |done].
    + apply on_inv in Hon. destruct Hon as (_ & Hq & _ & Hmax & _).
      unfold bounded. rewrite Hq, Hmax. done.
    + apply on_threw_inv in Hon. destruct Hon as (Hq & _ & Hmax & _).
      unfold bounded. rewrite Hq, Hmax. done.
  - intros st0 ty lid HB. unfold off. destruct (initialized st0); simpl; [|done].
    by destruct (jm_get ty (listeners st0)).
  - intros st0 ty HB. unfold removeAllListeners.
    destruct (initialized st0); simpl; [|done].
    destruct ty as [ty|]; [|done]. by destruct (truthy_string ty).
  - intros st0 [Hm Hlen]. unfold clearQueue.
    destruct (initialized st0); simpl; [|done]. split; simpl; [done | lia].
  - apply bounded_addToQueue.
  - done.
  - done.
Qed.

(** Every reachable state is initialised, well formed, and has a history
    within the capacity of 1000. *)
Lemma reachable_initialized code st : reachable code st → initialized st = true.
Proof.
  intros Hr.
  by apply (reachable_preserves code (λ st, initialized st = true)
              initialized_closed st).
Qed.

Lemma reachable_wf code st : reachable code st → wf st.
Proof.
  intros Hr. apply (reachable_preserves code wf wf_closed st); [|done].
  unfold wf; simpl.
  split_and!; [apply NoDup_nil_2 | apply NoDup_nil_2 | constructor | constructor].
Qed.

Lemma reachable_bounded code st : reachable code st → bounded 1000 st.
Proof.
  intros Hr.
  apply (reachable_preserves code (bounded 1000) (bounded_closed 1000) st); [|done].
  split; simpl; lia.
Qed.

(** *** Registration order

    A registration under a new id goes to the end of the inner map of its
    event type, and leaves the inner maps of the other event types alone. *)

Lemma on_bucket st ty h o lid now :
  initialized st = true → wf st →
  ∃ st', on st ty (Fn h) (Some o) lid now = Returned st' lid ∧
    initialized st' = true ∧ wf st' ∧ invoked st' = invoked st ∧
    bucket_of st' ty
      = jm_set lid
          {| Listener.id := lid; Listener.handler := h;
             Listener.once := default false (opt_once o);
             Listener.priority := default 0%Z (opt_priority o);
             Listener.createdAt := now |} (bucket_of st ty) ∧
    ∀ ty', ty' ≠ ty → bucket_of st' ty' = bucket_of st ty'.
Proof.
  intros Hi Hwf. pose proof (wf_on st ty (Fn h) (Some o) lid now Hwf) as Hwf'.
  destruct (on st ty (Fn h) (Some o) lid now) as [st' r|st' e|] eqn:Hon.
  2:{ unfold on in Hon. rewrite Hi in Hon. simpl in Hon.
      destruct (jm_has _ _); by destruct (jm_get _ _). }
  2:{ unfold on in Hon. rewrite Hi in Hon. simpl in Hon.
      destruct (jm_has _ _); by destruct (jm_get _ _). }
  pose proof (on_inv _ _ _ _ _ _ _ _ Hon) as (-> & _ & Hi' & _ & Hinv).
  exists st'. split_and!; [done | congruence | done | done | |].
  - unfold on in Hon. rewrite Hi in Hon. simpl in Hon. unfold bucket_of.
    destruct Hwf as (Hk & Hv & Hr & Hb).
    destruct (jm_has ty (listeners st)) eqn:Hhas.
    + unfold jm_has in Hhas. destruct (jm_get ty (listeners st)) as [loc|] eqn:Hg; [|done].
      injection Hon as <-. simpl. rewrite Hg. unfold bucket_at at 1. simpl.
      apply jm_get_Some_value in Hg. rewrite Forall_forall in Hr.
      specialize (Hr _ Hg). by rewrite list_lookup_insert_eq.
    + unfold jm_has in Hhas. destruct (jm_get ty (listeners st)) eqn:Hg; [done|].
      simpl in Hon. rewrite jm_get_set_eq in Hon. injection Hon as <-. simpl.
      rewrite jm_get_set_eq. unfold bucket_at. simpl.
      rewrite list_lookup_insert_eq by (rewrite length_app; simpl; lia).
      simpl. by rewrite lookup_app_r, Nat.sub_diag by lia.
  - intros ty' Hne. unfold on in Hon. rewrite Hi in Hon. simpl in Hon.
    unfold bucket_of. destruct Hwf as (Hk & Hv & Hr & Hb).
    destruct (jm_has ty (listeners st)) eqn:Hhas.
    + unfold jm_has in Hhas. destruct (jm_get ty (listeners st)) as [loc|] eqn:Hg; [|done].
      injection Hon as <-. simpl.
      destruct (jm_get ty' (listeners st)) as [loc'|] eqn:Hg'; [|done].
      unfold bucket_at. simpl. rewrite list_lookup_insert_ne; [done|].
      intros ->. apply Hne. by eapply jm_get_values_inj.
    + unfold jm_has in Hhas. destruct (jm_get ty (listeners st)) eqn:Hg; [done|].
      simpl in Hon. rewrite jm_get_set_eq in Hon. injection Hon as <-. simpl.
      rewrite jm_get_set_ne by done.
      destruct (jm_get ty' (listeners st)) as [loc'|] eqn:Hg'; [|done].
      apply jm_get_Some_value in Hg'. rewrite Forall_forall in Hr.
      specialize (Hr _ Hg'). unfold bucket_at. simpl.
      rewrite list_lookup_insert_ne by lia. by rewrite lookup_app_l by lia.
Qed.

(** A sequence of registrations leaves, under an event type, what was
    there followed by the new listeners of that type in registration
    order. *)
Lemma run_registrations code fuel ty regs :
  ∀ st, initialized st = true → wf st →
    NoDup (jm_keys (bucket_of st ty) ++ (reg_id <$> registered ty regs)) →
    ∃ st', run code fuel st (reg_call <$> regs) = Returned st' tt ∧
      initialized st' = true ∧ wf st' ∧ invoked st' = invoked st ∧
      bucket_of st' ty
        = bucket_of st ty ++
            ((λ r, (reg_id r, reg_listener r)) <$> registered ty regs).
Proof.
  unfold run, registered.
  induction regs as [|r regs IH]; intros st Hi Hwf Hnd; simpl.
  - exists st. by rewrite app_nil_r.
  - destruct (on_bucket st (reg_type r) (reg_handler r) (reg_options r) (reg_id r)
                (reg_now r) Hi Hwf) as (st1 & Hon & Hi1 & Hwf1 & Hinv1 & Hsame & Hother).
    rewrite Hon. simpl. rewrite filter_cons in Hnd |- *.
    destruct (decide (reg_type r = ty)) as [Heq|Hne].
    + rewrite Heq in Hsame. rewrite fmap_cons in Hnd.
      apply NoDup_app in Hnd as (Hnd1 & Hdisj & Hnd2).
      apply NoDup_cons in Hnd2 as [Hfresh Hnd2].
      assert (Hnin : reg_id r ∉ jm_keys (bucket_of st ty)).
      { intros Hin. apply (Hdisj _ Hin). left. }
      rewrite jm_set_fresh in Hsame by done.
      destruct (IH st1 Hi1 Hwf1) as (st' & Hrun & Hi' & Hwf' & Hinv' & Hb').
      { rewrite Hsame. unfold jm_keys. rewrite fmap_app. simpl.
        rewrite <- app_assoc. simpl. apply NoDup_app. split_and!; [done| |].
        - intros x Hx Hx'. apply elem_of_cons in Hx' as [->|Hx']; [done|].
          apply (Hdisj x Hx). by right.
        - by apply NoDup_cons. }
      exists st'. split_and!; [exact Hrun | done | done | congruence |].
      by rewrite Hb', Hsame, fmap_cons, <- app_assoc.
    + destruct (IH st1 Hi1 Hwf1) as (st' & Hrun & Hi' & Hwf' & Hinv' & Hb').
      { by rewrite Hother. }
      exists st'. split_and!; [exact Hrun | done | done | congruence |].
      by rewrite Hb', Hother.
Qed.

(** *** What an emission adds to the observations *)

Lemma own_app d ph seg1 seg2 : own d ph (seg1 ++ seg2) = own d ph seg1 ++ own d ph seg2.
Proof. apply filter_app. Qed.

Lemma settled_app d seg1 seg2 : settled d (seg1 ++ seg2) = settled d seg1 ++ settled d seg2.
Proof. apply filter_app. Qed.

Lemma own_entry d ph ph' l ev :
  own d ph' [{| inv_depth := d; inv_phase := ph; inv_listener := l; inv_event := ev |}]
  = if decide (ph = ph')
    then [{| inv_depth := d; inv_phase := ph; inv_listener := l; inv_event := ev |}]
    else [].
Proof.
  unfold own. rewrite filter_cons, filter_nil. simpl.
  destruct (decide (ph = ph')) as [->|Hne].
  - by rewrite decide_True.
  - rewrite decide_False; [done | by intros [_ ?]].
Qed.

Lemma settled_entry d ph l ev :
  settled d [{| inv_depth := d; inv_phase := ph; inv_listener := l; inv_event := ev |}]
  = if decide (ph = Begin) then []
    else [{| inv_depth := d; inv_phase := ph; inv_listener := l; inv_event := ev |}].
Proof.
  unfold settled. rewrite filter_cons, filter_nil. simpl.
  destruct (decide (ph = Begin)) as [->|Hne].
  - rewrite decide_False; [done | by intros [_ ?]].
  - by rewrite decide_True.
Qed.

Lemma own_deeper d ph seg : deeper (S d) seg → own d ph seg = [].
Proof.
  intros Hd. unfold own. induction Hd as [|i seg Hi Hd IH]; [done|].
  rewrite filter_cons. case_decide as Hc; [lia | done].
Qed.

Lemma settled_deeper d seg : deeper (S d) seg → settled d seg = [].
Proof.
  intros Hd. unfold settled. induction Hd as [|i seg Hi Hd IH]; [done|].
  rewrite filter_cons. case_decide as Hc; [lia | done].
Qed.

Lemma deeper_weaken d seg : deeper (S d) seg → deeper d seg.
Proof.
  intros Hd. eapply Forall_impl; [exact Hd|]. intros i Hi. simpl in Hi. lia.
Qed.

Lemma extends_refl {A : Type} d st (o : outcome A) :
  post (λ st', invoked st' = invoked st) o → extends d st o.
Proof.
  unfold extends. destruct o as [st' a|st' e|]; simpl; [| |done];
    intros Heq; exists []; rewrite app_nil_r; (split; [done | constructor]).
Qed.

Lemma extends_discard {A : Type} d st (o : outcome A) :
  extends d st (discard o) ↔ extends d st o.
Proof. by destruct o. Qed.

Section Observations.
Variable code : HandlerRef → Event.t → Script.

Lemma run_call_extends f d st c :
  logs_from_depth f → extends d st (run_call f d st c).
Proof.
  intros Hf. destruct c; simpl; rewrite ?extends_discard.
  - apply extends_refl. destruct (on _ _ _ _ _ _) as [st' r|st' e|] eqn:Hon; simpl; [| |done].
    + by apply on_inv in Hon as (_ & _ & _ & _ & ?).
    + by apply on_threw_inv in Hon as (_ & _ & _ & ?).
  - apply extends_refl. unfold off. destruct (initialized st); simpl; [|done].
    by destruct (jm_get _ _).
  - apply extends_refl. unfold removeAllListeners.
    destruct (initialized st); simpl; [|done].
    destruct eventType as [ty|]; [|done]. by destruct (truthy_string ty).
  - apply Hf.
  - apply extends_refl. unfold clearQueue. by destruct (initialized st).
Qed.

Lemma run_calls_extends f d cs :
  logs_from_depth f → ∀ st, extends d st (run_calls f d st cs).
Proof.
  intros Hf. induction cs as [|c cs IH]; intros st; simpl.
  - by apply (extends_refl d st (Returned st tt)).
  - pose proof (run_call_extends f d st c Hf) as Hc.
    destruct (run_call f d st c) as [st1 []|st1 e|]; simpl in *; [|done..].
    destruct Hc as (seg1 & Hseg1 & Hd1).
    specialize (IH st1). destruct (run_calls f d st1 cs); simpl in *; [| |done].
    + destruct IH as (seg2 & Hseg2 & Hd2). exists (seg1 ++ seg2).
      rewrite Hseg2, Hseg1, app_assoc. split; [done | by apply Forall_app].
    + destruct IH as (seg2 & Hseg2 & Hd2). exists (seg1 ++ seg2).
      rewrite Hseg2, Hseg1, app_assoc. split; [done | by apply Forall_app].
Qed.

(** One handler call adds its [Begin], then what its own calls add one
    level deeper, then how it ended. *)
Lemma call_handler_trace f d st l ev :
  logs_from_depth f →
  match call_handler code f d st l ev with
  | Returned st' _ =>
      ∃ nested, deeper (S d) nested ∧
        invoked st' = invoked st ++
          [{| inv_depth := d; inv_phase := Begin; inv_listener := l; inv_event := ev |}]
          ++ nested ++
          [{| inv_depth := d; inv_phase := EndOk; inv_listener := l; inv_event := ev |}]
  | Threw st' _ =>
      ∃ nested, deeper (S d) nested ∧
        invoked st' = invoked st ++
          [{| inv_depth := d; inv_phase := Begin; inv_listener := l; inv_event := ev |}]
          ++ nested ++
          [{| inv_depth := d; inv_phase := EndThrow; inv_listener := l; inv_event := ev |}]
  | OutOfFuel => True
  end.
Proof.
  intros Hf. unfold call_handler.
  pose proof (run_calls_extends f (S d) (calls (code (Listener.handler l) ev)) Hf
                (observe d Begin l ev st)) as Hc.
  destruct (run_calls _ _ _ _) as [st2 []|st2 e|]; simpl in *; [| |done].
  - destruct Hc as (nested & Hseg & Hd).
    destruct (throws _); simpl; exists nested; rewrite Hseg;
      by rewrite <- !app_assoc.
  - destruct Hc as (nested & Hseg & Hd). exists nested. rewrite Hseg.
    by rewrite <- !app_assoc.
Qed.

(** The loop calls every listener of its list, in the order of the list,
    each call settles, and the count is that of the calls that returned. *)
Lemma notify_trace f d ev ls :
  logs_from_depth f →
  ∀ st n tr st' n' tr',
    notify code f d ev ls st n tr = Returned st' (n', tr') →
    ∃ seg, invoked st' = invoked st ++ seg ∧ deeper d seg ∧
      inv_listener <$> own d Begin seg = ls ∧
      Forall (λ i, inv_event i = ev) (own d Begin seg) ∧
      inv_listener <$> settled d seg = ls ∧
      n' = n + length (own d EndOk seg) ∧
      length (own d EndOk seg) + length (own d EndThrow seg) = length ls.
Proof.
  intros Hf. induction ls as [|l ls IH]; intros st n tr st' n' tr' Hn; simpl in Hn.
  - injection Hn as <- <- <-. exists []. rewrite app_nil_r.
    split_and!; try done; try constructor.
  - pose proof (call_handler_trace f d st l ev Hf) as Hc.
    destruct (call_handler code f d st l ev) as [st1 []|st1 e|]; [| |done].
    + destruct Hc as (nested & Hd & Hseg).
      apply IH in Hn as (seg & Hseg' & Hd' & Hb & Hev & Hs & Hcnt & Hlen).
      eexists. split; [rewrite Hseg', Hseg, <- app_assoc; reflexivity|].
      rewrite !own_app, !settled_app, !(own_deeper d Begin nested Hd),
        !(own_deeper d EndOk nested Hd), !(own_deeper d EndThrow nested Hd),
        (settled_deeper _ nested Hd), !own_entry, !settled_entry.
      repeat case_decide; try done.
      simpl. split_and!; try (f_equal; done); try lia.
      * constructor; [simpl; lia|].
        repeat (apply Forall_app; split); try done;
          [by apply deeper_weaken | by repeat constructor].
      * by constructor.
    + destruct Hc as (nested & Hd & Hseg).
      apply IH in Hn as (seg & Hseg' & Hd' & Hb & Hev & Hs & Hcnt & Hlen).
      eexists. split; [rewrite Hseg', Hseg, <- app_assoc; reflexivity|].
      rewrite !own_app, !settled_app, !(own_deeper d Begin nested Hd),
        !(own_deeper d EndOk nested Hd), !(own_deeper d EndThrow nested Hd),
        (settled_deeper _ nested Hd), !own_entry, !settled_entry.
      repeat case_decide; try done.
      simpl. split_and!; try (f_equal; done); try lia.
      * constructor; [simpl; lia|].
        repeat (apply Forall_app; split); try done;
          [by apply deeper_weaken | by repeat constructor].
      * by constructor.
Qed.

Lemma notify_not_threw f d ev ls :
  ∀ st n tr st' e, notify code f d ev ls st n tr ≠ Threw st' e.
Proof.
  induction ls as [|l ls IH]; intros st n tr st' e; simpl; [done|].
  destruct (call_handler code f d st l ev); [apply IH | apply IH | done].
Qed.

Lemma addToQueue_registry st ev :
  listeners (_addToQueue st ev) = listeners st ∧
  buckets (_addToQueue st ev) = buckets st ∧
  invoked (_addToQueue st ev) = invoked st ∧
  initialized (_addToQueue st ev) = initialized st ∧
  maxQueueSize (_addToQueue st ev) = maxQueueSize st.
Proof. unfold _addToQueue. by case_decide. Qed.

Lemma foldl_delete_at_invoked loc ids :
  ∀ st, invoked (foldl (delete_at loc) st ids) = invoked st.
Proof. induction ids as [|i ids IH]; intros st; simpl; [done|]. by rewrite IH. Qed.

(** The observations one emission adds at its own depth: the listeners of
    the event type's inner map as it was when [emit] was called, every one
    of them, in sorted order. *)
Lemma emit_step_trace f d st ty data now eid st' n :
  logs_from_depth f →
  emit_step code f d st ty data now eid = Returned st' n →
  ∃ seg, invoked st' = invoked st ++ seg ∧ deeper d seg ∧
    inv_listener <$> own d Begin seg
      = js_sort priority_compare (jm_values (bucket_of st ty)) ∧
    Forall (λ i, inv_event i =
                 {| Event.type := ty; Event.data := data;
                    Event.timestamp := now; Event.id := eid |})
      (own d Begin seg) ∧
    inv_listener <$> settled d seg
      = js_sort priority_compare (jm_values (bucket_of st ty)) ∧
    n = length (own d EndOk seg) ∧
    n + length (own d EndThrow seg) = jm_size (bucket_of st ty).
Proof.
  intros Hf. unfold emit_step, bucket_of.
  destruct (initialized st); simpl; [|done].
  set (ev := {| Event.type := ty |}).
  destruct (addToQueue_registry st ev) as (Hl & Hb & Hi & _).
  rewrite Hl.
  assert (Hat : ∀ loc, bucket_at (_addToQueue st ev) loc = bucket_at st loc).
  { intros loc. unfold bucket_at. by rewrite Hb. }
  destruct (jm_get ty (listeners st)) as [loc|]; rewrite ?Hat.
  - destruct (Nat.eqb (jm_size (bucket_at st loc)) 0) eqn:Hsz.
    + intros Hn. injection Hn as <- <-. apply Nat.eqb_eq in Hsz.
      destruct (bucket_at st loc); [|done].
      exists []. rewrite app_nil_r. split_and!; try done; constructor.
    + intros Hn.
      destruct (notify _ _ _ _ _ _ _ _) as [st2 [n2 tr2]| |] eqn:Hnot; [|done..].
      injection Hn as <- <-.
      apply (notify_trace f d ev _ Hf) in Hnot
        as (seg & Hseg & Hd & Hbeg & Hev & Hset & Hcnt & Hlen).
      exists seg. rewrite foldl_delete_at_invoked, Hseg, Hi.
      split_and!; try done.
      unfold priority_compare in Hlen.
      rewrite (js_sort_length Listener.priority) in Hlen. unfold jm_values in Hlen.
      rewrite length_fmap in Hlen. simpl in Hcnt. subst n2. done.
  - intros Hn. injection Hn as <- <-. exists []. rewrite app_nil_r.
    split_and!; try done; constructor.
Qed.

Lemma emit_step_logs f : logs_from_depth f → logs_from_depth (emit_step code f).
Proof.
  intros Hf d st ty data now eid.
  destruct (emit_step code f d st ty data now eid) as [st' n|st' e|] eqn:He;
    [| |done].
  - apply (emit_step_trace f) in He as (seg & Hseg & Hd & _); [|done].
    by exists seg.
  - apply (extends_refl d st (Threw st' e)). simpl.
    unfold emit_step in He. destruct (initialized st); simpl in He.
    + destruct (jm_get _ _); [|done]. destruct (Nat.eqb _ _); [done|].
      destruct (notify _ _ _ _ _ _ _ _) as [st2 [n2 tr2]| |] eqn:Hnot; [done| |done].
      by apply notify_not_threw in Hnot.
    + by injection He as <- <-.
Qed.

Lemma emit_logs fuel : logs_from_depth (emit code fuel).
Proof.
  induction fuel as [|fuel IH]; simpl.
  - apply emit_step_logs. by intros d st ty data now eid.
  - by apply emit_step_logs.
Qed.

Lemma emit_trace fuel d st ty data now eid st' n :
  emit code fuel d st ty data now eid = Returned st' n →
  ∃ seg, invoked st' = invoked st ++ seg ∧ deeper d seg ∧
    inv_listener <$> own d Begin seg
      = js_sort priority_compare (jm_values (bucket_of st ty)) ∧
    Forall (λ i, inv_event i =
                 {| Event.type := ty; Event.data := data;
                    Event.timestamp := now; Event.id := eid |})
      (own d Begin seg) ∧
    inv_listener <$> settled d seg
      = js_sort priority_compare (jm_values (bucket_of st ty)) ∧
    n = length (own d EndOk seg) ∧
    n + length (own d EndThrow seg) = jm_size (bucket_of st ty).
Proof.
  destruct fuel as [|fuel]; simpl; apply emit_step_trace.
  - by intros d' st0 ty' data' now' eid'.
  - apply emit_logs.
Qed.

(** Only a listener that is not initialised makes [emit] throw. *)
Lemma emit_threw fuel d st ty data now eid st' e :
  emit code fuel d st ty data now eid = Threw st' e →
  initialized st = false ∧ st' = st ∧ e = NotInitialized.
Proof.
  assert (Hstep : ∀ f, emit_step code f d st ty data now eid = Threw st' e →
            initialized st = false ∧ st' = st ∧ e = NotInitialized).
  { intros f. unfold emit_step. destruct (initialized st); simpl.
    - destruct (jm_get _ _); [|done]. destruct (Nat.eqb _ _); [done|].
      destruct (notify _ _ _ _ _ _ _ _) as [st2 [n2 tr2]| |] eqn:Hnot; [done| |done].
      by apply notify_not_threw in Hnot.
    - by intros [= <- <-]. }
  destruct fuel; simpl; apply Hstep.
Qed.

End Observations.

(** *** Emissions whose handlers do not call back *)

Lemma with_invoked_id st : with_invoked (invoked st) st = st.
Proof. by destruct st. Qed.

Lemma bucket_at_delete_at loc st lid loc' :
  bucket_at (delete_at loc st lid) loc'
  = if decide (loc = loc') then jm_delete lid (bucket_at st loc')
    else bucket_at st loc'.
Proof.
  unfold delete_at, bucket_at. simpl. destruct (decide (loc = loc')) as [<-|Hne].
  - destruct (buckets st !! loc) as [b|] eqn:Hl; simpl.
    + apply lookup_lt_Some in Hl. by rewrite list_lookup_insert_eq.
    + apply lookup_ge_None in Hl. by rewrite list_insert_ge, lookup_ge_None_2.
  - by rewrite list_lookup_insert_ne.
Qed.

Lemma foldl_delete_at_fields loc ids :
  ∀ st, listeners (foldl (delete_at loc) st ids) = listeners st ∧
        eventQueue (foldl (delete_at loc) st ids) = eventQueue st ∧
        initialized (foldl (delete_at loc) st ids) = initialized st ∧
        maxQueueSize (foldl (delete_at loc) st ids) = maxQueueSize st.
Proof.
  induction ids as [|i ids IH]; intros st; simpl; [done|].
  destruct (IH (delete_at loc st i)) as (-> & -> & -> & ->). done.
Qed.

Lemma bucket_at_foldl_delete_at loc ids loc' :
  ∀ st, bucket_at (foldl (delete_at loc) st ids) loc'
        = if decide (loc = loc')
          then foldl (λ b i, jm_delete i b) (bucket_at st loc') ids
          else bucket_at st loc'.
Proof.
  induction ids as [|i ids IH]; intros st; simpl.
  - by case_decide.
  - rewrite IH, bucket_at_delete_at. by case_decide.
Qed.

Section Quiet.
Variable code : HandlerRef → Event.t → Script.
Hypothesis Hquiet : quiet code.

Lemma call_handler_quiet f d st l ev :
  call_handler code f d st l ev
  = if throws (code (Listener.handler l) ev)
    then Threw (observe d EndThrow l ev (observe d Begin l ev st))
           (HandlerFailed (Listener.handler l))
    else Returned (observe d EndOk l ev (observe d Begin l ev st)) tt.
Proof. unfold call_handler. by rewrite Hquiet. Qed.

Lemma notify_quiet f d ev ls :
  ∀ st n tr,
    notify code f d ev ls st n tr
    = Returned (with_invoked (invoked st ++ quiet_trace code d ev ls) st)
        (n + length (filter (returns_on code ev) ls), tr ++ removable code ev ls).
Proof.
  unfold removable.
  induction ls as [|l ls IH]; intros st n tr; simpl.
  - rewrite !app_nil_r, with_invoked_id. do 2 f_equal. lia.
  - rewrite call_handler_quiet, !filter_cons.
    destruct (decide (returns_on code ev l)) as [Hr|Hr].
    + pose proof Hr as Hth. unfold returns_on in Hth. rewrite Hth, IH.
      unfold observe, with_invoked. simpl. rewrite <- !app_assoc. simpl.
      destruct (Listener.once l) eqn:Ho.
      * rewrite decide_True by done. rewrite fmap_cons, <- app_assoc. simpl.
        do 2 f_equal. lia.
      * rewrite decide_False by (by intros [? _]). do 2 f_equal. lia.
    + assert (Hth : throws (code (Listener.handler l) ev) = true).
      { unfold returns_on in Hr. by destruct (throws _). }
      rewrite Hth, IH. rewrite decide_False by (by intros [_ ?]).
      unfold observe, with_invoked. simpl. by rewrite <- !app_assoc.
Qed.

(** The whole effect of such an emission. *)
Lemma emit_quiet fuel d st ty data now eid :
  initialized st = true →
  let ev := {| Event.type := ty; Event.data := data; Event.timestamp := now;
               Event.id := eid |} in
  let sorted := js_sort priority_compare (jm_values (bucket_of st ty)) in
  ∃ st',
    emit code fuel d st ty data now eid
      = Returned st' (length (filter (returns_on code ev) sorted)) ∧
    listeners st' = listeners st ∧ initialized st' = true ∧
    maxQueueSize st' = maxQueueSize st ∧
    eventQueue st' = eventQueue (_addToQueue st ev) ∧
    invoked st' = invoked st ++ quiet_trace code d ev sorted ∧
    ∀ loc, bucket_at st' loc
           = if decide (jm_get ty (listeners st) = Some loc)
             then foldl (λ b i, jm_delete i b) (bucket_at st loc)
                    (removable code ev sorted)
             else bucket_at st loc.
Proof.
  intros Hi ev sorted.
  assert (Hstep : ∀ f, ∃ st',
    emit_step code f d st ty data now eid
      = Returned st' (length (filter (returns_on code ev) sorted)) ∧
    listeners st' = listeners st ∧ initialized st' = true ∧
    maxQueueSize st' = maxQueueSize st ∧
    eventQueue st' = eventQueue (_addToQueue st ev) ∧
    invoked st' = invoked st ++ quiet_trace code d ev sorted ∧
    ∀ loc, bucket_at st' loc
           = if decide (jm_get ty (listeners st) = Some loc)
             then foldl (λ b i, jm_delete i b) (bucket_at st loc)
                    (removable code ev sorted)
             else bucket_at st loc).
  { intros f. unfold emit_step. rewrite Hi. simpl. fold ev.
    destruct (addToQueue_registry st ev) as (Hl & Hb & Hinv & Hi' & Hm).
    assert (Hat : ∀ loc, bucket_at (_addToQueue st ev) loc = bucket_at st loc).
    { intros loc. unfold bucket_at. by rewrite Hb. }
    subst sorted. unfold bucket_of. rewrite Hl.
    destruct (jm_get ty (listeners st)) as [loc|] eqn:Hg; rewrite ?Hat.
    - destruct (Nat.eqb (jm_size (bucket_at st loc)) 0) eqn:Hsz.
      + apply Nat.eqb_eq in Hsz. destruct (bucket_at st loc) eqn:Hbl; [|done].
        simpl. eexists. split; [reflexivity|].
        rewrite app_nil_r. split_and!; try done; [congruence|].
        intros loc'. rewrite Hat. case_decide as Hc; [|done].
        injection Hc as <-. by rewrite Hbl.
      + rewrite notify_quiet. eexists. split; [reflexivity|].
        match goal with
        | |- context [foldl (delete_at loc) ?s ?ids] =>
            destruct (foldl_delete_at_fields loc ids s) as (Hf1 & Hf2 & Hf3 & Hf4)
        end.
        rewrite Hf1, Hf2, Hf3, Hf4.
        rewrite foldl_delete_at_invoked. simpl.
        split_and!; try done; [congruence | by rewrite Hinv|].
        intros loc'. rewrite bucket_at_foldl_delete_at.
        replace (bucket_at (with_invoked _ (_addToQueue st ev)) loc')
          with (bucket_at st loc') by (by rewrite <- Hat).
        destruct (decide (loc = loc')) as [<-|Hne].
        * by rewrite decide_True.
        * rewrite decide_False; [done | congruence].
    - simpl. eexists. split; [reflexivity|]. rewrite app_nil_r.
      split_and!; try done. congruence. }
  destruct fuel; simpl; apply Hstep.
Qed.

End Quiet.

(** *** Emissions whose handlers never emit

    Such an emission needs no fuel: it returns, whatever else its handlers
    do to the listener. *)
Section NeverEmits.
Variable code : HandlerRef → Event.t → Script.
Hypothesis Hcode : never_emits code.

Lemma run_call_never_emit f d st c :
  is_emit c = false → run_call f d st c ≠ OutOfFuel.
Proof.
  destruct c as [ty h o lid now|ty lid|ty| |]; simpl; [| | |done|]; intros _.
  - unfold on. destruct (initialized st); simpl; [|done].
    destruct h as [h|]; [|done]. destruct o as [o|]; [|done].
    by destruct (jm_get ty _).
  - unfold off. destruct (initialized st); simpl; [|done].
    by destruct (jm_get ty _).
  - unfold removeAllListeners. destruct (initialized st); simpl; [|done].
    destruct ty as [ty|]; [|done]. by destruct (truthy_string ty).
  - unfold clearQueue. by destruct (initialized st).
Qed.

Lemma run_calls_never_emit f d cs :
  Forall (λ c, is_emit c = false) cs →
  ∀ st, run_calls f d st cs ≠ OutOfFuel.
Proof.
  induction 1 as [|c cs Hc Hcs IH]; intros st; simpl; [done|].
  pose proof (run_call_never_emit f d st c Hc) as Hne.
  destruct (run_call f d st c) as [st1 []|st1 e|]; [apply IH|done..].
Qed.

Lemma call_handler_never_emit f d st l ev :
  call_handler code f d st l ev ≠ OutOfFuel.
Proof.
  unfold call_handler.
  pose proof (run_calls_never_emit f (S d) _ (Hcode (Listener.handler l) ev)
                (observe d Begin l ev st)) as Hne.
  destruct (run_calls _ _ _ _) as [st2 []|st2 e|]; [|done..].
  by destruct (throws _).
Qed.

Lemma notify_never_emit f d ev ls :
  ∀ st n tr, ∃ st' r, notify code f d ev ls st n tr = Returned st' r.
Proof.
  induction ls as [|l ls IH]; intros st n tr; simpl; [by eexists _, _|].
  pose proof (call_handler_never_emit f d st l ev) as Hne.
  destruct (call_handler code f d st l ev) as [st1 []|st1 e|]; [apply IH..|done].
Qed.

Lemma emit_never_emit fuel d st ty data now eid :
  initialized st = true →
  ∃ st' n, emit code fuel d st ty data now eid = Returned st' n.
Proof.
  intros Hi.
  assert (Hstep : ∀ f, ∃ st' n,
            emit_step code f d st ty data now eid = Returned st' n).
  { intros f. unfold emit_step. rewrite Hi. simpl.
    destruct (jm_get ty _) as [loc|]; [|by eexists _, _].
    destruct (Nat.eqb _ 0); [by eexists _, _|].
    match goal with |- context [notify code f d ?ev ?ls ?s 0 []] =>
      destruct (notify_never_emit f d ev ls s 0 []) as (st2 & [n tr] & ->) end.
    by eexists _, _. }
  destruct fuel; simpl; apply Hstep.
Qed.

End NeverEmits.

(** *** The sample listener *)

Lemma observers_quiet : quiet Samples.observers.
Proof. intros h ev. reflexivity. Qed.

Lemma observers_never_emit : never_emits Samples.observers.
Proof. intros h ev. constructor. Qed.

Lemma reachable_run code fuel cs :
  ∀ st st', reachable code st → run code fuel st cs = Returned st' tt →
            reachable code st'.
Proof.
  unfold run. induction cs as [|c cs IH]; intros st st' Hr Hrun; simpl in Hrun.
  - by injection Hrun as <-.
  - destruct (run_call (emit code fuel) 0 st c) as [st1 []| |] eqn:Hc;
      [|done..].
    eapply IH; [|exact Hrun]. by eapply reachable_returned.
Qed.

(** The sample listener [busy] is what its calls lead to, whatever the
    handlers do: no handler is called on the way. *)
Lemma busy_run code :
  run code 0 Samples.ready Samples.busy_calls = Returned Samples.busy tt.
Proof. reflexivity. Qed.

Lemma busy_reachable code : reachable code Samples.busy.
Proof.
  eapply reachable_run; [apply reachable_init | apply busy_run].
Qed.

(** *** The stated properties *)



(** The calls of those two emissions, by listener id. *)
Example emit_priority_order_calls :
  ∃ st1 st1' st2 st2',
    run Samples.observers 0 Samples.ready
      (reg_call <$> Samples.three_registrations) = Returned st1 tt ∧
    emit Samples.observers 0 0 st1 "a" ∅ 20 "e1" = Returned st1' 2 ∧
    Listener.id <$> (inv_listener <$> own 0 Begin (invoked st1'))
    = ["l1"; "l0"; "l2"] ∧
    run Samples.observers 0 Samples.ready
      (reg_call <$> Samples.ranked_registrations) = Returned st2 tt ∧
    emit Samples.observers 0 0 st2 "a" ∅ 20 "e1" = Returned st2' 2 ∧
    Listener.id <$> (inv_listener <$> own 0 Begin (invoked st2'))
    = ["l1"; "l2"; "l0"].
Proof. do 4 eexists. split_and!; vm_compute; reflexivity. Qed.



Lemma last_addToQueue st ev :
  0 < maxQueueSize st → last (eventQueue (_addToQueue st ev)) = Some ev.
Proof.
  intros Hm. unfold _addToQueue. case_decide as Hc; simpl.
  - rewrite length_app in Hc. simpl in Hc.
    destruct (eventQueue st) as [|x q]; simpl in *; [lia|].
    rewrite drop_0. apply last_snoc.
  - apply last_snoc.
Qed.

(** C5: with no subscription for the event type, [emit] returns 0, does not
    throw, and appends the event it built to the history: the history is
    what it was followed by the event, without its oldest event when it was
    full.  No handler is called and the registry is as before. *)
Theorem emit_without_subscribers code fuel d st ty data now eid :
  initialized st = true → listenerCount st ty = Returned st 0 →
  0 < maxQueueSize st →
  let ev := {| Event.type := ty; Event.data := data; Event.timestamp := now;
               Event.id := eid |} in
  ∃ st', emit code fuel d st ty data now eid = Returned st' 0 ∧
    (length (eventQueue st) < maxQueueSize st →
     eventQueue st' = eventQueue st ++ [ev]) ∧
    (maxQueueSize st ≤ length (eventQueue st) →
     eventQueue st' = drop 1 (eventQueue st ++ [ev])) ∧
    last (eventQueue st') = Some ev ∧
    listeners st' = listeners st ∧ buckets st' = buckets st ∧
    invoked st' = invoked st ∧ initialized st' = true ∧
    maxQueueSize st' = maxQueueSize st.
Proof.
  intros Hi Hcount Hm ev.
  destruct (addToQueue_registry st ev) as (Hl & Hb & Hinv & Hi' & Hmax).
  exists (_addToQueue st ev). split_and!; try done.
  - assert (Hstep : ∀ f, emit_step code f d st ty data now eid
                         = Returned (_addToQueue st ev) 0).
    { intros f. unfold emit_step. rewrite Hi. simpl. fold ev. rewrite Hl.
      unfold listenerCount in Hcount. rewrite Hi in Hcount. simpl in Hcount.
      destruct (jm_get ty (listeners st)) as [loc|]; [|done].
      injection Hcount as Hsz.
      replace (bucket_at (_addToQueue st ev) loc) with (bucket_at st loc)
        by (unfold bucket_at; by rewrite Hb).
      by rewrite Hsz. }
    destruct fuel; simpl; apply Hstep.
  - intros Hlt. unfold _addToQueue. rewrite decide_False; [done|].
    rewrite length_app. simpl. lia.
  - intros Hge. unfold _addToQueue. rewrite decide_True; [done|].
    rewrite length_app. simpl. lia.
  - by apply last_addToQueue.
  - congruence.
Qed.

(** An emission of a type without subscriptions on the sample listener:
    the seven events of the history are followed by the new one. *)
Lemma emit_without_subscribers_witness :
  let st := Samples.busy in
  let ev := {| Event.type := "d"; Event.data := ∅; Event.timestamp := 8;
               Event.id := "e9" |} in
  length (eventQueue st) = 7 ∧
  ∃ st', emit Samples.relay 0 0 st "d" ∅ 8 "e9" = Returned st' 0 ∧
    eventQueue st' = eventQueue st ++ [ev] ∧
    last (eventQueue st') = Some ev ∧
    listeners st' = listeners st ∧ buckets st' = buckets st ∧
    invoked st' = invoked st.
Proof.
  intros st ev. split; [reflexivity|].
  destruct (emit_without_subscribers Samples.relay 0 0 Samples.busy "d" ∅ 8
              "e9")
    as (st' & Hemit & Hbelow & _ & Hlast & Hl & Hb & Hinv & _).
  - reflexivity.
  - reflexivity.
  - vm_compute. lia.
  - exists st'. split_and!; try assumption.
    apply Hbelow. vm_compute. lia.
Defined.

(** The example of the specification: [A] throws, [B] and [C] return, all
    at the same priority; the emission calls the three in registration order
    and returns 2. *)
Example emit_counts_the_calls_that_returned :
  let regs :=
    [ {| reg_type := "a"; reg_handler := 2; reg_options := no_options;
         reg_id := "A"; reg_now := 1 |};
      {| reg_type := "a"; reg_handler := 0; reg_options := no_options;
         reg_id := "B"; reg_now := 2 |};
      {| reg_type := "a"; reg_handler := 1; reg_options := no_options;
         reg_id := "C"; reg_now := 3 |} ] in
  ∃ st st',
    run Samples.observers 0 Samples.ready (reg_call <$> regs) = Returned st tt ∧
    emit Samples.observers 0 0 st "a" ∅ 4 "e1" = Returned st' 2 ∧
    Listener.id <$> (inv_listener <$> own 0 Begin (invoked st')) = ["A"; "B"; "C"] ∧
    Listener.id <$> (inv_listener <$> own 0 EndOk (invoked st')) = ["B"; "C"].
Proof.
  do 2 eexists. split_and!; vm_compute; reflexivity.
Qed.

(** *** The history queue *)

(** One insertion into a history within its capacity: the new event goes to
    the end, and the oldest event goes when the capacity is passed. *)
Lemma addToQueue_window m st ev all :
  maxQueueSize st = m → eventQueue st = drop (length all - m) all →
  eventQueue (_addToQueue st ev)
  = drop (length (all ++ [ev]) - m) (all ++ [ev]).
Proof.
  intros Hm Hq. unfold _addToQueue. rewrite Hm, Hq, !length_app, length_drop.
  simpl. case_decide as Hc; simpl.
  - assert (Hge : m ≤ length all) by lia.
    rewrite drop_app, length_drop, drop_drop.
    destruct (decide (m = 0)) as [->|Hne].
    + rewrite !drop_ge; [done | rewrite length_app; simpl; lia | simpl; lia | lia].
    + replace (1 - (length all - (length all - m))) with 0 by lia.
      rewrite drop_0, drop_app.
      replace (length all + 1 - m - length all) with 0 by lia.
      rewrite drop_0. f_equal. f_equal. lia.
  - rewrite drop_app.
    replace (length all - m) with 0 by lia.
    replace (length all + 1 - m) with 0 by lia. by rewrite !drop_0.
Qed.

Lemma run_emits_window code (Hquiet : quiet code) fuel m evs :
  ∀ st all,
    initialized st = true → maxQueueSize st = m →
    eventQueue st = drop (length all - m) all →
    ∃ st', run code fuel st (emit_call <$> evs) = Returned st' tt ∧
      eventQueue st' = drop (length (all ++ evs) - m) (all ++ evs).
Proof.
  unfold run. induction evs as [|ev evs IH]; intros st all Hi Hm Hq.
  - exists st. by rewrite app_nil_r.
  - destruct (emit_quiet code Hquiet fuel 0 st (Event.type ev) (Event.data ev)
                (Event.timestamp ev) (Event.id ev) Hi)
      as (st1 & He & _ & Hi1 & Hm1 & Hq1 & _).
    assert (Hev : {| Event.type := Event.type ev; Event.data := Event.data ev;
                     Event.timestamp := Event.timestamp ev;
                     Event.id := Event.id ev |} = ev) by (by destruct ev).
    rewrite Hev in Hq1.
    destruct (IH st1 (all ++ [ev])) as (st' & Hrun & Hq'); [done | congruence | |].
    { rewrite Hq1. by apply addToQueue_window. }
    exists st'. split.
    + change (emit_call <$> ev :: evs) with (emit_call ev :: (emit_call <$> evs)).
      simpl. unfold emit_call at 1. simpl. rewrite He. exact Hrun.
    + by rewrite Hq', <- app_assoc.
Qed.

(** C4: the history never holds more than its capacity of 1000 events; an
    insertion into a full history evicts the oldest event and nothing else;
    and after a sequence of emissions the history is what was there followed
    by the emitted events, in order, without as many of the oldest as
    exceed the capacity. *)
Theorem history_bounded_fifo code st :
  reachable code st →
  maxQueueSize st = 1000 ∧ length (eventQueue st) ≤ 1000 ∧
  (∀ ev, eventQueue (_addToQueue st ev)
         = drop (length (eventQueue st) + 1 - 1000) (eventQueue st ++ [ev])) ∧
  (∀ ev, length (eventQueue st) = 1000 →
         eventQueue (_addToQueue st ev) = drop 1 (eventQueue st) ++ [ev]) ∧
  (quiet code → ∀ fuel evs,
     ∃ st', run code fuel st (emit_call <$> evs) = Returned st' tt ∧
       eventQueue st'
       = drop (length (eventQueue st) + length evs - 1000)
           (eventQueue st ++ evs)).
Proof.
  intros Hr. destruct (reachable_bounded code st Hr) as [Hm Hlen].
  assert (Hq : eventQueue st
               = drop (length (eventQueue st) - 1000) (eventQueue st)).
  { replace (length (eventQueue st) - 1000) with 0 by lia. by rewrite drop_0. }
  split_and!; [done | done | | |].
  - intros ev. rewrite (addToQueue_window 1000 st ev (eventQueue st) Hm Hq).
    by rewrite length_app.
  - intros ev Hfull.
    rewrite (addToQueue_window 1000 st ev (eventQueue st) Hm Hq).
    rewrite length_app, Hfull.
    replace (1000 + length [ev] - 1000) with 1 by (simpl; lia).
    rewrite drop_app, Hfull.
    replace (1 - 1000) with 0 by lia. by rewrite drop_0.
  - intros Hquiet fuel evs.
    destruct (run_emits_window code Hquiet fuel 1000 evs st (eventQueue st))
      as (st' & Hrun & Hq'); [by eapply reachable_initialized | done | done |].
    exists st'. split; [done|]. by rewrite Hq', length_app.
Qed.

Lemma history_bounded_fifo_witness :
  let st := Samples.ready in
  maxQueueSize st = 1000 ∧ length (eventQueue st) ≤ 1000 ∧
  (∀ ev, eventQueue (_addToQueue st ev)
         = drop (length (eventQueue st) + 1 - 1000) (eventQueue st ++ [ev])) ∧
  (∀ ev, length (eventQueue st) = 1000 →
         eventQueue (_addToQueue st ev) = drop 1 (eventQueue st) ++ [ev]) ∧
  (quiet Samples.observers → ∀ fuel evs,
     ∃ st', run Samples.observers fuel st (emit_call <$> evs) = Returned st' tt ∧
       eventQueue st'
       = drop (length (eventQueue st) + length evs - 1000)
           (eventQueue st ++ evs)).
Proof.
  apply (history_bounded_fifo Samples.observers Samples.ready).
  apply reachable_init.
Defined.

(** *** The registered event types *)

Lemma off_keeps_listeners st ty lid st' r :
  off st ty lid = Returned st' r → listeners st' = listeners st.
Proof.
  unfold off. destruct (initialized st); simpl; [|done].
  destruct (jm_get ty (listeners st)); by intros [= <- <-].
Qed.

(** C8 fails as stated: after [on] and then [off] of the same subscription
    the event type has no subscription left, and [getEventTypes] still
    returns it. *)
Lemma getEventTypes_lists_emptied_type :
  run Samples.observers 0 Samples.ready
    [CallOn "a" (Fn 0) (Some no_options) "l0" 0; CallOff "a" "l0"]
  = Returned Samples.emptied tt ∧
  listenerCount Samples.emptied "a" = Returned Samples.emptied 0 ∧
  getEventTypes Samples.emptied = Returned Samples.emptied ["a"].
Proof. split_and!; reflexivity. Qed.

(** *** Emissions whose handlers do not re-enter [emit]

    Such an emission returns, whatever the fuel; its handlers may change the
    registry, and what is observed of them is as for handlers that make no
    call at all. *)
Section NoReentry.
Variable code : HandlerRef → Event.t → Script.
Variable lid : string.
Hypothesis Hcode : no_reentry code lid.
Variable P : State → Prop.
Hypothesis P_closed : closed_for lid P.
Hypothesis P_initialized : ∀ st, P st → initialized st = true.

Lemma run_call_plain f d st c :
  plain_call lid c → P st →
  ∃ st', run_call f d st c = Returned st' tt ∧ P st' ∧ invoked st' = invoked st.
Proof.
  intros Hc HP. pose proof (cf_call lid P P_closed f d st c Hc HP) as Hpost.
  pose proof (P_initialized st HP) as Hi.
  destruct c as [ty h o id now|ty id|ty| |]; simpl in *.
  - destruct Hc as (Hfn & Ho & _). destruct h as [h|]; [|done].
    destruct o as [o|]; [|done].
    destruct (on st ty (Fn h) (Some o) id now) as [st' r|st' e|] eqn:Hon; simpl in *.
    + exists st'. apply on_inv in Hon as (_ & _ & _ & _ & Hinv). done.
    + unfold on in Hon. rewrite Hi in Hon. simpl in Hon.
      destruct (jm_has _ _); by destruct (jm_get _ _).
    + unfold on in Hon. rewrite Hi in Hon. simpl in Hon.
      destruct (jm_has _ _); by destruct (jm_get _ _).
  - unfold off in *. rewrite Hi in *. simpl in *.
    destruct (jm_get ty (listeners st)); simpl in *; by eexists.
  - unfold removeAllListeners in *. rewrite Hi in *. simpl in *.
    destruct ty as [ty|]; [destruct (truthy_string ty)|]; simpl in *; by eexists.
  - done.
  - unfold clearQueue in *. rewrite Hi in *. simpl in *. by eexists.
Qed.

Lemma run_calls_plain f d cs :
  Forall (plain_call lid) cs →
  ∀ st, P st →
    ∃ st', run_calls f d st cs = Returned st' tt ∧ P st' ∧
           invoked st' = invoked st.
Proof.
  induction 1 as [|c cs Hc Hcs IH]; intros st HP; simpl.
  - by exists st.
  - destruct (run_call_plain f d st c Hc HP) as (st1 & -> & HP1 & Hinv1).
    destruct (IH st1 HP1) as (st' & -> & HP' & Hinv'). exists st'.
    split_and!; [done | done | congruence].
Qed.

Lemma call_handler_plain f d st l ev :
  P st →
  ∃ st', P st' ∧ invoked st' = invoked st ++ quiet_trace code d ev [l] ∧
    call_handler code f d st l ev
    = if throws (code (Listener.handler l) ev)
      then Threw st' (HandlerFailed (Listener.handler l))
      else Returned st' tt.
Proof.
  intros HP. unfold call_handler.
  destruct (run_calls_plain f (S d) _ (Hcode (Listener.handler l) ev)
              (observe d Begin l ev st))
    as (st2 & -> & HP2 & Hinv2).
  { by apply (cf_observe lid P P_closed). }
  change (quiet_trace code d ev [l])
    with [ {| inv_depth := d; inv_phase := Begin; inv_listener := l;
              inv_event := ev |};
           {| inv_depth := d;
              inv_phase := if throws (code (Listener.handler l) ev)
                           then EndThrow else EndOk;
              inv_listener := l; inv_event := ev |} ].
  destruct (throws (code (Listener.handler l) ev)).
  - eexists. split_and!; [| |reflexivity].
    + by apply (cf_observe lid P P_closed).
    + simpl. rewrite Hinv2. simpl. by rewrite <- app_assoc.
  - eexists. split_and!; [| |reflexivity].
    + by apply (cf_observe lid P P_closed).
    + simpl. rewrite Hinv2. simpl. by rewrite <- app_assoc.
Qed.

Lemma quiet_trace_cons d ev l ls :
  quiet_trace code d ev (l :: ls)
  = quiet_trace code d ev [l] ++ quiet_trace code d ev ls.
Proof. reflexivity. Qed.

Lemma notify_plain f d ev ls :
  ∀ st n tr, P st →
    ∃ st',
      notify code f d ev ls st n tr
      = Returned st'
          (n + length (filter (returns_on code ev) ls),
           tr ++ removable code ev ls) ∧
      P st' ∧ invoked st' = invoked st ++ quiet_trace code d ev ls.
Proof.
  unfold removable.
  induction ls as [|l ls IH]; intros st n tr HP.
  - exists st. simpl. rewrite !app_nil_r. split_and!; [|done..].
    do 2 f_equal. lia.
  - destruct (call_handler_plain f d st l ev HP) as (st1 & HP1 & Hinv1 & Hcall).
    cbn [notify]. rewrite Hcall, !filter_cons, quiet_trace_cons.
    destruct (decide (returns_on code ev l)) as [Hr|Hr].
    + pose proof Hr as Hth. unfold returns_on in Hth. rewrite Hth.
      destruct (IH st1 (S n)
                  (if Listener.once l then tr ++ [Listener.id l] else tr) HP1)
        as (st' & -> & HP' & Hinv').
      exists st'. rewrite Hinv', Hinv1, <- app_assoc.
      split_and!; [|done..].
      destruct (Listener.once l) eqn:Ho.
      * rewrite decide_True by done. rewrite fmap_cons, <- app_assoc.
        cbn [length app]. do 2 f_equal. lia.
      * rewrite decide_False by (by intros [? _]). cbn [length].
        do 2 f_equal. lia.
    + assert (Hth : throws (code (Listener.handler l) ev) = true).
      { unfold returns_on in Hr. by destruct (throws _). }
      rewrite Hth. destruct (IH st1 n tr HP1) as (st' & -> & HP' & Hinv').
      exists st'. rewrite Hinv', Hinv1, <- app_assoc.
      rewrite decide_False by (by intros [_ ?]). done.
Qed.

Lemma foldl_delete_at_closed loc ids :
  ∀ st, P st → P (foldl (delete_at loc) st ids).
Proof.
  induction ids as [|i ids IH]; intros st HP; simpl; [done|].
  apply IH. by apply (cf_delete_at lid P P_closed).
Qed.

(** The emission: the handlers run from the state with the event queued and
    leave a state [st2]; then the ids to remove are deleted from the inner
    map the emission started with. *)
Lemma emit_plain fuel d st ty data now eid :
  P st →
  let ev := {| Event.type := ty; Event.data := data; Event.timestamp := now;
               Event.id := eid |} in
  let sorted := js_sort priority_compare (jm_values (bucket_of st ty)) in
  ∃ st2, P st2 ∧ invoked st2 = invoked st ++ quiet_trace code d ev sorted ∧
    emit code fuel d st ty data now eid
    = Returned
        (match jm_get ty (listeners st) with
         | Some loc => foldl (delete_at loc) st2 (removable code ev sorted)
         | None => st2
         end)
        (length (filter (returns_on code ev) sorted)).
Proof.
  intros HP ev sorted. pose proof (P_initialized st HP) as Hi.
  assert (Hstep : ∀ f, ∃ st2, P st2 ∧
            invoked st2 = invoked st ++ quiet_trace code d ev sorted ∧
            emit_step code f d st ty data now eid
            = Returned
                (match jm_get ty (listeners st) with
                 | Some loc => foldl (delete_at loc) st2 (removable code ev sorted)
                 | None => st2
                 end)
                (length (filter (returns_on code ev) sorted))).
  { intros f. unfold emit_step. rewrite Hi. simpl. fold ev.
    destruct (addToQueue_registry st ev) as (Hl & Hb & Hinv & _).
    assert (Hat : ∀ loc, bucket_at (_addToQueue st ev) loc = bucket_at st loc).
    { intros loc. unfold bucket_at. by rewrite Hb. }
    pose proof (cf_addToQueue lid P P_closed st ev HP) as HP1.
    subst sorted. unfold bucket_of. rewrite Hl.
    destruct (jm_get ty (listeners st)) as [loc|] eqn:Hg; rewrite ?Hat.
    - destruct (Nat.eqb (jm_size (bucket_at st loc)) 0) eqn:Hsz.
      + apply Nat.eqb_eq in Hsz. destruct (bucket_at st loc) eqn:Hbl; [|done].
        exists (_addToQueue st ev). simpl. rewrite app_nil_r. done.
      + destruct (notify_plain f d ev
                    (js_sort priority_compare (jm_values (bucket_at st loc)))
                    (_addToQueue st ev) 0 [] HP1) as (st2 & -> & HP2 & Hinv2).
        exists st2. split_and!; [done | congruence | done].
    - exists (_addToQueue st ev). simpl. rewrite app_nil_r. done. }
  destruct fuel; simpl; apply Hstep.
Qed.

End NoReentry.

(** *** One-shot subscriptions *)

Lemma foldl_delete_keys_subseteq (ids : list string) :
  ∀ b : list (string * Listener.t),
    jm_keys (foldl (λ b i, jm_delete i b) b ids) ⊆ jm_keys b.
Proof.
  induction ids as [|i ids IH]; intros b; simpl; [done|].
  etransitivity; [apply IH | apply jm_keys_delete_subseteq].
Qed.

Lemma foldl_delete_not_elem (ids : list string) k :
  ∀ b : list (string * Listener.t),
    NoDup (jm_keys b) → k ∈ ids →
    k ∉ jm_keys (foldl (λ b i, jm_delete i b) b ids).
Proof.
  induction ids as [|i ids IH]; intros b Hnd Hin; simpl.
  - by apply elem_of_nil in Hin.
  - apply elem_of_cons in Hin as [->|Hin].
    + intros Hk. apply foldl_delete_keys_subseteq in Hk.
      by apply (jm_delete_not_elem b i).
    + apply IH; [by apply jm_keys_delete_NoDup | done].
Qed.

Lemma wf_bucket_ids b : wf_bucket b → Listener.id <$> jm_values b = jm_keys b.
Proof.
  intros [_ Hk]. unfold jm_values, jm_keys.
  induction Hk as [|[k v] b Hkv Hk IH]; [done|].
  rewrite !fmap_cons. cbn [fst snd] in *. by rewrite IH, Hkv.
Qed.

Lemma count_NoDup {A B : Type} `{EqDecision B} (f : A → B) (y : B) (xs : list A) :
  NoDup (f <$> xs) →
  length (filter (λ x, f x = y) xs) = if decide (y ∈ f <$> xs) then 1 else 0.
Proof.
  induction xs as [|x xs IH]; intros Hnd.
  - rewrite decide_False; [done | apply not_elem_of_nil].
  - rewrite fmap_cons in Hnd |- *. apply NoDup_cons in Hnd as [Hnin Hnd].
    rewrite filter_cons. destruct (decide (f x = y)) as [<-|Hne]; cbn [length].
    + rewrite IH by done. rewrite decide_False by done.
      rewrite decide_True; [done | left].
    + rewrite IH by done. destruct (decide (y ∈ f <$> xs)) as [Hin|Hnin'].
      * rewrite decide_True; [done | by right].
      * rewrite decide_False; [done|]. rewrite not_elem_of_cons. by split.
Qed.

Lemma fired_app ty lid seg1 seg2 :
  fired ty lid (seg1 ++ seg2) = fired ty lid seg1 + fired ty lid seg2.
Proof. unfold fired. by rewrite filter_app, length_app. Qed.

Lemma fired_quiet_trace code d ev ls ty lid :
  fired ty lid (quiet_trace code d ev ls)
  = if decide (Event.type ev = ty)
    then length (filter (λ l, Listener.id l = lid) ls) else 0.
Proof.
  unfold fired, quiet_trace.
  induction ls as [|l ls IH].
  - by case_decide.
  - rewrite bind_cons, filter_app, length_app, IH, !filter_cons, filter_nil.
    cbn [inv_phase inv_event inv_listener].
    rewrite (decide_False (P := (if throws _ then EndThrow else EndOk) = Begin ∧ _)).
    2:{ intros [Hph _]. by destruct (throws _). }
    destruct (decide (Event.type ev = ty)) as [Hty|Hty].
    + destruct (decide (Listener.id l = lid)) as [Hid|Hid].
      * by rewrite decide_True.
      * rewrite decide_False; [done | by intros (_ & _ & ?)].
    + rewrite decide_False; [done | by intros (_ & ? & _)].
Qed.

Section OneShot.
Variable code : HandlerRef → Event.t → Script.
Hypothesis Hquiet : quiet code.
Variables (ty : string) (loc : nat) (l : Listener.t).

Local Abbreviation pending := (registered_at loc l).
Local Abbreviation gone := (absent_at loc l).

Hypothesis Honce : Listener.once l = true.
Hypothesis Hreturns : ∀ ev, returns_on code ev l.

Lemma emit_once_step fuel st ev (k : bool) :
  initialized st = true → wf st → jm_get ty (listeners st) = Some loc →
  (if k then gone st else pending st) →
  ∃ st' n,
    emit code fuel 0 st (Event.type ev) (Event.data ev) (Event.timestamp ev)
      (Event.id ev) = Returned st' n ∧
    initialized st' = true ∧ wf st' ∧ jm_get ty (listeners st') = Some loc ∧
    ∃ seg, invoked st' = invoked st ++ seg ∧
      if decide (Event.type ev = ty)
      then fired ty (Listener.id l) seg = (if k then 0 else 1) ∧ gone st'
      else fired ty (Listener.id l) seg = 0 ∧
           bucket_at st' loc = bucket_at st loc.
Proof.
  intros Hi Hwf Hg Hk.
  destruct (emit_quiet code Hquiet fuel 0 st (Event.type ev) (Event.data ev)
              (Event.timestamp ev) (Event.id ev) Hi)
    as (st' & He & Hl & Hi' & _ & _ & Hinv & Hb).
  assert (Hev : {| Event.type := Event.type ev; Event.data := Event.data ev;
                   Event.timestamp := Event.timestamp ev;
                   Event.id := Event.id ev |} = ev) by (by destruct ev).
  rewrite Hev in *.
  assert (Hwf' : wf st').
  { pose proof (emit_preserves code wf wf_closed fuel 0 st (Event.type ev)
                  (Event.data ev) (Event.timestamp ev) (Event.id ev) Hwf) as Hp.
    by rewrite He in Hp. }
  eexists st', _. split_and!; [exact He | done | done | congruence |].
  eexists. split; [exact Hinv|]. rewrite fired_quiet_trace.
  pose proof (wf_bucket_at st loc Hwf) as Hwb.
  destruct (decide (Event.type ev = ty)) as [Hty|Hty].
  - unfold absent_at. rewrite Hb, Hty, decide_True by done.
    unfold bucket_of. rewrite Hg. unfold priority_compare.
    set (b := bucket_at st loc) in *.
    set (sorted := js_sort _ (jm_values b)).
    assert (Hperm : sorted ≡ₚ jm_values b) by apply js_sort_Permutation.
    split.
    + rewrite Hperm. rewrite (count_NoDup Listener.id).
      2:{ rewrite (wf_bucket_ids b Hwb). apply Hwb. }
      rewrite (wf_bucket_ids b Hwb). destruct k.
      * by rewrite decide_False.
      * rewrite decide_True; [done|].
        by apply (list_elem_of_fmap_2 fst) in Hk.
    + destruct k.
      * intros Hin. by apply foldl_delete_keys_subseteq in Hin.
      * apply foldl_delete_not_elem; [apply Hwb|].
        unfold removable. apply list_elem_of_fmap_2.
        apply list_elem_of_filter. split; [by split|].
        rewrite Hperm. by apply (list_elem_of_fmap_2 snd) in Hk.
  - split; [done|]. rewrite Hb. rewrite decide_False; [done|].
    intros Hg'. apply Hty. destruct Hwf as (_ & Hv & _).
    by eapply jm_get_values_inj.
Qed.

Lemma run_once fuel evs :
  ∀ st (k : bool),
    initialized st = true → wf st → jm_get ty (listeners st) = Some loc →
    (if k then gone st else pending st) →
    ∃ st', run code fuel st (emit_call <$> evs) = Returned st' tt ∧
      jm_get ty (listeners st') = Some loc ∧
      ∃ seg, invoked st' = invoked st ++ seg ∧
        fired ty (Listener.id l) seg
        = (if k then 0
           else if decide (ty ∈ Event.type <$> evs) then 1 else 0) ∧
        (k = true ∨ ty ∈ Event.type <$> evs → gone st').
Proof.
  unfold run. induction evs as [|ev evs IH]; intros st k Hi Hwf Hg Hk.
  - exists st. split_and!; [done | done|]. exists []. rewrite app_nil_r.
    split_and!; [done | | ].
    + destruct k; [done|]. rewrite decide_False; [done | apply not_elem_of_nil].
    + intros [->|Hin]; [done | by apply elem_of_nil in Hin].
  - destruct (emit_once_step fuel st ev k Hi Hwf Hg Hk)
      as (st1 & n & He & Hi1 & Hwf1 & Hg1 & seg1 & Hseg1 & Hstep).
    rewrite !fmap_cons.
    cbn [run_calls run_call emit_call]. rewrite He. cbn [discard].
    destruct (decide (Event.type ev = ty)) as [Hty|Hty].
    + destruct Hstep as [Hf1 Hgone1].
      destruct (IH st1 true Hi1 Hwf1 Hg1 Hgone1)
        as (st' & Hrun & Hg' & seg2 & Hseg2 & Hf2 & Hgone').
      exists st'. split_and!; [exact Hrun | done|].
      exists (seg1 ++ seg2). rewrite Hseg2, Hseg1, app_assoc, fired_app, Hf1, Hf2.
      split_and!; [done | | ].
      * destruct k; [done|]. rewrite decide_True; [done|].
        apply elem_of_cons. by left.
      * intros _. apply Hgone'. by left.
    + destruct Hstep as [Hf1 Hsame].
      assert (Hk1 : if k then gone st1 else pending st1).
      { destruct k; unfold absent_at, registered_at in *; by rewrite Hsame. }
      destruct (IH st1 k Hi1 Hwf1 Hg1 Hk1)
        as (st' & Hrun & Hg' & seg2 & Hseg2 & Hf2 & Hgone').
      exists st'. split_and!; [exact Hrun | done|].
      exists (seg1 ++ seg2). rewrite Hseg2, Hseg1, app_assoc, fired_app, Hf1, Hf2.
      split_and!; [done | | ].
      * destruct k; [done|]. simpl.
        destruct (decide (ty ∈ Event.type <$> evs)) as [Hin|Hnin].
        -- rewrite decide_True; [done | by right].
        -- rewrite decide_False; [done|]. rewrite not_elem_of_cons.
           split; [done | done].
      * intros [->|Hin]; [apply Hgone'; by left|].
        apply elem_of_cons in Hin as [->|Hin]; [done | apply Hgone'; by right].
Qed.

End OneShot.

(** How the elementary updates change the inner maps of the store. *)
Lemma on_at st ty h o id now st' r :
  on st ty (Fn h) (Some o) id now = Returned st' r →
  ∀ loc, bucket_at st' loc = bucket_at st loc ∨
         bucket_at st' loc
         = jm_set id
             {| Listener.id := id; Listener.handler := h;
                Listener.once := default false (opt_once o);
                Listener.priority := default 0%Z (opt_priority o);
                Listener.createdAt := now |} (bucket_at st loc).
Proof.
  unfold on. destruct (initialized st); simpl; [|done].
  destruct (jm_has ty (listeners st)) eqn:Hhas.
  - destruct (jm_get ty (listeners st)) as [loc1|]; [|intros [= <- <-]; by left].
    intros [= <- <-] loc. unfold bucket_at. simpl.
    destruct (decide (loc = loc1)) as [->|Hne].
    + destruct (buckets st !! loc1) as [b|] eqn:Hl.
      * apply lookup_lt_Some in Hl. rewrite list_lookup_insert_eq by done. by right.
      * apply lookup_ge_None in Hl. rewrite list_insert_ge by done.
        rewrite lookup_ge_None_2 by done. by left.
    + rewrite list_lookup_insert_ne by done. by left.
  - simpl. rewrite jm_get_set_eq. intros [= <- <-] loc. unfold bucket_at. simpl.
    destruct (decide (loc = length (buckets st))) as [->|Hne].
    + rewrite list_lookup_insert_eq by (rewrite length_app; simpl; lia).
      rewrite lookup_app_r, Nat.sub_diag by lia.
      rewrite (lookup_ge_None_2 (buckets st)) by lia. by right.
    + rewrite list_lookup_insert_ne by done.
      destruct (decide (loc < length (buckets st))).
      * rewrite lookup_app_l by done. by left.
      * rewrite !lookup_ge_None_2; [by left | lia | rewrite length_app; simpl; lia].
Qed.

Lemma off_at st ty id st' r :
  off st ty id = Returned st' r →
  listeners st' = listeners st ∧
  ∀ loc, bucket_at st' loc = bucket_at st loc ∨
         bucket_at st' loc = jm_delete id (bucket_at st loc).
Proof.
  unfold off. destruct (initialized st); simpl; [|done].
  destruct (jm_get ty (listeners st)) as [loc1|].
  - intros [= <- <-]. split; [done|]. intros loc.
    change (with_buckets _ st) with (delete_at loc1 st id).
    rewrite bucket_at_delete_at. case_decide; [by right | by left].
  - intros [= <- <-]. split; [done|]. by left.
Qed.

Lemma removeAll_at st ty st' r :
  NoDup (jm_keys (listeners st)) →
  removeAllListeners st ty = Returned st' r →
  buckets st' = buckets st ∧
  ∀ t loc, jm_get t (listeners st') = Some loc →
           jm_get t (listeners st) = Some loc.
Proof.
  intros Hnd. unfold removeAllListeners. destruct (initialized st); simpl; [|done].
  destruct ty as [ty|]; [destruct (truthy_string ty)|]; intros [= <- <-];
    (split; [done|]); intros t loc; simpl; [|done..].
  rewrite jm_get_delete by done. by case_decide.
Qed.

(** *** One-shot subscriptions with handlers that change the registry *)
Section OneShotNoReentry.
Variable code : HandlerRef → Event.t → Script.
Variables (ty : string) (loc0 : nat) (l : Listener.t).
Hypothesis Hcode : no_reentry code (Listener.id l).
Hypothesis Honce : Listener.once l = true.
Hypothesis Hreturns : ∀ ev, returns_on code ev l.

Local Abbreviation unique := (only_at loc0 l).
Local Abbreviation sound := (IntegrationListener.sound loc0 l).
Local Abbreviation gone := (gone_from ty l).

Lemma unique_step st st' :
  wf st → unique st →
  (∀ loc, bucket_at st' loc = bucket_at st loc ∨
          (∃ id v, id ≠ Listener.id l ∧
                   bucket_at st' loc = jm_set id v (bucket_at st loc)) ∨
          (∃ id, bucket_at st' loc = jm_delete id (bucket_at st loc))) →
  unique st'.
Proof.
  intros Hwf Hu Hstep loc v Hg.
  destruct (Hstep loc) as [Heq | [(id & v' & Hne & Heq) | [id Heq]]];
    rewrite Heq in Hg.
  - by apply Hu.
  - rewrite jm_get_set_ne in Hg by done. by apply Hu.
  - rewrite jm_get_delete in Hg by apply (wf_bucket_at st loc Hwf).
    case_decide; [done | by apply Hu].
Qed.

Lemma gone_step st st' :
  gone st →
  (bucket_of st' ty = bucket_of st ty ∨ bucket_of st' ty = [] ∨
   (∃ id v, id ≠ Listener.id l ∧
            bucket_of st' ty = jm_set id v (bucket_of st ty)) ∨
   (∃ id, bucket_of st' ty = jm_delete id (bucket_of st ty))) →
  gone st'.
Proof.
  unfold gone_from. intros Hg Hstep.
  destruct Hstep as [Heq | [Heq | [(id & v & Hne & Heq) | [id Heq]]]];
    rewrite Heq.
  - done.
  - apply not_elem_of_nil.
  - rewrite jm_keys_set. case_decide; [done|].
    rewrite not_elem_of_app. split; [done|].
    rewrite list_elem_of_singleton. congruence.
  - intros Hin. by apply jm_keys_delete_subseteq in Hin.
Qed.

Lemma same_registry st st' :
  listeners st' = listeners st → buckets st' = buckets st →
  (∀ loc, bucket_at st' loc = bucket_at st loc) ∧
  bucket_of st' ty = bucket_of st ty.
Proof.
  intros Hl Hb.
  assert (Hat : ∀ loc, bucket_at st' loc = bucket_at st loc).
  { intros loc. unfold bucket_at. by rewrite Hb. }
  split; [done|]. unfold bucket_of. rewrite Hl. by destruct (jm_get _ _).
Qed.

Lemma bucket_of_delete_at loc st id :
  bucket_of (delete_at loc st id) ty = bucket_of st ty ∨
  bucket_of (delete_at loc st id) ty = jm_delete id (bucket_of st ty).
Proof.
  unfold bucket_of. simpl. destruct (jm_get ty (listeners st)) as [loc'|]; [|by left].
  rewrite bucket_at_delete_at. case_decide; [by right | by left].
Qed.

Lemma sound_closed : closed_for (Listener.id l) sound.
Proof.
  split.
  - intros f d st c Hc (Hi & Hwf & Hu).
    pose proof (run_call_preserves _ initialized_closed f d st c) as Hpi.
    pose proof (run_call_preserves _ wf_closed f d st c) as Hpw.
    destruct c as [t h o id now|t id|t| |]; simpl in *.
    + destruct Hc as (Hfn & Ho & Hid). destruct h as [h|]; [|done].
      destruct o as [o|]; [|done].
      destruct (on st t (Fn h) (Some o) id now) as [st' r|st' e|] eqn:Hon; simpl.
      * split_and!; [| |].
        -- apply on_inv in Hon as (_ & _ & -> & _). done.
        -- pose proof (wf_on st t (Fn h) (Some o) id now Hwf) as Hp.
           by rewrite Hon in Hp.
        -- apply (unique_step st st' Hwf Hu). intros loc.
           destruct (on_at _ _ _ _ _ _ _ _ Hon loc) as [-> | ->]; [by left|].
           right. left. by eexists _, _.
      * apply on_threw in Hon. by subst.
      * done.
    + destruct (off st t id) as [st' r|st' e|] eqn:Hoff; simpl; [| |done].
      * split_and!.
        -- pose proof (closed_off _ initialized_closed st t id Hi) as Hp.
           by rewrite Hoff in Hp.
        -- pose proof (wf_off st t id Hwf) as Hp. by rewrite Hoff in Hp.
        -- apply (unique_step st st' Hwf Hu). intros loc.
           destruct (off_at _ _ _ _ _ Hoff) as [_ Hat].
           destruct (Hat loc) as [-> | ->]; [by left|]. right. right. by eexists.
      * unfold off in Hoff. destruct (initialized st); simpl in Hoff; [|done].
        by destruct (jm_get _ _).
    + destruct (removeAllListeners st t) as [st' r|st' e|] eqn:Hrm; simpl; [| |done].
      * split_and!.
        -- pose proof (closed_removeAll _ initialized_closed st t Hi) as Hp.
           by rewrite Hrm in Hp.
        -- pose proof (wf_removeAll st t Hwf) as Hp. by rewrite Hrm in Hp.
        -- apply (unique_step st st' Hwf Hu). intros loc. left.
           destruct Hwf as (Hk & _).
           destruct (removeAll_at _ _ _ _ Hk Hrm) as [Hb _].
           unfold bucket_at. by rewrite Hb.
      * unfold removeAllListeners in Hrm. rewrite Hi in Hrm. simpl in Hrm.
        destruct t as [t|]; [destruct (truthy_string t)|]; done.
    + done.
    + unfold clearQueue. rewrite Hi. simpl. done.
  - intros st ev (Hi & Hwf & Hu).
    destruct (addToQueue_registry st ev) as (Hl & Hb & _ & Hi' & _).
    split_and!; [congruence | by apply wf_addToQueue|].
    apply (unique_step st _ Hwf Hu). intros loc. left.
    by apply (same_registry st (_addToQueue st ev)).
  - intros loc st id (Hi & Hwf & Hu).
    split_and!; [done | by apply wf_delete_at|].
    apply (unique_step st _ Hwf Hu). intros loc'.
    rewrite bucket_at_delete_at. case_decide; [|by left].
    right. right. by eexists.
  - done.
Qed.

Lemma post_and {A : Type} (P Q : State → Prop) (o : outcome A) :
  post P o → post Q o → post (λ st, P st ∧ Q st) o.
Proof. by destruct o. Qed.

Lemma gone_call f d st c :
  plain_call (Listener.id l) c → sound st → gone st →
  post gone (run_call f d st c).
Proof.
  intros Hc (Hi & Hwf & Hu) Hg.
  destruct c as [t h o id now|t id|t| |]; simpl in *.
  - destruct Hc as (Hfn & Ho & Hid). destruct h as [h|]; [|done].
    destruct o as [o|]; [|done].
    destruct (on_bucket st t h o id now Hi Hwf)
      as (st' & -> & _ & _ & _ & Hsame & Hother).
    simpl. apply (gone_step st st' Hg).
    destruct (decide (ty = t)) as [->|Hne].
    + right. right. left. by eexists _, _.
    + left. by apply Hother.
  - destruct (off st t id) as [st' r|st' e|] eqn:Hoff; simpl; [| |done].
    + destruct (off_at _ _ _ _ _ Hoff) as [Hl Hat].
      apply (gone_step st st' Hg). unfold bucket_of. rewrite Hl.
      destruct (jm_get ty (listeners st)) as [loc|]; [|by left].
      destruct (Hat loc) as [-> | ->]; [by left|]. right. right. right. by eexists.
    + unfold off in Hoff. rewrite Hi in Hoff. simpl in Hoff.
      by destruct (jm_get _ _).
  - destruct (removeAllListeners st t) as [st' r|st' e|] eqn:Hrm; simpl; [| |done].
    + destruct Hwf as (Hk & _).
      destruct (removeAll_at _ _ _ _ Hk Hrm) as [Hb Hsub].
      apply (gone_step st st' Hg). unfold bucket_of.
      destruct (jm_get ty (listeners st')) as [loc|] eqn:Hg'; [|by right; left].
      rewrite (Hsub _ _ Hg'). left. unfold bucket_at. by rewrite Hb.
    + unfold removeAllListeners in Hrm. rewrite Hi in Hrm. simpl in Hrm.
      destruct t as [t|]; [destruct (truthy_string t)|]; done.
  - done.
  - unfold clearQueue. rewrite Hi. simpl. done.
Qed.

Lemma sound_gone_closed : closed_for (Listener.id l) (λ st, sound st ∧ gone st).
Proof.
  split.
  - intros f d st c Hc [Hs Hg]. apply post_and.
    + by apply (cf_call _ _ sound_closed).
    + by apply gone_call.
  - intros st ev [Hs Hg]. split; [by apply (cf_addToQueue _ _ sound_closed)|].
    destruct (addToQueue_registry st ev) as (Hl & Hb & _).
    apply (gone_step st _ Hg). left.
    by apply (same_registry st (_addToQueue st ev)).
  - intros loc st id [Hs Hg]. split; [by apply (cf_delete_at _ _ sound_closed)|].
    apply (gone_step st _ Hg).
    destruct (bucket_of_delete_at loc st id) as [-> | ->]; [by left|].
    right. right. right. by eexists.
  - intros d ph l' ev st [Hs Hg]. split; [done|].
    apply (gone_step st _ Hg). by left.
Qed.

Lemma wf_bucket_of st t : wf st → wf_bucket (bucket_of st t).
Proof.
  intros Hwf. unfold bucket_of. destruct (jm_get t (listeners st)).
  - by apply wf_bucket_at.
  - split; [apply NoDup_nil_2 | constructor].
Qed.

Lemma fired_sorted st ev d :
  wf st →
  fired ty (Listener.id l)
    (quiet_trace code d ev
       (js_sort priority_compare (jm_values (bucket_of st (Event.type ev)))))
  = if decide (Event.type ev = ty ∧ ¬ gone st) then 1 else 0.
Proof.
  intros Hwf. rewrite fired_quiet_trace.
  destruct (decide (Event.type ev = ty)) as [->|Hty].
  - unfold priority_compare. rewrite js_sort_Permutation.
    pose proof (wf_bucket_of st ty Hwf) as Hwb.
    rewrite (count_NoDup Listener.id).
    2:{ rewrite (wf_bucket_ids _ Hwb). apply Hwb. }
    rewrite (wf_bucket_ids _ Hwb). unfold gone_from.
    destruct (decide (Listener.id l ∈ jm_keys (bucket_of st ty))) as [Hin|Hnin].
    + rewrite decide_True; [done|]. split; [done|]. by intros Hn.
    + rewrite decide_False; [done|]. by intros [_ Hn].
  - rewrite decide_False; [done | by intros [? _]].
Qed.

(** One emission: it returns; it calls [l] once when it is an emission of
    [ty] and [l] is still registered, and not at all otherwise; and after
    an emission of [ty] the id of [l] is out of the registry. *)
Lemma emit_once_at_most fuel st ev :
  sound st →
  ∃ st' n,
    emit code fuel 0 st (Event.type ev) (Event.data ev) (Event.timestamp ev)
      (Event.id ev) = Returned st' n ∧
    sound st' ∧
    ∃ seg, invoked st' = invoked st ++ seg ∧
      fired ty (Listener.id l) seg
      = (if decide (Event.type ev = ty ∧ ¬ gone st) then 1 else 0) ∧
      (gone st ∨ Event.type ev = ty → gone st').
Proof.
  intros Hs.
  assert (Hev : {| Event.type := Event.type ev; Event.data := Event.data ev;
                   Event.timestamp := Event.timestamp ev;
                   Event.id := Event.id ev |} = ev) by (by destruct ev).
  destruct (decide (gone st)) as [Hg|Hng].
  - destruct (emit_plain code (Listener.id l) Hcode _ sound_gone_closed
                (λ st0 H, proj1 (proj1 H)) fuel 0 st (Event.type ev)
                (Event.data ev) (Event.timestamp ev) (Event.id ev) (conj Hs Hg))
      as (st2 & HP2 & Hinv2 & He).
    rewrite Hev in *.
    match type of He with _ = Returned ?F _ => set (final := F) in * end.
    eexists _, _. split; [exact He|].
    assert (HF : sound final ∧ gone final).
    { subst final. destruct (jm_get (Event.type ev) (listeners st)); [|done].
      by apply (foldl_delete_at_closed (Listener.id l) _ sound_gone_closed). }
    destruct HF as [HFs HFg]. split; [exact HFs|].
    eexists. split.
    + subst final. destruct (jm_get (Event.type ev) (listeners st));
        rewrite ?foldl_delete_at_invoked; exact Hinv2.
    + split; [apply fired_sorted, Hs | by intros _].
  - destruct (emit_plain code (Listener.id l) Hcode _ sound_closed
                (λ st0 H, proj1 H) fuel 0 st (Event.type ev)
                (Event.data ev) (Event.timestamp ev) (Event.id ev) Hs)
      as (st2 & HP2 & Hinv2 & He).
    rewrite Hev in *.
    match type of He with _ = Returned ?F _ => set (final := F) in * end.
    eexists _, _. split; [exact He|].
    assert (HFs : sound final).
    { subst final. destruct (jm_get (Event.type ev) (listeners st)); [|done].
      by apply (foldl_delete_at_closed (Listener.id l) _ sound_closed). }
    split; [exact HFs|]. eexists. split.
    + subst final. destruct (jm_get (Event.type ev) (listeners st));
        rewrite ?foldl_delete_at_invoked; exact Hinv2.
    + split; [apply fired_sorted, Hs|].
      intros [Hg|Hty]; [done|]. subst final. rewrite Hty in *.
      assert (Hin : Listener.id l ∈ jm_keys (bucket_of st ty)).
      { unfold gone_from in Hng. by destruct (decide (Listener.id l ∈ jm_keys (bucket_of st ty))). }
      unfold bucket_of in Hin.
      destruct (jm_get ty (listeners st)) as [loc|] eqn:Hgl;
        [|by apply elem_of_nil in Hin].
      destruct (jm_get (Listener.id l) (bucket_at st loc)) as [v|] eqn:Hgv;
        [|by apply jm_get_None in Hgv].
      destruct Hs as (Hi & Hwf & Hu).
      destruct (Hu loc v Hgv) as [-> ->].
      set (sorted := js_sort priority_compare (jm_values (bucket_of st ty))) in *.
      assert (Hrem : Listener.id l ∈ removable code ev sorted).
      { unfold removable. apply list_elem_of_fmap_2, list_elem_of_filter.
        split; [by split|]. unfold sorted, priority_compare.
        rewrite js_sort_Permutation. unfold bucket_of. rewrite Hgl.
        by eapply jm_get_Some_value. }
      unfold gone_from, bucket_of.
      destruct (foldl_delete_at_fields loc0 (removable code ev sorted) st2)
        as (-> & _).
      destruct (jm_get ty (listeners st2)) as [loc2|]; [|apply not_elem_of_nil].
      intros Hin2.
      destruct (jm_get (Listener.id l)
                  (bucket_at (foldl (delete_at loc0) st2 (removable code ev sorted))
                     loc2)) as [v2|] eqn:Hg2; [|by apply jm_get_None in Hg2].
      destruct HFs as (_ & _ & HFu). destruct (HFu loc2 v2 Hg2) as [-> _].
      rewrite bucket_at_foldl_delete_at, decide_True in Hin2 by done.
      revert Hin2. apply foldl_delete_not_elem; [|done].
      destruct HP2 as (_ & Hwf2 & _). apply (wf_bucket_at st2 loc0 Hwf2).
Qed.

(** A sequence of emissions calls [l] at most once. *)
Lemma run_once_at_most fuel evs :
  ∀ st, sound st →
    ∃ st', run code fuel st (emit_call <$> evs) = Returned st' tt ∧ sound st' ∧
      ∃ seg, invoked st' = invoked st ++ seg ∧
        fired ty (Listener.id l) seg ≤ 1 ∧
        (gone st → fired ty (Listener.id l) seg = 0) ∧
        (gone st ∨ ty ∈ Event.type <$> evs → gone st').
Proof.
  unfold run. induction evs as [|ev evs IH]; intros st Hs.
  - exists st. split_and!; [done | done|]. exists []. rewrite app_nil_r.
    split_and!; [done | unfold fired; simpl; lia | done|].
    intros [Hg|Hin]; [done | by apply elem_of_nil in Hin].
  - destruct (emit_once_at_most fuel st ev Hs)
      as (st1 & n & He & Hs1 & seg1 & Hseg1 & Hf1 & Hg1).
    destruct (IH st1 Hs1) as (st' & Hrun & Hs' & seg2 & Hseg2 & Hle2 & Hz2 & Hg2).
    rewrite !fmap_cons. cbn [run_calls run_call emit_call]. rewrite He.
    cbn [discard]. exists st'. split_and!; [exact Hrun | done|].
    exists (seg1 ++ seg2). rewrite Hseg2, Hseg1, app_assoc, fired_app, Hf1.
    split_and!; [done | | |].
    + destruct (decide (Event.type ev = ty ∧ ¬ gone st)) as [[Hty _]|_]; [|lia].
      rewrite Hz2; [lia|]. apply Hg1. by right.
    + intros Hg. rewrite decide_False by (by intros [_ ?]).
      rewrite Hz2; [lia|]. apply Hg1. by left.
    + intros [Hg|Hin].
      * apply Hg2. left. apply Hg1. by left.
      * apply elem_of_cons in Hin as [->|Hin].
        -- apply Hg2. left. apply Hg1. by right.
        -- apply Hg2. by right.
Qed.

End OneShotNoReentry.

(** One-shot subscriptions when no handler re-enters [emit]: take a
    one-shot subscription whose id no other subscription uses and whose
    handler returns.  Over a sequence of emissions whose handlers do not
    call [emit] themselves, though they may register and remove
    subscriptions, its handler is called at most once, and after an emission
    of its event type it is out of the registry.  When the handlers make no
    call at all it is called exactly once if its event type is emitted. *)
Theorem once_fires_at_most_once_without_reentry code fuel st ty loc l evs :
  no_reentry code (Listener.id l) →
  initialized st = true → wf st →
  jm_get ty (listeners st) = Some loc →
  jm_get (Listener.id l) (bucket_at st loc) = Some l → only_at loc l st →
  Listener.once l = true → (∀ ev, returns_on code ev l) →
  ∃ st', run code fuel st (emit_call <$> evs) = Returned st' tt ∧
    ∃ seg, invoked st' = invoked st ++ seg ∧
      fired ty (Listener.id l) seg ≤ 1 ∧
      (ty ∈ Event.type <$> evs → Listener.id l ∉ jm_keys (bucket_of st' ty)) ∧
      (quiet code →
       fired ty (Listener.id l) seg
       = if decide (ty ∈ Event.type <$> evs) then 1 else 0).
Proof.
  intros Hcode Hi Hwf Hg Hl Hu Honce Hret.
  destruct (run_once_at_most code ty loc l Hcode Honce Hret fuel evs st)
    as (st' & Hrun & _ & seg & Hseg & Hle & _ & Hgone); [done|].
  exists st'. split; [done|]. exists seg. split_and!; [done | done | |].
  - intros Hty. apply Hgone. by right.
  - intros Hquiet.
    assert (Hin : (Listener.id l, l) ∈ bucket_at st loc).
    { clear -Hl. induction (bucket_at st loc) as [|[k v] b IH]; simpl in Hl; [done|].
      destruct (decide (Listener.id l = k)) as [<-|Hne].
      - injection Hl as ->. left.
      - right. by apply IH. }
    destruct (run_once code Hquiet ty loc l Honce Hret fuel evs st false Hi Hwf Hg Hin)
      as (st'' & Hrun' & _ & seg' & Hseg' & Hf & _).
    rewrite Hrun in Hrun'. injection Hrun' as <-.
    rewrite Hseg in Hseg'. apply app_inv_head in Hseg'. by subst seg'.
Qed.

Lemma once_fires_at_most_once_without_reentry_witness :
  let st := Samples.plain_and_once in
  let l := Samples.once_listener in
  let evs := [Samples.event_e1; Samples.event_e2] in
  ∃ st', run Samples.janitor 0 st (emit_call <$> evs) = Returned st' tt ∧
    ∃ seg, invoked st' = invoked st ++ seg ∧
      fired "a" (Listener.id l) seg ≤ 1 ∧
      ("a" ∈ Event.type <$> evs → Listener.id l ∉ jm_keys (bucket_of st' "a")) ∧
      (quiet Samples.janitor →
       fired "a" (Listener.id l) seg
       = if decide ("a" ∈ Event.type <$> evs) then 1 else 0).
Proof.
  apply (once_fires_at_most_once_without_reentry Samples.janitor 0
           Samples.plain_and_once "a" 0 Samples.once_listener
           [Samples.event_e1; Samples.event_e2]).
  - intros [|h] ev; [|constructor].
    repeat constructor; discriminate.
  - reflexivity.
  - apply (bool_decide_unpack _). vm_compute. exact I.
  - reflexivity.
  - reflexivity.
  - intros [|loc'] v Hv; [|discriminate Hv].
    split; [reflexivity|]. vm_compute in Hv. by injection Hv.
  - reflexivity.
  - intros ev. reflexivity.
Defined.

(** With the handlers of [janitor] the first emission calls [l1] although
    handler 0 has dropped it from the registry before its turn, and the
    second emission calls the new subscription [l9] only. *)
Example janitor_run :
  ∃ st', run Samples.janitor 0 Samples.plain_and_once
           (emit_call <$> [Samples.event_e1; Samples.event_e2])
         = Returned st' tt ∧
    Listener.id <$> (inv_listener <$> own 0 Begin (invoked st'))
    = ["l0"; "l1"; "l9"] ∧
    jm_keys (bucket_of st' "a") = ["l9"].
Proof. eexists. split_and!; vm_compute; reflexivity. Qed.

(** C2, at the failing inputs: a one-shot subscription is called twice.
    The listener has the plain subscription [l0] and the one-shot
    subscription [l1] for [a]; the handler of [l0] answers the event [e1]
    by emitting [a] again and awaiting that emission.  The one-shot
    subscriptions are deleted only after the loop over the handlers, so
    the nested emission still finds [l1] and calls it, and so does the
    outer emission afterwards.  And a one-shot subscription whose handler
    throws is never deleted: two emissions in a row call [l2] twice. *)
Lemma once_listener_called_twice :
  (∃ st', emit Samples.relay 1 0 Samples.plain_and_once "a" ∅ 0 "e1"
          = Returned st' 2 ∧
          fired "a" "l1" (invoked st') = 2) ∧
  (∃ st', run Samples.observers 0 Samples.once_thrower
            (emit_call <$> [Samples.event_e1; Samples.event_e2])
          = Returned st' tt ∧
          fired "a" "l2" (invoked st') = 2).
Proof.
  split; eexists; (split; [vm_compute; reflexivity | vm_compute; reflexivity]).
Qed.

End ListenerFacts.

(** ** The machines adapter *)
Module MachineFacts.
Import MachinesAdapter.

Section Facts.
Context {World Failure : Type}.
Implicit Types (st : @State World Failure) (env : @Env World).

(** C6, as the code has it: when the table has a non-empty destination for
    the event in the current state, [transition] moves the machine there,
    sets [updatedAt], merges the payload over the context, and returns the
    success record with the new context. *)
Theorem transition_applies_table_entry st machineId event payload now machine
    destination :
  initialized st = true →
  jm_get machineId (machines st) = Some machine →
  default ∅ (Machine.transitions machine !! Machine.state machine) !! event
    = Some destination →
  destination ≠ "" →
  let context' := default ∅ payload ∪ Machine.context machine in
  let machine' :=
    {| Machine.id := Machine.id machine;
       Machine.type := Machine.type machine;
       Machine.state := destination;
       Machine.states := Machine.states machine;
       Machine.transitions := Machine.transitions machine;
       Machine.context := context';
       Machine.createdAt := Machine.createdAt machine;
       Machine.updatedAt := now |} in
  let st' :=
    {| machines := jm_set machineId machine' (machines st);
       adapters := adapters st; initialized := true |} in
  transition st machineId event payload now
  = Returned st'
      {| TransitionResult.success := true;
         TransitionResult.from := Machine.state machine;
         TransitionResult.to := destination;
         TransitionResult.event := event;
         TransitionResult.context := Some context' |} ∧
  jm_get machineId (machines st') = Some machine' ∧
  (∀ other, other ≠ machineId →
            jm_get other (machines st') = jm_get other (machines st)) ∧
  (∀ k, context' !! k
        = match default ∅ payload !! k with
          | Some v => Some v
          | None => Machine.context machine !! k
          end).
Proof.
  intros Hi Hm Hentry Hne context' machine' st'. split_and!.
  - unfold transition. rewrite Hi, Hm. simpl.
    destruct (Machine.transitions machine !! Machine.state machine)
      as [row|] eqn:Hrow; [|done].
    simpl in Hentry |- *. rewrite Hentry. simpl.
    assert (Htruthy : truthy_string destination = true).
    { unfold truthy_string. destruct (String.eqb_spec destination ""); done. }
    rewrite Htruthy. simpl. subst st' machine' context'.
    destruct payload as [p|]; simpl; [done|].
    by rewrite (left_id_L ∅ (∪)).
  - apply jm_get_set_eq.
  - intros other Hother. simpl. by apply jm_get_set_ne.
  - intros k. subst context'. rewrite lookup_union.
    destruct (default ∅ payload !! k) as [v|], (Machine.context machine !! k);
      done.
Qed.

(** An event that has no entry in the row of the current state, and that
    no lookup mistakes for a member of [Object.prototype], is rejected:
    [transition] returns the failure record and changes nothing, however
    often the call is repeated. *)
Lemma transition_without_entry st machineId event payload now machine :
  initialized st = true →
  jm_get machineId (machines st) = Some machine →
  default ∅ (Machine.transitions machine !! Machine.state machine) !! event
    = None →
  inherited event = false →
  (Machine.transitions machine !! Machine.state machine = None →
   inherited (Machine.state machine) = false) →
  transition st machineId event payload now
  = Returned st
      {| TransitionResult.success := false;
         TransitionResult.from := Machine.state machine;
         TransitionResult.to := Machine.state machine;
         TransitionResult.event := event;
         TransitionResult.context := None |} ∧
  ∀ n, repeat_transition n st machineId event payload now = st.
Proof.
  intros Hi Hm Hentry Hevent Hstate.
  assert (Hone : transition st machineId event payload now
                 = Returned st
                     {| TransitionResult.success := false;
                        TransitionResult.from := Machine.state machine;
                        TransitionResult.to := Machine.state machine;
                        TransitionResult.event := event;
                        TransitionResult.context := None |}).
  { unfold transition. rewrite Hi, Hm. simpl. rewrite Hentry, Hevent.
    rewrite andb_false_r. simpl.
    destruct (Machine.transitions machine !! Machine.state machine); [done|].
    by rewrite Hstate. }
  split; [done|]. induction n as [|n IH]; simpl; [done|]. by rewrite Hone.
Qed.

(** An event that has no entry in the row of the current state and is the
    name of a member of [Object.prototype] is not rejected. *)
Lemma transition_inherited_event st machineId event payload now machine row :
  initialized st = true →
  jm_get machineId (machines st) = Some machine →
  Machine.transitions machine !! Machine.state machine = Some row →
  row !! event = None →
  inherited event = true →
  transition st machineId event payload now = InheritedDestination st event.
Proof.
  intros Hi Hm Hrow Hentry Hevent. unfold transition.
  rewrite Hi, Hm. simpl. rewrite Hrow. simpl. by rewrite Hentry, Hevent.
Qed.

(** C9: for an adapter type that is not registered, [getAdapter] returns
    nothing, and [connect], [send] and [receive] throw [AdapterNotFound]
    with no adapter operation invoked and the world as it was; for a
    registered adapter the operation is invoked once and its rejection is
    what the caller gets. *)
Theorem adapter_calls_fail_or_propagate st env adapterType config data :
  initialized st = true →
  (jm_get adapterType (adapters st) = None →
   getAdapter st adapterType = Returned st None ∧
   connect st env adapterType config = (env, inr (AdapterNotFound adapterType)) ∧
   send st env adapterType data = (env, inr (AdapterNotFound adapterType)) ∧
   receive st env adapterType = (env, inr (AdapterNotFound adapterType))) ∧
  (∀ adapter, jm_get adapterType (adapters st) = Some adapter →
   (∀ w error, adapter_connect adapter config (world env) = (w, Rejected error) →
      connect st env adapterType config
      = ({| world := w;
            performed := performed env ++ [(adapterType, OpConnect config)] |},
         inr (AdapterFailed error))) ∧
   (∀ w error, adapter_send adapter data (world env) = (w, Rejected error) →
      send st env adapterType data
      = ({| world := w;
            performed := performed env ++ [(adapterType, OpSend data)] |},
         inr (AdapterFailed error))) ∧
   (∀ w error, adapter_receive adapter (world env) = (w, Rejected error) →
      receive st env adapterType
      = ({| world := w;
            performed := performed env ++ [(adapterType, OpReceive)] |},
         inr (AdapterFailed error)))).
Proof.
  intros Hi. split.
  - intros Hnone. unfold getAdapter, connect, send, receive.
    rewrite Hi, Hnone. done.
  - intros adapter Hsome. unfold connect, send, receive, invoke.
    rewrite Hi, Hsome. simpl.
    split_and!; intros w error Hop; by rewrite Hop.
Qed.

End Facts.

Lemma transition_applies_table_entry_witness :
  let st := Samples.one_machine in
  let machine := Samples.flow in
  let payload := Some ({[ "step" := VNum 2 ]} : Obj) in
  let context' := default ∅ payload ∪ Machine.context machine in
  let machine' :=
    {| Machine.id := Machine.id machine;
       Machine.type := Machine.type machine;
       Machine.state := "processing";
       Machine.states := Machine.states machine;
       Machine.transitions := Machine.transitions machine;
       Machine.context := context';
       Machine.createdAt := Machine.createdAt machine;
       Machine.updatedAt := 9 |} in
  let st' :=
    {| machines := jm_set "flow" machine' (machines st);
       adapters := adapters st; initialized := true |} in
  transition st "flow" "start" payload 9
  = Returned st'
      {| TransitionResult.success := true;
         TransitionResult.from := Machine.state machine;
         TransitionResult.to := "processing";
         TransitionResult.event := "start";
         TransitionResult.context := Some context' |} ∧
  jm_get "flow" (machines st') = Some machine' ∧
  (∀ other, other ≠ "flow" →
            jm_get other (machines st') = jm_get other (machines st)) ∧
  (∀ k, context' !! k
        = match default ∅ payload !! k with
          | Some v => Some v
          | None => Machine.context machine !! k
          end).
Proof.
  apply (transition_applies_table_entry Samples.one_machine "flow" "start"
           (Some {[ "step" := VNum 2 ]}) 9 Samples.flow "processing").
  - reflexivity.
  - reflexivity.
  - vm_compute. reflexivity.
  - discriminate.
Defined.

(** C6 fails as stated: the table of [flow] has the entry [go] in state
    [idle], its destination is the empty string, and [transition] reports
    failure and leaves the machine where it is. *)
Lemma transition_rejects_empty_destination :
  default ∅ (Machine.transitions Samples.flow !! Machine.state Samples.flow)
    !! "go" = Some "" ∧
  transition Samples.one_machine "flow" "go" (Some ∅) 9
  = Returned Samples.one_machine
      {| TransitionResult.success := false;
         TransitionResult.from := "idle";
         TransitionResult.to := "idle";
         TransitionResult.event := "go";
         TransitionResult.context := None |}.
Proof. split; vm_compute; reflexivity. Qed.

(** C7, at the failing input: the table of [flow] has no entry for the
    event [constructor] in the state [idle], and [transition] does not
    reject the event: the lookup in the row finds the member [constructor]
    that every object inherits, and the code takes it for the
    destination.  An event that is not the name of such a member, like
    [complete], is rejected as the claim says. *)
Theorem transition_takes_inherited_member :
  Machine.state Samples.flow = "idle" ∧
  Machine.transitions Samples.flow !! "idle"
  = Some {[ "start" := "processing"; "go" := "" ]} ∧
  ({[ "start" := "processing"; "go" := "" ]} : gmap string string)
    !! "constructor" = None ∧
  transition Samples.one_machine "flow" "constructor" (Some ∅) 9
  = InheritedDestination Samples.one_machine "constructor" ∧
  transition Samples.one_machine "flow" "complete" (Some ∅) 9
  = Returned Samples.one_machine
      {| TransitionResult.success := false;
         TransitionResult.from := "idle";
         TransitionResult.to := "idle";
         TransitionResult.event := "complete";
         TransitionResult.context := None |}.
Proof. split_and!; vm_compute; reflexivity. Qed.

(** The sample adapter registry has the adapter [radio], whose operations
    all fail with [offline], and no adapter [satellite]: calls through
    [satellite] throw and reach nothing; calls through [radio] reach the
    adapter once and throw its failure. *)
Lemma adapter_calls_fail_or_propagate_witness :
  let st := Samples.one_machine in
  let env := Samples.quiet_world in
  (getAdapter st "satellite" = Returned st None ∧
   connect st env "satellite" ∅ = (env, inr (AdapterNotFound "satellite")) ∧
   send st env "satellite" ∅ = (env, inr (AdapterNotFound "satellite")) ∧
   receive st env "satellite" = (env, inr (AdapterNotFound "satellite"))) ∧
  (connect st env "radio" ∅
   = ({| world := ["connect"]; performed := [("radio", OpConnect ∅)] |},
      inr (AdapterFailed "offline")) ∧
   send st env "radio" ∅
   = ({| world := ["send"]; performed := [("radio", OpSend ∅)] |},
      inr (AdapterFailed "offline")) ∧
   receive st env "radio"
   = ({| world := ["receive"]; performed := [("radio", OpReceive)] |},
      inr (AdapterFailed "offline"))).
Proof.
  intros st env. split.
  - destruct (adapter_calls_fail_or_propagate Samples.one_machine
                Samples.quiet_world "satellite" ∅ ∅ eq_refl) as [Hnone _].
    apply Hnone. reflexivity.
  - destruct (adapter_calls_fail_or_propagate Samples.one_machine
                Samples.quiet_world "radio" ∅ ∅ eq_refl) as [_ Hsome].
    destruct (Hsome Samples.offline eq_refl) as (Hconnect & Hsend & Hreceive).
    split_and!.
    + apply Hconnect. reflexivity.
    + apply Hsend. reflexivity.
    + apply Hreceive. reflexivity.
Defined.

(** Sending through an adapter type that was never registered reaches no
    adapter; sending through the registered one reaches it once. *)
Example send_unregistered :
  send Samples.one_machine Samples.quiet_world "satellite" ∅
  = (Samples.quiet_world, inr (AdapterNotFound "satellite")).
Proof. reflexivity. Qed.

Example send_offline :
  send Samples.one_machine Samples.quiet_world "radio" ∅
  = ({| world := ["send"]; performed := [("radio", OpSend ∅)] |},
     inr (AdapterFailed "offline")).
Proof. reflexivity. Qed.

(** The flow of the specification: [start], [complete], and then [start]
    again from a state without transitions. *)
Example flow_walk :
  let table : gmap string (gmap string string) :=
    {[ "idle" := {[ "start" := "processing" ]};
       "processing" := {[ "complete" := "done" ]} ]} in
  let config :=
    {| Config.type := None; Config.initialState := Some "idle";
       Config.states := None; Config.transitions := Some table;
       Config.context := None |} in
  let st0 : @State (list string) string :=
    {| machines := []; adapters := []; initialized := true |} in
  ∃ st1 m st2 r2 st3 r3 st4 r4,
    registerMachine st0 "flow" (Some config) 1 1 = Returned st1 m ∧
    transition st1 "flow" "start" (Some ∅) 2 = Returned st2 r2 ∧
    transition st2 "flow" "complete" (Some ∅) 3 = Returned st3 r3 ∧
    transition st3 "flow" "start" (Some ∅) 4 = Returned st4 r4 ∧
    (TransitionResult.success r2, TransitionResult.from r2, TransitionResult.to r2)
      = (true, "idle", "processing") ∧
    (TransitionResult.success r3, TransitionResult.from r3, TransitionResult.to r3)
      = (true, "processing", "done") ∧
    (TransitionResult.success r4, TransitionResult.from r4, TransitionResult.to r4)
      = (false, "done", "done") ∧
    st4 = st3.
Proof.
  do 8 eexists. split_and!; try (vm_compute; reflexivity).
Qed.

End MachineFacts.

(** ** More facts about insertion-ordered maps *)
Section JSMapFilterFacts.
Context {K V : Type} `{EqDecision K}.
Implicit Types (m : list (K * V)) (k : K) (v : V).

Lemma filter_all {A : Type} (P : A → Prop) `{∀ x, Decision (P x)} (l : list A) :
  Forall P l → filter P l = l.
Proof.
  induction 1 as [|x l Hx Hl IH]; [done|].
  rewrite filter_cons, decide_True by done. by rewrite IH.
Qed.

Lemma filter_none {A : Type} (P : A → Prop) `{∀ x, Decision (P x)} (l : list A) :
  Forall (λ x, ¬ P x) l → filter P l = [].
Proof.
  induction 1 as [|x l Hx Hl IH]; [done|].
  by rewrite filter_cons, decide_False.
Qed.

Lemma filter_iff_in {A : Type} (P Q : A → Prop) `{∀ x, Decision (P x)}
    `{∀ x, Decision (Q x)} (l : list A) :
  (∀ x, x ∈ l → P x ↔ Q x) → filter P l = filter Q l.
Proof.
  induction l as [|x l IH]; intros Hl; [done|].
  rewrite !filter_cons.
  assert (Hx : P x ↔ Q x) by (apply Hl; left).
  rewrite IH by (intros y Hy; apply Hl; by right).
  destruct (decide (P x)), (decide (Q x)); tauto.
Qed.

(** On a map, deleting a key keeps exactly the other entries. *)
Lemma jm_delete_filter m k :
  NoDup (jm_keys m) → jm_delete k m = filter (λ kv, kv.1 ≠ k) m.
Proof.
  unfold jm_keys. induction m as [|[k' v'] m IH]; simpl; intros Hnd; [done|].
  apply NoDup_cons in Hnd as [Hnin Hnd]. rewrite filter_cons. simpl.
  destruct (decide (k = k')) as [->|Hne].
  - rewrite decide_False by (intros Hc; by apply Hc).
    symmetry. apply filter_all. apply Forall_forall. intros [k2 v2] Hin. simpl.
    intros ->. apply Hnin. by apply (list_elem_of_fmap_2 fst) in Hin.
  - rewrite decide_True by done. by rewrite IH.
Qed.

Lemma foldl_jm_delete_filter (ids : list K) :
  ∀ m, NoDup (jm_keys m) →
       foldl (λ b i, jm_delete i b) m ids = filter (λ kv, kv.1 ∉ ids) m.
Proof.
  induction ids as [|i ids IH]; intros m Hnd; simpl.
  - symmetry. apply filter_all. apply Forall_forall. intros kv _.
    apply not_elem_of_nil.
  - rewrite IH by (by apply jm_keys_delete_NoDup).
    rewrite jm_delete_filter by done. rewrite list_filter_filter.
    apply list_filter_iff. intros [k v]. simpl. rewrite not_elem_of_cons. tauto.
Qed.

Lemma jm_size_set m k v :
  jm_size (jm_set k v m)
  = if bool_decide (k ∈ jm_keys m) then jm_size m else S (jm_size m).
Proof.
  unfold jm_size. case_bool_decide as Hin.
  - rewrite <- (length_fmap fst (jm_set k v m)), <- (length_fmap fst m).
    change (length (jm_keys (jm_set k v m)) = length (jm_keys m)).
    by rewrite jm_keys_set_present.
  - rewrite jm_set_fresh by done. rewrite length_app. simpl. lia.
Qed.

Lemma jm_size_delete_present m k :
  k ∈ jm_keys m → S (jm_size (jm_delete k m)) = jm_size m.
Proof.
  unfold jm_size, jm_keys. induction m as [|[k' v'] m IH]; intros Hin.
  - by apply elem_of_nil in Hin.
  - rewrite fmap_cons in Hin. cbn [jm_delete].
    destruct (decide (k = k')) as [->|Hne]; [done|].
    apply elem_of_cons in Hin as [Heq|Hin]; [done|].
    cbn [length]. by rewrite IH.
Qed.

Lemma jm_size_delete m k :
  jm_size (jm_delete k m)
  = if bool_decide (k ∈ jm_keys m) then jm_size m - 1 else jm_size m.
Proof.
  case_bool_decide as Hin.
  - rewrite <- (jm_size_delete_present m k Hin). lia.
  - by rewrite jm_delete_absent.
Qed.
End JSMapFilterFacts.

(** ** Subscribing and unsubscribing *)
Module SubscriptionFacts.
Import IntegrationListener ListenerFacts.

Lemma listenerCount_bucket_of st ty :
  initialized st = true →
  listenerCount st ty = Returned st (jm_size (bucket_of st ty)).
Proof.
  intros Hi. unfold listenerCount, bucket_of. rewrite Hi. simpl.
  by destruct (jm_get ty (listeners st)).
Qed.

Lemma with_buckets_id st : with_buckets (buckets st) st = st.
Proof. by destruct st. Qed.

Lemma bucket_at_lookup st loc :
  loc < length (buckets st) → buckets st !! loc = Some (bucket_at st loc).
Proof.
  intros Hlt. unfold bucket_at.
  destruct (buckets st !! loc) eqn:Hl; [done|].
  apply lookup_ge_None in Hl. lia.
Qed.

Lemma off_bucket st ty lid :
  initialized st = true → wf st →
  ∃ st', off st ty lid = Returned st' (jm_has lid (bucket_of st ty)) ∧
    initialized st' = true ∧ wf st' ∧ listeners st' = listeners st ∧
    eventQueue st' = eventQueue st ∧
    bucket_of st' ty = jm_delete lid (bucket_of st ty) ∧
    ∀ ty', ty' ≠ ty → bucket_of st' ty' = bucket_of st ty'.
Proof.
  intros Hi Hwf. unfold off, bucket_of. rewrite Hi. simpl.
  destruct (jm_get ty (listeners st)) as [loc|] eqn:Hg.
  - change (with_buckets _ st) with (delete_at loc st lid).
    eexists. split; [done|]. split_and!; try done.
    + by apply wf_delete_at.
    + simpl. rewrite Hg, bucket_at_delete_at. by rewrite decide_True.
    + intros ty' Hne. simpl.
      destruct (jm_get ty' (listeners st)) as [loc'|] eqn:Hg'; [|done].
      rewrite bucket_at_delete_at. rewrite decide_False; [done|].
      intros ->. apply Hne. destruct Hwf as (_ & Hv & _).
      by eapply jm_get_values_inj.
  - exists st. split_and!; try done. by rewrite Hg.
Qed.

Lemma off_absent st ty lid :
  initialized st = true → wf st → lid ∉ jm_keys (bucket_of st ty) →
  off st ty lid = Returned st false.
Proof.
  intros Hi Hwf Hnin. unfold off. rewrite Hi. simpl.
  unfold bucket_of in Hnin.
  destruct (jm_get ty (listeners st)) as [loc|] eqn:Hg; [|done].
  assert (Hhas : jm_has lid (bucket_at st loc) = false).
  { destruct (jm_has lid (bucket_at st loc)) eqn:Hh; [|done].
    by apply jm_has_true in Hh. }
  rewrite Hhas, jm_delete_absent by done.
  destruct Hwf as (_ & _ & Hr & _). rewrite Forall_forall in Hr.
  rewrite list_insert_id.
  - by rewrite with_buckets_id.
  - apply bucket_at_lookup. apply Hr. by eapply jm_get_Some_value.
Qed.

(** X1: A call of the listener throws in three cases only: the listener is
    not initialised, [on] is given a handler that is not a function, or [on]
    is given a function and [null] as options.  In the first two cases the
    listener is as it was before the call.  In the third the event type has
    got an empty inner map if it had none, so that it is listed from then
    on, and nothing else has changed.  In particular no failure of a handler
    makes [emit] throw. *)
Theorem call_throws_iff code fuel d st c st' e :
  run_call (emit code fuel) d st c = Threw st' e ↔
  (st' = st ∧ initialized st = false ∧ e = NotInitialized) ∨
  (st' = st ∧ initialized st = true ∧ e = HandlerNotFunction ∧
   ∃ ty o lid now, c = CallOn ty NotFn o lid now) ∨
  (initialized st = true ∧ e = OptionsNull ∧
   ∃ ty h lid now, c = CallOn ty (Fn h) None lid now ∧
     st' = (if jm_has ty (listeners st) then st
            else with_buckets (buckets st ++ [[]])
                   (with_listeners
                      (jm_set ty (length (buckets st)) (listeners st)) st)) ∧
     getEventTypes st'
     = Returned st'
         (if jm_has ty (listeners st) then jm_keys (listeners st)
          else jm_keys (listeners st) ++ [ty]) ∧
     listenerCount st' ty = Returned st' (jm_size (bucket_of st ty))).
Proof.
  split.
  - destruct c as [ty h o lid now|ty lid|ty|ty data now eid|]; simpl.
    + unfold on. destruct (initialized st) eqn:Hi; simpl.
      * destruct h as [h|]; simpl.
        -- destruct o as [o|]; [by destruct (jm_get _ _)|].
           intros [= <- <-]. right. right. split_and!; [done..|].
           exists ty, h, lid, now. split; [done|]. split; [done|].
           unfold getEventTypes, listenerCount, bucket_of, jm_has.
           destruct (jm_get ty (listeners st)) as [loc|] eqn:Hg; simpl.
           ++ by rewrite Hi, Hg.
           ++ rewrite Hi. simpl. rewrite jm_get_set_eq.
              assert (Hfresh : ty ∉ jm_keys (listeners st)).
              { intros Hin. apply jm_has_true in Hin. unfold jm_has in Hin.
                by rewrite Hg in Hin. }
              rewrite jm_set_fresh by done. unfold jm_keys at 1.
              rewrite fmap_app. split; [done|].
              unfold bucket_at. simpl.
              by rewrite lookup_app_r, Nat.sub_diag by lia.
        -- intros [= <- <-]. right. left. split_and!; [done..|].
           by exists ty, o, lid, now.
      * intros [= <- <-]. by left.
    + unfold off. destruct (initialized st); simpl.
      * by destruct (jm_get _ _).
      * intros [= <- <-]. by left.
    + unfold removeAllListeners. destruct (initialized st); simpl.
      * destruct ty as [ty|]; [by destruct (truthy_string ty)|done].
      * intros [= <- <-]. by left.
    + destruct (emit code fuel d st ty data now eid) as [st1 n|st1 e1|] eqn:He;
        simpl; [done| |done].
      intros [= <- <-]. apply emit_threw in He as (Hi & -> & ->). by left.
    + unfold clearQueue. destruct (initialized st); simpl; [done|].
      intros [= <- <-]. by left.
  - intros [(-> & Hi & ->)|[(-> & Hi & -> & ty & o & lid & now & ->)
                           |(Hi & -> & ty & h & lid & now & -> & -> & _)]].
    + destruct c as [ty h o lid now|ty lid|ty|ty data now eid|]; simpl.
      * unfold on. by rewrite Hi.
      * unfold off. by rewrite Hi.
      * unfold removeAllListeners. by rewrite Hi.
      * destruct fuel; simpl; unfold emit_step; by rewrite Hi.
      * unfold clearQueue. by rewrite Hi.
    + simpl. unfold on. by rewrite Hi.
    + simpl. unfold on. by rewrite Hi.
Qed.

(** [on] with [null] as options on the new listener: the call throws, and
    the event type is listed from then on, with no subscription. *)
Example on_with_null_options :
  on Samples.ready "a" (Fn 0) None "l0" 0 = Threw Samples.emptied OptionsNull ∧
  getEventTypes Samples.emptied = Returned Samples.emptied ["a"] ∧
  listenerCount Samples.emptied "a" = Returned Samples.emptied 0.
Proof. split_and!; reflexivity. Qed.

(** X2: [off] deletes the subscription with the given id from the event type
    and reports whether it was there.  Afterwards the id is not subscribed
    to the type and a second [off] reports [false] and changes nothing; the
    other subscriptions of the type keep their order, the other event types
    keep theirs, and [listenerCount] is one less when the id was there. *)
Theorem off_unsubscribes st ty lid :
  initialized st = true → wf st →
  ∃ st' removed,
    off st ty lid = Returned st' removed ∧
    (removed = true ↔ lid ∈ jm_keys (bucket_of st ty)) ∧
    bucket_of st' ty = filter (λ kv, kv.1 ≠ lid) (bucket_of st ty) ∧
    (lid ∉ jm_keys (bucket_of st' ty)) ∧
    (∀ ty', ty' ≠ ty → bucket_of st' ty' = bucket_of st ty') ∧
    listenerCount st' ty
    = Returned st' (if removed then jm_size (bucket_of st ty) - 1
                    else jm_size (bucket_of st ty)) ∧
    eventQueue st' = eventQueue st ∧
    off st' ty lid = Returned st' false.
Proof.
  intros Hi Hwf.
  destruct (off_bucket st ty lid Hi Hwf)
    as (st' & Hoff & Hi' & Hwf' & Hl & Hq & Hb & Hother).
  pose proof (wf_bucket_of st ty Hwf) as [Hnd _].
  assert (Hgone : lid ∉ jm_keys (bucket_of st' ty)).
  { rewrite Hb. by apply jm_delete_not_elem. }
  exists st', (jm_has lid (bucket_of st ty)).
  split_and!; try done.
  - apply jm_has_true.
  - rewrite Hb. by apply jm_delete_filter.
  - rewrite listenerCount_bucket_of, Hb, jm_size_delete by done.
    do 2 f_equal. unfold jm_has.
    case_bool_decide as Hin.
    + apply jm_has_true in Hin. unfold jm_has in Hin.
      by destruct (jm_get lid (bucket_of st ty)).
    + destruct (jm_get lid (bucket_of st ty)) eqn:Hg; [|done].
      exfalso. apply Hin. by eapply jm_get_Some_key.
  - by apply off_absent.
Qed.

Lemma jm_delete_set_fresh {K V : Type} `{EqDecision K} (m : list (K * V)) k v :
  k ∉ jm_keys m → jm_delete k (jm_set k v m) = m.
Proof.
  unfold jm_keys. induction m as [|[k' v'] m IH]; intros Hnin.
  - cbn [jm_set jm_delete]. by rewrite decide_True.
  - rewrite fmap_cons in Hnin. apply not_elem_of_cons in Hnin as [Hne Hnin].
    cbn [jm_set]. rewrite decide_False by done.
    cbn [jm_delete]. rewrite decide_False by done. by rewrite IH.
Qed.

Lemma jm_keys_delete {K V : Type} `{EqDecision K} (m : list (K * V)) k :
  NoDup (jm_keys m) → jm_keys (jm_delete k m) = filter (λ k', k' ≠ k) (jm_keys m).
Proof.
  unfold jm_keys. induction m as [|[k' v'] m IH]; intros Hnd; [done|].
  rewrite fmap_cons in Hnd. apply NoDup_cons in Hnd as [Hnin Hnd].
  rewrite fmap_cons, filter_cons. cbn [jm_delete fst].
  destruct (decide (k = k')) as [->|Hne].
  - rewrite decide_False by (intros Hc; by apply Hc).
    symmetry. apply filter_all. apply Forall_forall. by intros k2 Hin ->.
  - rewrite decide_True by done. rewrite fmap_cons. cbn [fst]. by rewrite IH.
Qed.

Lemma on_listeners st ty h o lid now st' r :
  on st ty (Fn h) (Some o) lid now = Returned st' r →
  jm_keys (listeners st')
  = if jm_has ty (listeners st) then jm_keys (listeners st)
    else jm_keys (listeners st) ++ [ty].
Proof.
  unfold on. destruct (initialized st); simpl; [|done].
  destruct (jm_has ty (listeners st)) eqn:Hhas.
  - by destruct (jm_get ty (listeners st)); intros [= <- <-].
  - simpl. rewrite jm_get_set_eq. intros [= <- <-]. simpl.
    rewrite jm_set_fresh.
    + unfold jm_keys. by rewrite fmap_app.
    + intros Hin. apply jm_has_true in Hin. congruence.
Qed.

(** X3: [on] with a function as handler subscribes it: the listener record is
    stored under the id in the event type, at the end when the id is new and
    at the place of the subscription that had the id otherwise.  The other
    subscriptions and the other event types are as before, and
    [listenerCount] grows by one exactly when the id is new. *)
Theorem on_subscribes st ty h o lid now :
  initialized st = true → wf st →
  let listener :=
    {| Listener.id := lid; Listener.handler := h;
       Listener.once := default false (opt_once o);
       Listener.priority := default 0%Z (opt_priority o);
       Listener.createdAt := now |} in
  ∃ st', on st ty (Fn h) (Some o) lid now = Returned st' lid ∧
    jm_get lid (bucket_of st' ty) = Some listener ∧
    (∀ lid', lid' ≠ lid →
             jm_get lid' (bucket_of st' ty) = jm_get lid' (bucket_of st ty)) ∧
    jm_keys (bucket_of st' ty)
    = (if decide (lid ∈ jm_keys (bucket_of st ty))
       then jm_keys (bucket_of st ty)
       else jm_keys (bucket_of st ty) ++ [lid]) ∧
    (∀ ty', ty' ≠ ty → bucket_of st' ty' = bucket_of st ty') ∧
    listenerCount st' ty
    = Returned st' (if bool_decide (lid ∈ jm_keys (bucket_of st ty))
                    then jm_size (bucket_of st ty)
                    else S (jm_size (bucket_of st ty))) ∧
    (∃ tys, getEventTypes st' = Returned st' tys ∧ ty ∈ tys) ∧
    eventQueue st' = eventQueue st.
Proof.
  intros Hi Hwf listener.
  destruct (on_bucket st ty h o lid now Hi Hwf)
    as (st' & Hon & Hi' & Hwf' & _ & Hb & Hother).
  fold listener in Hb.
  exists st'. split_and!; try done.
  - rewrite Hb. apply jm_get_set_eq.
  - intros lid' Hne. rewrite Hb. by apply jm_get_set_ne.
  - rewrite Hb. apply jm_keys_set.
  - by rewrite listenerCount_bucket_of, Hb, jm_size_set.
  - exists (jm_keys (listeners st')). unfold getEventTypes. rewrite Hi'.
    split; [done|]. rewrite (on_listeners _ _ _ _ _ _ _ _ Hon).
    destruct (jm_has ty (listeners st)) eqn:Hhas.
    + by apply jm_has_true.
    + apply elem_of_app. right. apply list_elem_of_here.
  - by apply on_inv in Hon as (_ & -> & _).
Qed.

(** X4: Subscribing under a new id and unsubscribing with the id returned
    leaves every event type with the subscriptions it had; the event type
    stays listed by [getEventTypes], also when it was not listed before. *)
Theorem on_then_off_restores st ty h o lid now :
  initialized st = true → wf st → lid ∉ jm_keys (bucket_of st ty) →
  ∃ st1 st2,
    on st ty (Fn h) (Some o) lid now = Returned st1 lid ∧
    off st1 ty lid = Returned st2 true ∧
    (∀ ty', bucket_of st2 ty' = bucket_of st ty') ∧
    eventQueue st2 = eventQueue st ∧
    getEventTypes st2
    = Returned st2 (if jm_has ty (listeners st) then jm_keys (listeners st)
                    else jm_keys (listeners st) ++ [ty]).
Proof.
  intros Hi Hwf Hnin.
  destruct (on_bucket st ty h o lid now Hi Hwf)
    as (st1 & Hon & Hi1 & Hwf1 & _ & Hb1 & Hother1).
  destruct (off_bucket st1 ty lid Hi1 Hwf1)
    as (st2 & Hoff & Hi2 & _ & Hl2 & Hq2 & Hb2 & Hother2).
  exists st1, st2. split_and!; [done| | | |].
  - rewrite Hoff. f_equal. apply jm_has_true. rewrite Hb1.
    eapply jm_get_Some_key. apply jm_get_set_eq.
  - intros ty'. destruct (decide (ty' = ty)) as [->|Hne].
    + rewrite Hb2, Hb1. by apply jm_delete_set_fresh.
    + by rewrite Hother2, Hother1.
  - rewrite Hq2. by apply on_inv in Hon as (_ & -> & _).
  - unfold getEventTypes. rewrite Hi2. simpl. rewrite Hl2.
    by rewrite (on_listeners _ _ _ _ _ _ _ _ Hon).
Qed.

(** X5: [removeAllListeners] with an event type drops the type and all its
    subscriptions: its count is 0, [getEventTypes] no longer lists it, an
    emission of the type calls nothing and returns 0; the other event types
    keep their subscriptions, and the history is as before. *)
Theorem removeAllListeners_of_type st ty :
  initialized st = true → wf st → ty ≠ "" →
  ∃ st', removeAllListeners st (Some ty) = Returned st' tt ∧
    listenerCount st' ty = Returned st' 0 ∧
    getEventTypes st'
    = Returned st' (filter (λ t, t ≠ ty) (jm_keys (listeners st))) ∧
    (∀ ty', ty' ≠ ty → bucket_of st' ty' = bucket_of st ty') ∧
    eventQueue st' = eventQueue st ∧
    ∀ code fuel d data now eid,
      ∃ st'', emit code fuel d st' ty data now eid = Returned st'' 0 ∧
              invoked st'' = invoked st'.
Proof.
  intros Hi Hwf Hne. destruct Hwf as (Hk & _).
  assert (Htruthy : truthy_string ty = true).
  { unfold truthy_string. by destruct (String.eqb_spec ty ""). }
  unfold removeAllListeners. rewrite Hi, Htruthy. simpl.
  eexists. split; [done|].
  assert (Hgone : jm_get ty (jm_delete ty (listeners st)) = None).
  { rewrite jm_get_delete by done. by rewrite decide_True. }
  split_and!.
  - unfold listenerCount. simpl. by rewrite Hi, Hgone.
  - unfold getEventTypes. simpl. rewrite Hi. simpl. by rewrite jm_keys_delete.
  - intros ty' Hne'. unfold bucket_of. simpl.
    rewrite jm_get_delete by done. by rewrite decide_False.
  - done.
  - intros code fuel d data now eid.
    assert (Hstep : ∀ f, ∃ st'',
              emit_step code f d
                (with_listeners (jm_delete ty (listeners st)) st) ty data now eid
              = Returned st'' 0 ∧
              invoked st'' = invoked st).
    { intros f. unfold emit_step. simpl. rewrite Hi. simpl.
      match goal with |- context [_addToQueue ?s ?e] =>
        destruct (addToQueue_registry s e) as (Hl & _ & Hinv & _) end.
      rewrite Hl. simpl. rewrite Hgone. eexists. split; [done|]. by rewrite Hinv. }
    destruct fuel; simpl; apply Hstep.
Qed.

(** X6: [removeAllListeners] without an event type, or with the empty string as
    event type, drops every event type: [getEventTypes] returns nothing,
    every count is 0, and an emission of any type calls nothing and
    returns 0. *)
Theorem removeAllListeners_without_type st ty :
  initialized st = true → ty = None ∨ ty = Some "" →
  ∃ st', removeAllListeners st ty = Returned st' tt ∧
    getEventTypes st' = Returned st' [] ∧
    (∀ ty', listenerCount st' ty' = Returned st' 0) ∧
    (∀ ty', bucket_of st' ty' = []) ∧
    eventQueue st' = eventQueue st ∧
    ∀ code fuel d ty' data now eid,
      ∃ st'', emit code fuel d st' ty' data now eid = Returned st'' 0 ∧
              invoked st'' = invoked st'.
Proof.
  intros Hi Hty. exists (with_listeners [] st). split_and!.
  - unfold removeAllListeners. rewrite Hi. by destruct Hty as [-> | ->].
  - unfold getEventTypes. simpl. by rewrite Hi.
  - intros ty'. unfold listenerCount. simpl. by rewrite Hi.
  - done.
  - done.
  - intros code fuel d ty' data now eid.
    assert (Hstep : ∀ f, ∃ st'',
              emit_step code f d (with_listeners [] st) ty' data now eid
              = Returned st'' 0 ∧
              invoked st'' = invoked st).
    { intros f. unfold emit_step. simpl. rewrite Hi. simpl.
      match goal with |- context [_addToQueue ?s ?e] =>
        destruct (addToQueue_registry s e) as (Hl & _ & Hinv & _) end.
      rewrite Hl. simpl. eexists. split; [done|]. by rewrite Hinv. }
    destruct fuel; simpl; apply Hstep.
Qed.

Lemma removable_elem code ev (b : list (string * Listener.t)) kv :
  wf_bucket b → kv ∈ b →
  kv.1 ∈ removable code ev (js_sort priority_compare (jm_values b)) ↔
  Listener.once kv.2 = true ∧ returns_on code ev kv.2.
Proof.
  intros [Hnd Hid] Hin. destruct kv as [k l]. simpl.
  rewrite Forall_forall in Hid.
  assert (Hsorted : ∀ l', l' ∈ js_sort priority_compare (jm_values b)
                          ↔ l' ∈ jm_values b).
  { intros l'. unfold priority_compare.
    by rewrite (js_sort_Permutation Listener.priority). }
  unfold removable. rewrite list_elem_of_fmap. split.
  - intros (l' & Hk & Hl'). apply list_elem_of_filter in Hl' as [HP Hl'].
    apply Hsorted, jm_values_elem in Hl' as [k' Hin'].
    pose proof (Hid _ Hin') as Hk'. simpl in Hk'.
    assert (k' = k) as -> by congruence.
    apply (jm_get_elem _ _ _ Hnd) in Hin, Hin'.
    assert (l' = l) as -> by congruence. done.
  - intros HP. exists l. split; [by apply (Hid _ Hin)|].
    apply list_elem_of_filter. split; [done|]. apply Hsorted.
    by apply (list_elem_of_fmap_2 snd) in Hin.
Qed.

(** X7: With handlers that make no call on the listener, an emission takes out
    of the event type exactly the one-shot subscriptions whose handler
    returned.  Every other subscription stays, in the same order: the ones
    that are not one-shot, and also a one-shot subscription whose handler
    threw.  The other event types are not touched. *)
Theorem emit_drops_returned_one_shots code fuel d st ty data now eid :
  quiet code → initialized st = true → wf st →
  let ev := {| Event.type := ty; Event.data := data; Event.timestamp := now;
               Event.id := eid |} in
  ∃ st' n, emit code fuel d st ty data now eid = Returned st' n ∧
    bucket_of st' ty
    = filter (λ kv, ¬ (Listener.once kv.2 = true ∧ returns_on code ev kv.2))
        (bucket_of st ty) ∧
    (∀ ty', ty' ≠ ty → bucket_of st' ty' = bucket_of st ty') ∧
    listeners st' = listeners st.
Proof.
  intros Hq Hi Hwf ev.
  destruct (emit_quiet code Hq fuel d st ty data now eid Hi)
    as (st' & He & Hl & _ & _ & _ & _ & Hat).
  eexists st', _. split; [exact He|]. split_and!; [| |done].
  - unfold bucket_of. rewrite Hl.
    destruct (jm_get ty (listeners st)) as [loc|] eqn:Hg; [|done].
    rewrite Hat, decide_True by done.
    pose proof (wf_bucket_at st loc Hwf) as Hb.
    rewrite foldl_jm_delete_filter by apply Hb.
    apply filter_iff_in. intros kv Hin.
    pose proof (removable_elem code ev (bucket_at st loc) kv Hb Hin) as Hr.
    unfold bucket_of. rewrite Hg. unfold ev in Hr. tauto.
  - intros ty' Hne. unfold bucket_of. rewrite Hl.
    destruct (jm_get ty' (listeners st)) as [loc'|] eqn:Hg'; [|done].
    rewrite Hat, decide_False; [done|].
    intros Hg. apply Hne. destruct Hwf as (_ & Hv & _).
    by eapply jm_get_values_inj.
Qed.

Lemma emit_call_event ev :
  {| Event.type := Event.type ev; Event.data := Event.data ev;
     Event.timestamp := Event.timestamp ev; Event.id := Event.id ev |} = ev.
Proof. by destruct ev. Qed.

(** X8: [clearQueue] empties the history and nothing else: [getRecentEvents]
    then returns no event whatever the limit, the subscriptions are as
    before, and the history of the emissions made afterwards, as long as
    they fit the capacity, consists of exactly their events. *)
Theorem clearQueue_restarts_history code fuel st evs :
  quiet code → initialized st = true → length evs ≤ maxQueueSize st →
  ∃ st1 st2,
    clearQueue st = Returned st1 tt ∧
    (∀ limit, getRecentEvents st1 limit = Returned st1 []) ∧
    listeners st1 = listeners st ∧ buckets st1 = buckets st ∧
    run code fuel st1 (emit_call <$> evs) = Returned st2 tt ∧
    eventQueue st2 = evs.
Proof.
  intros Hq Hi Hlen. unfold clearQueue. rewrite Hi. simpl.
  destruct (run_emits_window code Hq fuel (maxQueueSize st) evs
              (with_eventQueue [] st) [])
    as (st2 & Hrun & Hqueue); [done..|].
  eexists _, st2. split_and!; [done| |done|done|exact Hrun|].
  - intros limit. unfold getRecentEvents. simpl. rewrite Hi. simpl.
    unfold js_slice_from. simpl. by rewrite drop_nil.
  - rewrite Hqueue. simpl.
    replace (length evs - maxQueueSize st) with 0 by lia. apply drop_0.
Qed.

(** The third case on the new listener: [on] with a function and [null]
    options throws and leaves the event type with an empty inner map. *)
Lemma call_throws_iff_witness :
  run_call (emit Samples.observers 0) 0 Samples.ready
    (CallOn "a" (Fn 0) None "l0" 0)
  = Threw Samples.emptied OptionsNull.
Proof.
  apply (call_throws_iff Samples.observers 0 0 Samples.ready
           (CallOn "a" (Fn 0) None "l0" 0) Samples.emptied OptionsNull).
  right. right. split; [reflexivity|]. split; [reflexivity|].
  exists "a", 0, "l0", 0%Z. split_and!; reflexivity.
Defined.

Lemma off_unsubscribes_witness :
  let st := Samples.plain_and_once in
  ∃ st' removed,
    off st "a" "l1" = Returned st' removed ∧
    (removed = true ↔ "l1" ∈ jm_keys (bucket_of st "a")) ∧
    bucket_of st' "a" = filter (λ kv, kv.1 ≠ "l1") (bucket_of st "a") ∧
    ("l1" ∉ jm_keys (bucket_of st' "a")) ∧
    (∀ ty', ty' ≠ "a" → bucket_of st' ty' = bucket_of st ty') ∧
    listenerCount st' "a"
    = Returned st' (if removed then jm_size (bucket_of st "a") - 1
                    else jm_size (bucket_of st "a")) ∧
    eventQueue st' = eventQueue st ∧
    off st' "a" "l1" = Returned st' false.
Proof.
  apply (off_unsubscribes Samples.plain_and_once "a" "l1").
  - reflexivity.
  - apply (bool_decide_unpack _). vm_compute. exact I.
Defined.

Lemma on_subscribes_witness :
  let st := Samples.plain_and_once in
  let listener :=
    {| Listener.id := "l7"; Listener.handler := 1; Listener.once := false;
       Listener.priority := 3; Listener.createdAt := 20 |} in
  ∃ st', on st "a" (Fn 1) (Some (Samples.with_priority 3)) "l7" 20
         = Returned st' "l7" ∧
    jm_get "l7" (bucket_of st' "a") = Some listener ∧
    (∀ lid', lid' ≠ "l7" →
             jm_get lid' (bucket_of st' "a") = jm_get lid' (bucket_of st "a")) ∧
    jm_keys (bucket_of st' "a")
    = (if decide ("l7" ∈ jm_keys (bucket_of st "a"))
       then jm_keys (bucket_of st "a")
       else jm_keys (bucket_of st "a") ++ ["l7"]) ∧
    (∀ ty', ty' ≠ "a" → bucket_of st' ty' = bucket_of st ty') ∧
    listenerCount st' "a"
    = Returned st' (if bool_decide ("l7" ∈ jm_keys (bucket_of st "a"))
                    then jm_size (bucket_of st "a")
                    else S (jm_size (bucket_of st "a"))) ∧
    (∃ tys, getEventTypes st' = Returned st' tys ∧ "a" ∈ tys) ∧
    eventQueue st' = eventQueue st.
Proof.
  apply (on_subscribes Samples.plain_and_once "a" 1 (Samples.with_priority 3)
           "l7" 20).
  - reflexivity.
  - apply (bool_decide_unpack _). vm_compute. exact I.
Defined.

Lemma on_then_off_restores_witness :
  let st := Samples.plain_and_once in
  ∃ st1 st2,
    on st "b" (Fn 1) (Some no_options) "l7" 20 = Returned st1 "l7" ∧
    off st1 "b" "l7" = Returned st2 true ∧
    (∀ ty', bucket_of st2 ty' = bucket_of st ty') ∧
    eventQueue st2 = eventQueue st ∧
    getEventTypes st2
    = Returned st2 (if jm_has "b" (listeners st) then jm_keys (listeners st)
                    else jm_keys (listeners st) ++ ["b"]).
Proof.
  apply (on_then_off_restores Samples.plain_and_once "b" 1 no_options "l7" 20).
  - reflexivity.
  - apply (bool_decide_unpack _). vm_compute. exact I.
  - apply (bool_decide_unpack _). vm_compute. exact I.
Defined.

Lemma removeAllListeners_of_type_witness :
  let st := Samples.plain_and_once in
  ∃ st', removeAllListeners st (Some "a") = Returned st' tt ∧
    listenerCount st' "a" = Returned st' 0 ∧
    getEventTypes st'
    = Returned st' (filter (λ t, t ≠ "a") (jm_keys (listeners st))) ∧
    (∀ ty', ty' ≠ "a" → bucket_of st' ty' = bucket_of st ty') ∧
    eventQueue st' = eventQueue st ∧
    ∀ code fuel d data now eid,
      ∃ st'', emit code fuel d st' "a" data now eid = Returned st'' 0 ∧
              invoked st'' = invoked st'.
Proof.
  apply (removeAllListeners_of_type Samples.plain_and_once "a").
  - reflexivity.
  - apply (bool_decide_unpack _). vm_compute. exact I.
  - discriminate.
Defined.

Lemma removeAllListeners_without_type_witness :
  let st := Samples.plain_and_once in
  ∃ st', removeAllListeners st (Some "") = Returned st' tt ∧
    getEventTypes st' = Returned st' [] ∧
    (∀ ty', listenerCount st' ty' = Returned st' 0) ∧
    (∀ ty', bucket_of st' ty' = []) ∧
    eventQueue st' = eventQueue st ∧
    ∀ code fuel d ty' data now eid,
      ∃ st'', emit code fuel d st' ty' data now eid = Returned st'' 0 ∧
              invoked st'' = invoked st'.
Proof.
  apply (removeAllListeners_without_type Samples.plain_and_once (Some "")).
  - reflexivity.
  - right. reflexivity.
Defined.

Lemma emit_drops_returned_one_shots_witness :
  let st := Samples.plain_and_once in
  ∃ st' n, emit Samples.observers 0 0 st "a" ∅ 1 "e2" = Returned st' n ∧
    bucket_of st' "a"
    = filter (λ kv, ¬ (Listener.once kv.2 = true ∧
                       returns_on Samples.observers Samples.event_e2 kv.2))
        (bucket_of st "a") ∧
    (∀ ty', ty' ≠ "a" → bucket_of st' ty' = bucket_of st ty') ∧
    listeners st' = listeners st.
Proof.
  apply (emit_drops_returned_one_shots Samples.observers 0 0
           Samples.plain_and_once "a" ∅ 1 "e2").
  - exact observers_quiet.
  - reflexivity.
  - apply (bool_decide_unpack _). vm_compute. exact I.
Defined.

(** On the sample listener, whose history holds seven events: after
    [clearQueue] none of them is left, and two emissions later the history
    holds the two new events. *)
Lemma clearQueue_restarts_history_witness :
  let st := Samples.busy in
  let evs := [Samples.event_e1; Samples.event_e2] in
  length (eventQueue st) = 7 ∧
  ∃ st1 st2,
    clearQueue st = Returned st1 tt ∧
    (∀ limit, getRecentEvents st1 limit = Returned st1 []) ∧
    listeners st1 = listeners st ∧ buckets st1 = buckets st ∧
    run Samples.observers 0 st1 (emit_call <$> evs) = Returned st2 tt ∧
    eventQueue st2 = evs.
Proof.
  split; [reflexivity|].
  apply (clearQueue_restarts_history Samples.observers 0
           Samples.busy [Samples.event_e1; Samples.event_e2]).
  - exact observers_quiet.
  - reflexivity.
  - vm_compute. lia.
Defined.

End SubscriptionFacts.

(** ** The event types listed *)
Module EventTypeFacts.
Import IntegrationListener ListenerFacts SubscriptionFacts.

(** C8, as the code has it: in every state the listener can reach,
    [getEventTypes] returns, each once, exactly the event types that have an
    entry in the registry.  Every type with a live subscription is one of
    them.  [on] adds its type at the end when it is new.  [off] never takes
    a type out, and neither does the removal of one-shot subscriptions by
    [emit]: a type whose last subscription was removed either way stays
    listed, with a count of 0.  Only [removeAllListeners] takes types out:
    the one it is given, or all of them. *)
Theorem getEventTypes_lists_registry_entries code st :
  reachable code st →
  ∃ tys, getEventTypes st = Returned st tys ∧ NoDup tys ∧
    (∀ ty, ty ∈ tys ↔ is_Some (jm_get ty (listeners st))) ∧
    (∀ ty n, listenerCount st ty = Returned st n → 0 < n → ty ∈ tys) ∧
    (∀ ty h o lid now st',
       on st ty (Fn h) (Some o) lid now = Returned st' lid →
       getEventTypes st'
       = Returned st' (if bool_decide (ty ∈ tys) then tys else tys ++ [ty])) ∧
    (∀ ty lid st' r,
       off st ty lid = Returned st' r →
       getEventTypes st' = Returned st' tys ∧
       (jm_keys (bucket_of st ty) = [lid] →
        ty ∈ tys ∧ listenerCount st' ty = Returned st' 0)) ∧
    (quiet code → ∀ fuel d ty data now eid,
       let ev := {| Event.type := ty; Event.data := data;
                    Event.timestamp := now; Event.id := eid |} in
       ∃ st' n,
         emit code fuel d st ty data now eid = Returned st' n ∧
         getEventTypes st' = Returned st' tys ∧
         (Forall (λ l, Listener.once l = true ∧ returns_on code ev l)
            (jm_values (bucket_of st ty)) →
          listenerCount st' ty = Returned st' 0)) ∧
    (∀ ty st',
       ty ≠ "" → removeAllListeners st (Some ty) = Returned st' tt →
       getEventTypes st' = Returned st' (filter (λ t, t ≠ ty) tys) ∧
       listenerCount st' ty = Returned st' 0) ∧
    (∀ st', removeAllListeners st None = Returned st' tt →
            getEventTypes st' = Returned st' []).
Proof.
  intros Hr. pose proof (reachable_initialized code st Hr) as Hi.
  pose proof (reachable_wf code st Hr) as Hwf.
  pose proof Hwf as (Hk & _).
  exists (jm_keys (listeners st)). unfold getEventTypes at 1. rewrite Hi. simpl.
  split_and!; [done | done | | | | | | |].
  - intros ty. split.
    + intros Hin. destruct (jm_get ty (listeners st)) eqn:Hg; [by eexists|].
      by apply jm_get_None in Hg.
    + intros [loc Hg]. by eapply jm_get_Some_key.
  - intros ty n Hc Hn. unfold listenerCount in Hc. rewrite Hi in Hc. simpl in Hc.
    destruct (jm_get ty (listeners st)) as [loc|] eqn:Hg.
    + by eapply jm_get_Some_key.
    + injection Hc as <-. lia.
  - intros ty h o lid now st' Hon.
    pose proof (on_listeners _ _ _ _ _ _ _ _ Hon) as Hl.
    apply on_inv in Hon as (_ & _ & Hi' & _).
    unfold getEventTypes. rewrite Hi', Hi. simpl. rewrite Hl.
    destruct (jm_has ty (listeners st)) eqn:Hhas.
    + apply jm_has_true in Hhas. by rewrite bool_decide_eq_true_2.
    + rewrite bool_decide_eq_false_2; [done|].
      intros Hin. apply jm_has_true in Hin. congruence.
  - intros ty lid st' r Hoff.
    destruct (off_bucket st ty lid Hi Hwf)
      as (st2 & Hoff2 & Hi2 & _ & Hl2 & _ & Hb2 & _).
    rewrite Hoff2 in Hoff. injection Hoff as <- _.
    split; [unfold getEventTypes; by rewrite Hi2, Hl2|].
    intros Honly. split.
    + unfold bucket_of in Honly.
      destruct (jm_get ty (listeners st)) eqn:Hg; [|done].
      by eapply jm_get_Some_key.
    + rewrite listenerCount_bucket_of, Hb2 by done. do 2 f_equal.
      unfold jm_keys in Honly.
      destruct (bucket_of st ty) as [|[k v] [|]]; simplify_eq/=.
      by rewrite decide_True.
  - intros Hq fuel d ty data now eid.
    destruct (emit_quiet code Hq fuel d st ty data now eid Hi)
      as (st' & He & Hl & Hi' & _ & _ & _ & Hat).
    eexists st', _. split; [exact He|].
    split; [unfold getEventTypes; by rewrite Hi', Hl|].
    intros Hall. unfold listenerCount. rewrite Hi'. simpl. rewrite Hl.
    unfold bucket_of in Hall.
    destruct (jm_get ty (listeners st)) as [loc|] eqn:Hg; [|done].
    rewrite Hat, decide_True by done.
    pose proof (wf_bucket_at st loc Hwf) as Hb.
    rewrite foldl_jm_delete_filter by apply Hb.
    rewrite filter_none; [done|].
    apply Forall_forall. intros kv Hin Hnot. apply Hnot.
    unfold bucket_of. rewrite Hg.
    apply (removable_elem code _ (bucket_at st loc) kv Hb Hin).
    rewrite Forall_forall in Hall. apply Hall.
    by apply (list_elem_of_fmap_2 snd) in Hin.
  - intros ty st' Hne Hrm.
    assert (Htruthy : truthy_string ty = true).
    { unfold truthy_string. by destruct (String.eqb_spec ty ""). }
    unfold removeAllListeners in Hrm. rewrite Hi, Htruthy in Hrm.
    injection Hrm as <-. unfold getEventTypes, listenerCount. simpl.
    rewrite Hi. simpl. rewrite jm_keys_delete by done. split; [done|].
    rewrite jm_get_delete by done. by rewrite decide_True.
  - intros st' Hrm. unfold removeAllListeners in Hrm. rewrite Hi in Hrm.
    injection Hrm as <-. unfold getEventTypes. simpl. by rewrite Hi.
Qed.

(** On the sample listener, which lists [a] and [b]: [b] stays listed, with
    a count of 0, after [off] of its only subscription and after an
    emission that takes that one-shot subscription out; it goes with
    [removeAllListeners]; and [on] for a new type [d] adds [d]. *)
Lemma getEventTypes_lists_registry_entries_witness :
  let st := Samples.busy in
  getEventTypes st = Returned st ["a"; "b"] ∧
  listenerCount st "b" = Returned st 1 ∧
  (∃ st', off st "b" "l3" = Returned st' true ∧
     getEventTypes st' = Returned st' ["a"; "b"] ∧
     listenerCount st' "b" = Returned st' 0) ∧
  (∃ st' n, emit Samples.observers 0 0 st "b" ∅ 9 "e9" = Returned st' n ∧
     getEventTypes st' = Returned st' ["a"; "b"] ∧
     listenerCount st' "b" = Returned st' 0) ∧
  (∃ st', removeAllListeners st (Some "b") = Returned st' tt ∧
     getEventTypes st' = Returned st' ["a"] ∧
     listenerCount st' "b" = Returned st' 0) ∧
  (∃ st', on st "d" (Fn 0) (Some no_options) "l9" 9 = Returned st' "l9" ∧
     getEventTypes st' = Returned st' ["a"; "b"; "d"]).
Proof.
  intros st.
  destruct (getEventTypes_lists_registry_entries Samples.observers
              Samples.busy (busy_reachable Samples.observers))
    as (tys & Hget & _ & _ & _ & Hon & Hoff & Hemit & Hremove & _).
  assert (tys = ["a"; "b"]) as ->.
  { change (getEventTypes Samples.busy)
      with (Returned Samples.busy ["a"; "b"]) in Hget.
    by injection Hget as <-. }
  split; [reflexivity|]. split; [reflexivity|]. split_and!.
  - eexists. split; [reflexivity|].
    match goal with |- getEventTypes ?s = _ ∧ _ =>
      destruct (Hoff "b" "l3" s true eq_refl) as [Hlisted Hcount] end.
    split; [exact Hlisted|]. by apply Hcount.
  - destruct (Hemit observers_quiet 0 0 "b" ∅ 9%Z "e9")
      as (st' & n & He & Hlisted & Hcount).
    exists st', n. split; [exact He|]. split; [exact Hlisted|].
    apply Hcount. apply (bool_decide_unpack _). vm_compute. exact I.
  - eexists. split; [reflexivity|].
    match goal with |- getEventTypes ?s = _ ∧ _ =>
      destruct (Hremove "b" s) as [Hlisted Hcount]; [done|reflexivity|] end.
    split; [exact Hlisted | exact Hcount].
  - eexists. split; [reflexivity|].
    match goal with |- getEventTypes ?s = _ =>
      exact (Hon "d" 0 no_options "l9" 9%Z s eq_refl) end.
Defined.

End EventTypeFacts.

(** ** The registries of the machines adapter *)
Module MachineRegistryFacts.
Import MachinesAdapter MachineRuns.

Section Facts.
Context {World Failure : Type}.
Implicit Types (st : @State World Failure) (env : @Env World).
Implicit Types (c : @Call World Failure) (cs : list (@Call World Failure)).

Lemma truthy_string_true s : truthy_string s = true ↔ s ≠ "".
Proof. unfold truthy_string. destruct (String.eqb_spec s ""); split; done. Qed.

Lemma jm_values_set_present {V : Type} (m : list (string * V)) k v :
  k ∈ jm_keys m →
  ∃ i, jm_keys m !! i = Some k ∧ jm_values (jm_set k v m) = <[i := v]> (jm_values m).
Proof.
  unfold jm_keys, jm_values. induction m as [|[k' v'] m IH]; intros Hin.
  - by apply elem_of_nil in Hin.
  - cbn [jm_set]. destruct (decide (k = k')) as [->|Hne].
    + by exists 0.
    + rewrite fmap_cons in Hin. apply elem_of_cons in Hin as [Heq|Hin]; [done|].
      destruct (IH Hin) as (i & Hi & Hv). exists (S i).
      rewrite !fmap_cons. split; [done|]. simpl. by rewrite <- Hv.
Qed.

(** X9: [registerMachine] stores the machine built from the configuration under
    the id and returns it; [getMachine] then finds it.  Its two time stamps
    are the two readings of the clock, which need not agree.  A missing or
    empty type or initial state gives ['generic'] and ['idle'].  A machine
    that was there under the id is replaced as a whole and keeps its place
    in [getAllMachines], a new one goes to the end; the other machines and
    the adapters are as before.  Called without a configuration it throws
    and registers nothing. *)
Theorem registerMachine_then_getMachine st machineId config createdNow
    updatedNow :
  initialized st = true →
  let machine :=
    {| Machine.id := machineId;
       Machine.type := string_or (Config.type config) "generic";
       Machine.state := string_or (Config.initialState config) "idle";
       Machine.states := default ∅ (Config.states config);
       Machine.transitions := default ∅ (Config.transitions config);
       Machine.context := default ∅ (Config.context config);
       Machine.createdAt := createdNow;
       Machine.updatedAt := updatedNow |} in
  (∃ st', registerMachine st machineId (Some config) createdNow updatedNow
          = Returned st' machine ∧
    getMachine st' machineId = Returned st' (Some machine) ∧
    (Config.initialState config = None ∨ Config.initialState config = Some "" →
     Machine.state machine = "idle") ∧
    (∀ other, other ≠ machineId →
       getMachine st' other = Returned st' (jm_get other (machines st))) ∧
    (∃ all, getAllMachines st' = Returned st' all ∧
       if decide (machineId ∈ jm_keys (machines st))
       then ∃ i, jm_keys (machines st) !! i = Some machineId ∧
                 all = <[i := machine]> (jm_values (machines st))
       else all = jm_values (machines st) ++ [machine]) ∧
    adapters st' = adapters st) ∧
  registerMachine st machineId None createdNow updatedNow = Threw st TypeError.
Proof.
  intros Hi machine. split; [|unfold registerMachine; by rewrite Hi].
  eexists. split.
  { unfold registerMachine. rewrite Hi. reflexivity. }
  unfold getMachine, getAllMachines. simpl. split_and!.
  - by rewrite jm_get_set_eq.
  - by intros [-> | ->].
  - intros other Hne. by rewrite jm_get_set_ne.
  - eexists. split; [done|].
    destruct (decide (machineId ∈ jm_keys (machines st))) as [Hin|Hnin].
    + by apply jm_values_set_present.
    + rewrite jm_set_fresh by done. unfold jm_values.
      by rewrite !fmap_app.
  - done.
Qed.

(** What [transition] does to the registry: nothing, or it replaces the
    machine by the one moved to the destination. *)
Lemma transition_inv st machineId event payload now st' r :
  transition st machineId event payload now = Returned st' r →
  ∃ machine, jm_get machineId (machines st) = Some machine ∧
    adapters st' = adapters st ∧ initialized st' = initialized st ∧
    let row := default ∅ (Machine.transitions machine !! Machine.state machine) in
    (js_not (row !! event) = true ∧ st' = st) ∨
    (∃ destination machine',
       row !! event = Some destination ∧ truthy_string destination = true ∧
       machines st' = jm_set machineId machine' (machines st) ∧
       Machine.state machine' = destination ∧
       Machine.id machine' = Machine.id machine ∧
       Machine.type machine' = Machine.type machine ∧
       Machine.transitions machine' = Machine.transitions machine ∧
       Machine.createdAt machine' = Machine.createdAt machine ∧
       ∀ k, is_Some (Machine.context machine !! k) →
            is_Some (Machine.context machine' !! k)).
Proof.
  unfold transition. destruct (initialized st) eqn:Hi; simpl; [|done].
  destruct (jm_get machineId (machines st)) as [machine|]; [|done].
  intros Ht. exists machine. split; [done|].
  destruct (bool_decide _ && inherited (Machine.state machine)); [done|].
  destruct (bool_decide _ && inherited event); [done|].
  destruct (js_not _) eqn:Hnot.
  - injection Ht as <- <-. split_and!; [done..|]. by left.
  - injection Ht as <- <-. simpl. split_and!; [done..|]. right.
    unfold js_not in Hnot.
    destruct (default ∅ (Machine.transitions machine !! Machine.state machine)
                !! event) as [destination|] eqn:Hrow; [|done].
    eexists destination, _. split_and!; try done.
    + by apply negb_false_iff in Hnot.
    + simpl. intros k [v Hk]. destruct payload as [p|]; [|by eexists].
      rewrite lookup_union. rewrite Hk. destruct (p !! k); by eexists.
Qed.

Lemma discard_threw {A : Type} (o : @outcome World Failure A) st' e :
  discard o = Threw st' e ↔ o = Threw st' e.
Proof. destruct o; simpl; split; intros Heq; by simplify_eq. Qed.

Lemma discard_inherited_row {A : Type} (o : @outcome World Failure A) st' m :
  discard o = InheritedRow st' m ↔ o = InheritedRow st' m.
Proof. destruct o; simpl; split; intros Heq; by simplify_eq. Qed.

Lemma discard_inherited_destination {A : Type} (o : @outcome World Failure A)
    st' m :
  discard o = InheritedDestination st' m ↔ o = InheritedDestination st' m.
Proof. destruct o; simpl; split; intros Heq; by simplify_eq. Qed.

(** When [transition] throws, and when a lookup of it finds a member of
    [Object.prototype]. *)
Lemma transition_threw st machineId event payload now st' e :
  transition st machineId event payload now = Threw st' e ↔
  st' = st ∧
  (initialized st = false ∧ e = NotInitialized ∨
   initialized st = true ∧ jm_get machineId (machines st) = None ∧
   e = MachineNotFound machineId).
Proof.
  unfold transition. destruct (initialized st); simpl.
  - destruct (jm_get machineId (machines st)) as [machine|].
    + split; [|by intros (_ & [(? & _)|(_ & ? & _)])].
      destruct (_ && _); [done|]. destruct (_ && _); [done|].
      by destruct (js_not _).
    + split; [intros [= <- <-]; naive_solver|].
      by intros (-> & [(? & _)|(_ & _ & ->)]).
  - split; [intros [= <- <-]; naive_solver|].
    by intros (-> & [(_ & ->)|(? & _)]).
Qed.

Lemma transition_inherited_row st machineId event payload now st' member :
  transition st machineId event payload now = InheritedRow st' member ↔
  st' = st ∧ initialized st = true ∧
  ∃ machine, jm_get machineId (machines st) = Some machine ∧
    Machine.transitions machine !! Machine.state machine = None ∧
    inherited (Machine.state machine) = true ∧
    member = Machine.state machine.
Proof.
  unfold transition. destruct (initialized st); simpl;
    [|split; [done | by intros (_ & ? & _)]].
  destruct (jm_get machineId (machines st)) as [machine|];
    [|split; [done | by intros (_ & _ & ? & ? & _)]].
  destruct (Machine.transitions machine !! Machine.state machine)
    as [row|] eqn:Hrow; simpl.
  - split; [|intros (_ & _ & ? & [= <-] & ? & _); congruence].
    destruct (_ && _); [done|]. by destruct (js_not _).
  - destruct (inherited (Machine.state machine)) eqn:Hs; simpl.
    + split; [intros [= <- <-]; split_and!; [done..|]; by exists machine|].
      by intros (-> & _ & ? & [= <-] & _ & _ & ->).
    + split; [|intros (_ & _ & ? & [= <-] & _ & ? & _); congruence].
      destruct (_ && _); [done|]. by destruct (js_not _).
Qed.

Lemma transition_inherited_destination st machineId event payload now st'
    member :
  transition st machineId event payload now = InheritedDestination st' member ↔
  st' = st ∧ initialized st = true ∧
  ∃ machine, jm_get machineId (machines st) = Some machine ∧
    (Machine.transitions machine !! Machine.state machine = None →
     inherited (Machine.state machine) = false) ∧
    default ∅ (Machine.transitions machine !! Machine.state machine) !! event
      = None ∧
    inherited event = true ∧ member = event.
Proof.
  unfold transition. destruct (initialized st); simpl;
    [|split; [done | by intros (_ & ? & _)]].
  destruct (jm_get machineId (machines st)) as [machine|];
    [|split; [done | by intros (_ & _ & ? & ? & _)]].
  destruct (bool_decide _ && inherited (Machine.state machine)) eqn:Hs.
  { split; [done|]. intros (_ & _ & ? & [= <-] & Hrow & _).
    apply andb_true_iff in Hs as [Hnone Hs]. apply bool_decide_eq_true in Hnone.
    rewrite Hrow in Hs; done. }
  assert (Hrow : Machine.transitions machine !! Machine.state machine = None →
                 inherited (Machine.state machine) = false).
  { intros Hnone. rewrite Hnone in Hs. by rewrite bool_decide_eq_true_2 in Hs. }
  destruct (bool_decide _ && inherited event) eqn:He.
  - apply andb_true_iff in He as [Hnone He]. apply bool_decide_eq_true in Hnone.
    split; [intros [= <- <-]; split_and!; [done..|]; by exists machine|].
    by intros (-> & _ & ? & _ & _ & _ & _ & ->).
  - split; [by destruct (js_not _)|].
    intros (_ & _ & ? & [= <-] & _ & Hnone & Hin & _).
    rewrite Hnone, Hin in He. by rewrite bool_decide_eq_true_2 in He.
Qed.

(** X10: How a call on the adapter ends when it does not return.  It throws
    in five cases only: the adapter is not initialised, [registerMachine] is
    called without a configuration, [transition] names a machine that is not
    registered, or [registerAdapter] is called without an object or with one
    that lacks one of the three methods; the registries are then as they
    were before the call.  Apart from that, only [transition] on a
    registered machine fails to return a result the model describes: when
    the state of the machine has no row in the table and is the name of a
    member of [Object.prototype], which the code takes for the row and the
    model follows no further; and otherwise when the event has no entry in
    the row and is the name of such a member, which the code takes for the
    destination. *)
Theorem machine_call_throws_iff st c :
  (∀ st' e, run_call st c = Threw st' e ↔
     st' = st ∧
     (initialized st = false ∧ e = NotInitialized ∨
      initialized st = true ∧
      ((∃ machineId createdNow updatedNow,
          c = CallRegisterMachine machineId None createdNow updatedNow ∧
          e = TypeError) ∨
       (∃ machineId event payload now,
          c = CallTransition machineId event payload now ∧
          jm_get machineId (machines st) = None ∧
          e = MachineNotFound machineId) ∨
       (∃ adapterType, c = CallRegisterAdapter adapterType None ∧
          e = TypeError) ∨
       (∃ adapterType adapter,
          c = CallRegisterAdapter adapterType (Some adapter) ∧
          (obj_connect adapter = None ∨ obj_send adapter = None ∨
           obj_receive adapter = None) ∧
          e = InvalidAdapter)))) ∧
  (∀ st' member, run_call st c = InheritedRow st' member ↔
     st' = st ∧ initialized st = true ∧
     ∃ machineId event payload now machine,
       c = CallTransition machineId event payload now ∧
       jm_get machineId (machines st) = Some machine ∧
       Machine.transitions machine !! Machine.state machine = None ∧
       inherited (Machine.state machine) = true ∧
       member = Machine.state machine) ∧
  (∀ st' member, run_call st c = InheritedDestination st' member ↔
     st' = st ∧ initialized st = true ∧
     ∃ machineId event payload now machine,
       c = CallTransition machineId event payload now ∧
       jm_get machineId (machines st) = Some machine ∧
       (Machine.transitions machine !! Machine.state machine = None →
        inherited (Machine.state machine) = false) ∧
       default ∅ (Machine.transitions machine !! Machine.state machine)
         !! event = None ∧
       inherited event = true ∧ member = event).
Proof.
  destruct c as [machineId config createdNow updatedNow
                |machineId event payload now|adapterType adapter]; simpl.
  - unfold registerMachine.
    destruct (initialized st) eqn:Hi; simpl; [destruct config as [config|]|];
      simpl; (split_and!; intros st' x; (split; [intros Heq; simplify_eq|]));
      naive_solver.
  - split_and!; intros st' x.
    + rewrite (discard_threw (transition st machineId event payload now)).
      rewrite transition_threw. naive_solver.
    + rewrite (discard_inherited_row
                 (transition st machineId event payload now)).
      rewrite transition_inherited_row. naive_solver.
    + rewrite (discard_inherited_destination
                 (transition st machineId event payload now)).
      rewrite transition_inherited_destination. naive_solver.
  - destruct adapter as [adapter|]; simpl.
    + unfold registerAdapter.
      destruct (initialized st) eqn:Hi; simpl;
        [|split_and!; intros st' x; (split; [intros Heq; simplify_eq|]);
          naive_solver].
      destruct (obj_connect adapter) eqn:Hc, (obj_send adapter) eqn:Hs,
        (obj_receive adapter) eqn:Hr; simpl;
        (split_and!; intros st' x; (split; [intros Heq; simplify_eq|]));
        naive_solver.
    + unfold registerAdapter_undefined.
      destruct (initialized st) eqn:Hi; simpl;
        (split_and!; intros st' x; (split; [intros Heq; simplify_eq|]));
        naive_solver.
Qed.

Lemma events_for_cons machineId c cs :
  events_for machineId (c :: cs)
  = events_for machineId [c] ++ events_for machineId cs.
Proof.
  unfold events_for. rewrite !bind_cons. by rewrite app_nil_r.
Qed.

Lemma table_walk_app table events1 : ∀ s events2,
  table_walk table s (events1 ++ events2)
  = table_walk table (table_walk table s events1) events2.
Proof.
  induction events1 as [|event events1 IH]; intros s events2; [done|].
  simpl. destruct (default ∅ (table !! s) !! event) as [destination|]; [|done].
  by destruct (truthy_string destination).
Qed.

(** X11: Over any sequence of calls that return what the table says (none
    throws, and no lookup of [transition] finds a member of
    [Object.prototype] in place of an entry) and that do not register the
    machine again, a machine follows its table: its state is where the
    events sent to it lead from the state it had, whatever is done to other
    machines in between.  Its id, type, table and creation time stay, and no
    key is ever taken out of its context. *)
Theorem run_follows_table cs : ∀ st st' machineId machine,
  run st cs = Returned st' tt →
  jm_get machineId (machines st) = Some machine →
  Forall (λ c, ¬ registers machineId c) cs →
  ∃ machine', jm_get machineId (machines st') = Some machine' ∧
    Machine.state machine'
    = table_walk (Machine.transitions machine) (Machine.state machine)
        (events_for machineId cs) ∧
    Machine.id machine' = Machine.id machine ∧
    Machine.type machine' = Machine.type machine ∧
    Machine.transitions machine' = Machine.transitions machine ∧
    Machine.createdAt machine' = Machine.createdAt machine ∧
    ∀ k, is_Some (Machine.context machine !! k) →
         is_Some (Machine.context machine' !! k).
Proof.
  induction cs as [|c cs IH]; intros st st' machineId machine Hrun Hm Hcs.
  - injection Hrun as <-. exists machine. by split_and!.
  - apply Forall_cons in Hcs as [Hc Hcs]. simpl in Hrun.
    destruct (run_call st c) as [st1 []| | |] eqn:Hcall; [|done..].
    assert (Hstep : ∃ machine1,
              jm_get machineId (machines st1) = Some machine1 ∧
              Machine.state machine1
              = table_walk (Machine.transitions machine) (Machine.state machine)
                  (events_for machineId [c]) ∧
              Machine.id machine1 = Machine.id machine ∧
              Machine.type machine1 = Machine.type machine ∧
              Machine.transitions machine1 = Machine.transitions machine ∧
              Machine.createdAt machine1 = Machine.createdAt machine ∧
              ∀ k, is_Some (Machine.context machine !! k) →
                   is_Some (Machine.context machine1 !! k)).
    { destruct c as [machineId' config createdNow updatedNow
                     |machineId' event payload now|adapterType adapter];
        simpl in Hcall, Hc.
      - unfold registerMachine in Hcall.
        destruct (initialized st); simpl in Hcall; [|done].
        destruct config as [config|]; [|done].
        injection Hcall as <-. exists machine. simpl.
        rewrite jm_get_set_ne by done. by split_and!.
      - destruct (transition st machineId' event payload now)
          as [st2 r| | |] eqn:Ht; simpl in Hcall; [|done..].
        injection Hcall as ->.
        apply transition_inv in Ht as (m & Hm' & _ & _ & Hcases).
        unfold events_for. rewrite bind_cons. simpl.
        destruct (decide (machineId' = machineId)) as [->|Hne].
        + rewrite Hm in Hm'. injection Hm' as <-. simpl.
          destruct Hcases as [[Hnot ->]|(destination & machine' & Hrow & Htruthy
                                         & Hms & Hstate & Hid & Hty & Htab & Hcr & Hctx)].
          * exists machine. split_and!; try done.
            unfold js_not in Hnot.
            destruct (default ∅ _ !! event) as [destination|]; [|done].
            apply negb_true_iff in Hnot. by rewrite Hnot.
          * exists machine'. rewrite Hms, jm_get_set_eq, Hrow, Htruthy.
            by split_and!.
        + exists machine. split_and!; try done.
          destruct Hcases as [[_ ->]|(destination & machine' & _ & _ & Hms & _)];
            [done|].
          rewrite Hms. by rewrite jm_get_set_ne.
      - destruct adapter as [adapter|].
        + unfold registerAdapter in Hcall.
          destruct (initialized st); simpl in Hcall; [|done].
          destruct (obj_connect adapter), (obj_send adapter),
            (obj_receive adapter); try done.
          injection Hcall as <-. exists machine. by split_and!.
        + unfold registerAdapter_undefined in Hcall.
          by destruct (initialized st). }
    destruct Hstep as (machine1 & Hm1 & Hs1 & Hid1 & Hty1 & Htab1 & Hcr1 & Hctx1).
    destruct (IH st1 st' machineId machine1 Hrun Hm1 Hcs)
      as (machine' & Hm' & Hs' & Hid' & Hty' & Htab' & Hcr' & Hctx').
    exists machine'. split_and!; try congruence.
    + rewrite events_for_cons, table_walk_app, <- Hs1, <- Htab1. done.
    + intros k Hk. by apply Hctx', Hctx1.
Qed.

Lemma jm_keys_set_prefix {V : Type} (m : list (string * V)) k v :
  jm_keys m `prefix_of` jm_keys (jm_set k v m).
Proof.
  rewrite jm_keys_set. case_decide; [done|]. by apply prefix_app_r.
Qed.

(** What one call does to the registries. *)
Lemma run_call_registries st c :
  let st' := final (run_call st c) in
  jm_keys (machines st) `prefix_of` jm_keys (machines st') ∧
  jm_keys (adapters st) `prefix_of` jm_keys (adapters st') ∧
  initialized st' = initialized st ∧
  (NoDup (jm_keys (machines st)) ∧
   Forall (λ kv, kv.1 = Machine.id kv.2) (machines st) →
   NoDup (jm_keys (machines st')) ∧
   Forall (λ kv, kv.1 = Machine.id kv.2) (machines st')).
Proof.
  destruct c as [machineId config createdNow updatedNow
                |machineId event payload now|adapterType adapter]; simpl.
  - unfold registerMachine. destruct (initialized st) eqn:Hi; simpl; [|done].
    destruct config as [config|]; simpl; [|done].
    split_and!; [apply jm_keys_set_prefix|done|done|].
    intros [Hnd Hid]. split; [by apply jm_keys_set_NoDup|].
    by apply jm_set_Forall.
  - destruct (transition st machineId event payload now)
      as [st1 r|st1 e|st1 member|st1 member] eqn:Ht; simpl.
    + apply transition_inv in Ht as (m & Hm & Ha & Hi & Hcases).
      rewrite Ha, Hi.
      destruct Hcases as [[_ ->]|(destination & machine' & _ & _ & Hms & _ & Hid'
                                  & _)]; [done|].
      rewrite Hms. split_and!; [apply jm_keys_set_prefix|done|done|].
      intros [Hnd Hid]. split; [by apply jm_keys_set_NoDup|].
      apply jm_set_Forall; [done|]. simpl. rewrite Hid'.
      clear -Hm Hid. induction (machines st) as [|[k v] ms IH]; [done|].
      apply Forall_cons in Hid as [Hk Hid]. simpl in Hm, Hk.
      destruct (decide (machineId = k)) as [->|Hne].
      * by injection Hm as ->.
      * by apply IH.
    + by apply transition_threw in Ht as [-> _].
    + by apply transition_inherited_destination in Ht as [-> _].
    + by apply transition_inherited_row in Ht as [-> _].
  - destruct adapter as [adapter|].
    + unfold registerAdapter. destruct (initialized st) eqn:Hi; simpl; [|done].
      destruct (obj_connect adapter), (obj_send adapter),
        (obj_receive adapter); simpl; try done.
      split_and!; [done|apply jm_keys_set_prefix|done|done].
    + unfold registerAdapter_undefined. by destruct (initialized st) eqn:Hi.
Qed.

Lemma run_initialized cs : ∀ st, initialized (final (run st cs)) = initialized st.
Proof.
  induction cs as [|c cs IH]; intros st; simpl; [done|].
  destruct (run_call_registries st c) as (_ & _ & Hi & _).
  destruct (run_call st c) as [st1 []|st1 e|st1 m|st1 m]; simpl in *;
    [|done..].
  by rewrite IH.
Qed.

(** X12: No call ever removes or moves a machine or an adapter: over any
    sequence of calls, whether it ends by returning or by throwing,
    [getAllMachines] and [getAllAdapters] only grow at the end.  When every
    machine is listed once and under its own id before, so it is after. *)
Theorem registries_only_grow cs : ∀ st,
  let st' := final (run st cs) in
  jm_keys (machines st) `prefix_of` jm_keys (machines st') ∧
  jm_keys (adapters st) `prefix_of` jm_keys (adapters st') ∧
  initialized st' = initialized st ∧
  (NoDup (jm_keys (machines st)) ∧
   Forall (λ kv, kv.1 = Machine.id kv.2) (machines st) →
   NoDup (jm_keys (machines st')) ∧
   Forall (λ kv, kv.1 = Machine.id kv.2) (machines st')).
Proof.
  induction cs as [|c cs IH]; intros st; simpl; [done|].
  pose proof (run_call_registries st c) as Hstep.
  destruct (run_call st c) as [st1 []|st1 e|st1 m|st1 m]; simpl in *;
    [|done..].
  destruct Hstep as (Hm1 & Ha1 & Hi1 & Hwf1).
  destruct (IH st1) as (Hm & Ha & Hi & Hwf).
  split_and!.
  - by etrans.
  - by etrans.
  - congruence.
  - intros H0. by apply Hwf, Hwf1.
Qed.

(** X13: [registerAdapter] accepts an object exactly when it has the three
    methods.  [getAdapter] then finds the adapter under the type; an adapter
    that was there under the type is replaced and keeps its place in
    [getAllAdapters], a new type goes to the end; the other adapters and the
    machines are as before.  An object that lacks a method is refused and
    nothing changes. *)
Theorem registerAdapter_then_getAdapter st adapterType adapter :
  initialized st = true →
  (∀ fc fs fr, obj_connect adapter = Some fc → obj_send adapter = Some fs →
               obj_receive adapter = Some fr →
     ∃ st', registerAdapter st adapterType adapter = Returned st' tt ∧
       getAdapter st' adapterType
       = Returned st'
           (Some {| adapter_connect := fc; adapter_send := fs;
                    adapter_receive := fr |}) ∧
       (∀ other, other ≠ adapterType →
          getAdapter st' other = Returned st' (jm_get other (adapters st))) ∧
       getAllAdapters st'
       = Returned st'
           (if decide (adapterType ∈ jm_keys (adapters st))
            then jm_keys (adapters st)
            else jm_keys (adapters st) ++ [adapterType]) ∧
       machines st' = machines st) ∧
  (obj_connect adapter = None ∨ obj_send adapter = None ∨
   obj_receive adapter = None →
   registerAdapter st adapterType adapter = Threw st InvalidAdapter).
Proof.
  intros Hi. split.
  - intros fc fs fr Hc Hs Hr. unfold registerAdapter. rewrite Hi, Hc, Hs, Hr. simpl.
    eexists. split; [done|].
    unfold getAdapter, getAllAdapters. simpl. rewrite ?Hi. simpl. split_and!.
    + by rewrite jm_get_set_eq.
    + intros other Hne. by rewrite jm_get_set_ne.
    + by rewrite jm_keys_set.
    + done.
  - intros Hm. unfold registerAdapter. rewrite Hi. simpl.
    destruct Hm as [-> | [-> | ->]]; [done| |].
    + by destruct (obj_connect adapter).
    + by destruct (obj_connect adapter), (obj_send adapter).
Qed.

(** X14: [init] on a new adapter registers the two default adapters, ['http']
    first and ['websocket'] second, and no machine.  On an adapter that is
    initialised it changes nothing, so it never takes back a machine or an
    adapter registered since. *)
Theorem init_registers_default_adapters httpAdapter wsAdapter hc hs hr wc ws wr :
  obj_connect httpAdapter = Some hc → obj_send httpAdapter = Some hs →
  obj_receive httpAdapter = Some hr →
  obj_connect wsAdapter = Some wc → obj_send wsAdapter = Some ws →
  obj_receive wsAdapter = Some wr →
  ∃ st, init httpAdapter wsAdapter constructor = Returned st tt ∧
    initialized st = true ∧
    getAllAdapters st = Returned st ["http"; "websocket"] ∧
    getAdapter st "http"
    = Returned st (Some {| adapter_connect := hc; adapter_send := hs;
                           adapter_receive := hr |}) ∧
    getAdapter st "websocket"
    = Returned st (Some {| adapter_connect := wc; adapter_send := ws;
                           adapter_receive := wr |}) ∧
    getAllMachines st = Returned st [] ∧
    ∀ cs, let st' := final (run st cs) in
          init httpAdapter wsAdapter st' = Returned st' tt.
Proof.
  intros Hhc Hhs Hhr Hwc Hws Hwr.
  set (st0 := {| machines := [];
                 adapters :=
                   [("http", {| adapter_connect := hc; adapter_send := hs;
                                adapter_receive := hr |});
                    ("websocket", {| adapter_connect := wc; adapter_send := ws;
                                     adapter_receive := wr |})];
                 initialized := true |} : @State World Failure).
  exists st0. split_and!; [|done..|].
  - unfold init, _registerDefaultAdapters, registerAdapter. simpl.
    rewrite Hhc, Hhs, Hhr. simpl. by rewrite Hwc, Hws, Hwr.
  - intros cs st'.
    pose proof (run_initialized cs st0) as Hi.
    fold st' in Hi. unfold init. by rewrite Hi.
Qed.

(** X15: With a registered adapter whose operation succeeds, [connect] returns
    [true], and [send] and [receive] return the adapter's answer as it is;
    the operation is invoked once, and the world is what the adapter left. *)
Theorem adapter_calls_return_the_answer st env adapterType adapter config data :
  initialized st = true →
  jm_get adapterType (adapters st) = Some adapter →
  (∀ w, adapter_connect adapter config (world env) = (w, Fulfilled tt) →
     connect st env adapterType config
     = ({| world := w;
           performed := performed env ++ [(adapterType, OpConnect config)] |},
        inl true)) ∧
  (∀ w answer, adapter_send adapter data (world env) = (w, Fulfilled answer) →
     send st env adapterType data
     = ({| world := w;
           performed := performed env ++ [(adapterType, OpSend data)] |},
        inl answer)) ∧
  (∀ w answer, adapter_receive adapter (world env) = (w, Fulfilled answer) →
     receive st env adapterType
     = ({| world := w;
           performed := performed env ++ [(adapterType, OpReceive)] |},
        inl answer)).
Proof.
  intros Hi Hsome. unfold connect, send, receive, invoke.
  rewrite Hi, Hsome. simpl.
  split_and!; intros w; [|intros answer..]; intros Hop; by rewrite Hop.
Qed.

End Facts.

Lemma registerMachine_then_getMachine_witness :
  let st := Samples.one_machine in
  let machine :=
    {| Machine.id := "door"; Machine.type := "generic";
       Machine.state := "idle"; Machine.states := ∅;
       Machine.transitions := {[ "idle" := {[ "open" := "opened" ]} ]};
       Machine.context := ∅; Machine.createdAt := 6;
       Machine.updatedAt := 7 |} in
  (∃ st', registerMachine st "door" (Some Scenarios.door_config) 6 7
          = Returned st' machine ∧
    getMachine st' "door" = Returned st' (Some machine) ∧
    (Config.initialState Scenarios.door_config = None ∨
     Config.initialState Scenarios.door_config = Some "" →
     Machine.state machine = "idle") ∧
    (∀ other, other ≠ "door" →
       getMachine st' other = Returned st' (jm_get other (machines st))) ∧
    (∃ all, getAllMachines st' = Returned st' all ∧
       if decide ("door" ∈ jm_keys (machines st))
       then ∃ i, jm_keys (machines st) !! i = Some "door" ∧
                 all = <[i := machine]> (jm_values (machines st))
       else all = jm_values (machines st) ++ [machine]) ∧
    adapters st' = adapters st) ∧
  registerMachine st "door" None 6 7 = Threw st TypeError.
Proof.
  apply (registerMachine_then_getMachine Samples.one_machine "door"
           Scenarios.door_config 6 7).
  reflexivity.
Defined.

(** On the sample adapter: [registerMachine] without a configuration
    throws, and the event [toString], for which the row of [idle] has no
    entry, is taken for a destination. *)
Lemma machine_call_throws_iff_witness :
  run_call Samples.one_machine (CallRegisterMachine "door" None 6 7)
  = Threw Samples.one_machine TypeError ∧
  run_call Samples.one_machine (CallTransition "flow" "toString" (Some ∅) 9)
  = InheritedDestination Samples.one_machine "toString".
Proof.
  split.
  - apply (machine_call_throws_iff Samples.one_machine
             (CallRegisterMachine "door" None 6 7)).
    split; [reflexivity|]. right. split; [reflexivity|]. left.
    by exists "door", 6%Z, 7%Z.
  - apply (machine_call_throws_iff Samples.one_machine
             (CallTransition "flow" "toString" (Some ∅) 9)).
    split; [reflexivity|]. split; [reflexivity|].
    exists "flow", "toString", (Some ∅), 9%Z, Samples.flow.
    split_and!; reflexivity.
Defined.

Lemma run_follows_table_witness :
  let st := Samples.one_machine in
  let st' := final (run st Scenarios.errands) in
  ∃ machine', jm_get "flow" (machines st') = Some machine' ∧
    Machine.state machine'
    = table_walk (Machine.transitions Samples.flow) "idle"
        ["start"; "go"; "complete"] ∧
    Machine.id machine' = "flow" ∧
    Machine.type machine' = "generic" ∧
    Machine.transitions machine' = Machine.transitions Samples.flow ∧
    Machine.createdAt machine' = 1%Z ∧
    ∀ k, is_Some (Machine.context Samples.flow !! k) →
         is_Some (Machine.context machine' !! k).
Proof.
  apply (run_follows_table Scenarios.errands Samples.one_machine
           (final (run Samples.one_machine Scenarios.errands)) "flow"
           Samples.flow).
  - vm_compute. reflexivity.
  - reflexivity.
  - apply (bool_decide_unpack _). vm_compute. exact I.
Defined.

Lemma registerAdapter_then_getAdapter_witness :
  let st := Samples.one_machine in
  (∀ fc fs fr,
     obj_connect Scenarios.online_object = Some fc →
     obj_send Scenarios.online_object = Some fs →
     obj_receive Scenarios.online_object = Some fr →
     ∃ st', registerAdapter st "wire" Scenarios.online_object = Returned st' tt ∧
       getAdapter st' "wire"
       = Returned st'
           (Some {| adapter_connect := fc; adapter_send := fs;
                    adapter_receive := fr |}) ∧
       (∀ other, other ≠ "wire" →
          getAdapter st' other = Returned st' (jm_get other (adapters st))) ∧
       getAllAdapters st'
       = Returned st'
           (if decide ("wire" ∈ jm_keys (adapters st))
            then jm_keys (adapters st)
            else jm_keys (adapters st) ++ ["wire"]) ∧
       machines st' = machines st) ∧
  (obj_connect Scenarios.online_object = None ∨
   obj_send Scenarios.online_object = None ∨
   obj_receive Scenarios.online_object = None →
   registerAdapter st "wire" Scenarios.online_object = Threw st InvalidAdapter).
Proof.
  apply (registerAdapter_then_getAdapter Samples.one_machine "wire"
           Scenarios.online_object).
  reflexivity.
Defined.

Lemma init_registers_default_adapters_witness :
  let http := Scenarios.online_object in
  let ws := Scenarios.online_object in
  ∃ st, init http ws constructor = Returned st tt ∧
    initialized st = true ∧
    getAllAdapters st = Returned st ["http"; "websocket"] ∧
    getAdapter st "http" = Returned st (Some Scenarios.online) ∧
    getAdapter st "websocket" = Returned st (Some Scenarios.online) ∧
    getAllMachines st = Returned st [] ∧
    ∀ cs, let st' := final (run st cs) in
          init http ws st' = Returned st' tt.
Proof.
  apply (init_registers_default_adapters Scenarios.online_object
           Scenarios.online_object
           (adapter_connect Scenarios.online) (adapter_send Scenarios.online)
           (adapter_receive Scenarios.online)
           (adapter_connect Scenarios.online) (adapter_send Scenarios.online)
           (adapter_receive Scenarios.online)); reflexivity.
Defined.

Lemma adapter_calls_return_the_answer_witness :
  let st := Scenarios.two_adapters in
  let env := Samples.quiet_world in
  let data : Obj := {[ "n" := VNum 1 ]} in
  (∀ w, adapter_connect Scenarios.online ∅ (world env) = (w, Fulfilled tt) →
     connect st env "wire" ∅
     = ({| world := w;
           performed := performed env ++ [("wire", OpConnect ∅)] |},
        inl true)) ∧
  (∀ w answer,
     adapter_send Scenarios.online data (world env) = (w, Fulfilled answer) →
     send st env "wire" data
     = ({| world := w;
           performed := performed env ++ [("wire", OpSend data)] |},
        inl answer)) ∧
  (∀ w answer,
     adapter_receive Scenarios.online (world env) = (w, Fulfilled answer) →
     receive st env "wire"
     = ({| world := w;
           performed := performed env ++ [("wire", OpReceive)] |},
        inl answer)).
Proof.
  apply (adapter_calls_return_the_answer Scenarios.two_adapters
           Samples.quiet_world "wire" Scenarios.online ∅ {[ "n" := VNum 1 ]}).
  - reflexivity.
  - reflexivity.
Defined.

(** A machine whose table sends [idle] to the state [toString] on [print]
    and has no row for that state: the transition to [toString] is an
    entry of the table; from there every event meets the member [toString]
    that the table inherits, taken for the row.  A call that registers a
    machine without a configuration throws. *)
Example inherited_row :
  let config :=
    {| Config.type := None; Config.initialState := None;
       Config.states := None;
       Config.transitions := Some {[ "idle" := {[ "print" := "toString" ]} ]};
       Config.context := None |} in
  let st0 : @State (list string) string :=
    {| machines := []; adapters := []; initialized := true |} in
  ∃ st1 m st2 r2,
    registerMachine st0 "printer" (Some config) 1 1 = Returned st1 m ∧
    transition st1 "printer" "print" (Some ∅) 2 = Returned st2 r2 ∧
    TransitionResult.to r2 = "toString" ∧
    transition st2 "printer" "print" (Some ∅) 3 = InheritedRow st2 "toString" ∧
    run st2 [CallTransition "printer" "print" (Some ∅) 3;
             CallRegisterMachine "door" None 4 5]
    = InheritedRow st2 "toString" ∧
    run st2 [CallRegisterMachine "door" None 4 5;
             CallTransition "printer" "print" (Some ∅) 6]
    = Threw st2 TypeError.
Proof. do 4 eexists. split_and!; vm_compute; reflexivity. Qed.

(** The adapter that works, called through the registry: the three calls
    succeed and the requests reach it in order. *)
Example wire_calls :
  let st := Scenarios.two_adapters in
  let data : Obj := {[ "n" := VNum 1 ]} in
  let '(env1, r1) := connect st Samples.quiet_world "wire" ∅ in
  let '(env2, r2) := send st env1 "wire" data in
  let '(env3, r3) := receive st env2 "wire" in
  r1 = inl true ∧ r2 = inl (Some data) ∧ r3 = inl None ∧
  world env3 = ["connect"; "send"; "receive"] ∧
  performed env3
  = [("wire", OpConnect ∅); ("wire", OpSend data); ("wire", OpReceive)].
Proof. by vm_compute. Qed.

End MachineRegistryFacts.

(** ** The token service *)
Module TokenFacts.
Import TokenService.

Lemma with_tokens_id st : with_tokens (tokens st) st = st.
Proof. by destruct st. Qed.

Lemma jm_delete_app_fresh {V : Type} (m1 m2 : list (string * V)) k v :
  k ∉ jm_keys m1 → jm_delete k (m1 ++ (k, v) :: m2) = m1 ++ m2.
Proof.
  unfold jm_keys. induction m1 as [|[k' v'] m1 IH]; intros Hnin.
  - cbn [app jm_delete]. by rewrite decide_True.
  - rewrite fmap_cons in Hnin. apply not_elem_of_cons in Hnin as [Hne Hnin].
    rewrite <- !app_comm_cons. cbn [jm_delete].
    rewrite decide_False by done. by rewrite IH.
Qed.

Lemma map_of_entries_NoDup {V : Type} (entries : list (string * V)) :
  NoDup (jm_keys (map_of_entries entries)).
Proof.
  unfold map_of_entries.
  assert (H : ∀ m : list (string * V), NoDup (jm_keys m) →
            NoDup (jm_keys (foldl (λ m kv, jm_set kv.1 kv.2 m) m entries))).
  { induction entries as [|kv entries IH]; intros m Hm; simpl; [done|].
    apply IH. by apply jm_keys_set_NoDup. }
  apply H. apply NoDup_nil_2.
Qed.

Lemma validate_present st tokenId token now :
  initialized st = true → jm_get tokenId (tokens st) = Some token →
  validate st tokenId now
  = if (Token.expiresAt token <? now)%Z
    then Returned (with_tokens (jm_delete tokenId (tokens st)) st) false
    else Returned st true.
Proof.
  intros Hi Hg. unfold validate, revoke. rewrite Hi, Hg. simpl.
  by destruct (Token.expiresAt token <? now)%Z.
Qed.

Lemma validate_absent st tokenId now :
  initialized st = true → jm_get tokenId (tokens st) = None →
  validate st tokenId now = Returned st false ∧
  get st tokenId now = Returned st None.
Proof.
  intros Hi Hg. unfold get, validate. by rewrite Hi, Hg.
Qed.

(** X16: When the token value can be computed and the payload is an object,
    [generate] stores the token under the generated id and returns it.  The
    token expires when the payload says, and one hour after the clock's
    reading when the payload gives no expiry or gives 0.  Until the clock
    passes the expiry, [validate] accepts the id and [get] returns the
    token, both without changing anything; the tokens under other ids are
    as before.  When the encoding of the value throws, or the payload is
    [null], [generate] throws and no token is stored. *)
Theorem generate_then_validate st type payload tokenId tokenValue createdNow
    expiryNow :
  initialized st = true →
  (∃ st' token,
     generate st type (Some payload) tokenId (Some tokenValue) createdNow
       expiryNow
     = Returned st' token ∧
     Token.id token = tokenId ∧ Token.type token = type ∧
     Token.value token = tokenValue ∧
     Token.createdAt token = createdNow ∧
     Token.expiresAt token
     = number_or (Payload.expiresAt payload) (expiryNow + 3600000)%Z ∧
     (Payload.expiresAt payload = None ∨ Payload.expiresAt payload = Some 0%Z →
      Token.expiresAt token = (expiryNow + 3600000)%Z) ∧
     (∀ now, (now ≤ Token.expiresAt token)%Z →
        validate st' tokenId now = Returned st' true ∧
        get st' tokenId now = Returned st' (Some token)) ∧
     (∀ other, other ≠ tokenId →
        jm_get other (tokens st') = jm_get other (tokens st))) ∧
  (∀ payload', generate st type payload' tokenId None createdNow expiryNow
               = Threw st InvalidCharacter) ∧
  generate st type None tokenId (Some tokenValue) createdNow expiryNow
  = Threw st PayloadNull.
Proof.
  intros Hi. unfold generate. rewrite Hi. simpl. split; [|done].
  eexists _, _. split; [done|]. simpl. split_and!; try done.
  - by intros [-> | ->].
  - intros now Hnow.
    match goal with |- validate ?s _ _ = _ ∧ _ =>
      assert (Hv : validate s tokenId now = Returned s true) end.
    { erewrite validate_present; [|done|simpl; apply jm_get_set_eq].
      simpl. by rewrite (proj2 (Z.ltb_ge _ _)). }
    split; [done|]. unfold get. simpl. rewrite Hi. simpl.
    rewrite jm_get_set_eq. by rewrite Hv.
  - intros other Hne. by apply jm_get_set_ne.
Qed.

(** X17: [validate] on a token whose expiry the clock has passed returns [false]
    and deletes the token; [get] does the same and returns nothing.  From
    then on the id is refused whatever the clock says, an earlier time
    included.  The other tokens stay. *)
Theorem expired_token_is_revoked st tokenId token now :
  initialized st = true → NoDup (jm_keys (tokens st)) →
  jm_get tokenId (tokens st) = Some token →
  (Token.expiresAt token < now)%Z →
  ∃ st', validate st tokenId now = Returned st' false ∧
    get st tokenId now = Returned st' None ∧
    tokens st' = filter (λ kv, kv.1 ≠ tokenId) (tokens st) ∧
    (∀ now', validate st' tokenId now' = Returned st' false ∧
             get st' tokenId now' = Returned st' None) ∧
    (∀ other, other ≠ tokenId →
       jm_get other (tokens st') = jm_get other (tokens st)).
Proof.
  intros Hi Hnd Hg Hlt.
  pose proof (validate_present st tokenId token now Hi Hg) as Hv.
  rewrite (proj2 (Z.ltb_lt _ _)) in Hv by done.
  eexists. split; [exact Hv|]. split_and!.
  - unfold get. by rewrite Hi, Hg, Hv.
  - simpl. by apply jm_delete_filter.
  - intros now'. apply validate_absent; [done|]. simpl.
    rewrite jm_get_delete by done. by rewrite decide_True.
  - intros other Hne. simpl. rewrite jm_get_delete by done.
    by rewrite decide_False.
Qed.

(** X18: [get] hands out a token only while it is valid: when it returns one, it
    is the token stored under the id, the clock has not passed its expiry,
    and nothing has changed. *)
Theorem get_returns_only_valid_tokens st tokenId now st' token :
  get st tokenId now = Returned st' (Some token) →
  st' = st ∧ jm_get tokenId (tokens st) = Some token ∧
  (now ≤ Token.expiresAt token)%Z ∧
  validate st tokenId now = Returned st true.
Proof.
  unfold get. destruct (initialized st) eqn:Hi; simpl; [|done].
  destruct (jm_get tokenId (tokens st)) as [tok|] eqn:Hg; [|done].
  rewrite (validate_present st tokenId tok now Hi Hg).
  destruct (Token.expiresAt tok <? now)%Z eqn:Hlt; [done|].
  intros [= <- <-]. apply Z.ltb_ge in Hlt. done.
Qed.

(** X19: [revoke] deletes the token and reports whether it was there.
    Afterwards [validate] refuses the id at any time and a second [revoke]
    reports [false]; the other tokens stay. *)
Theorem revoke_then_invalid st tokenId :
  initialized st = true → NoDup (jm_keys (tokens st)) →
  ∃ st' removed, revoke st tokenId = Returned st' removed ∧
    (removed = true ↔ tokenId ∈ jm_keys (tokens st)) ∧
    tokens st' = filter (λ kv, kv.1 ≠ tokenId) (tokens st) ∧
    (∀ now, validate st' tokenId now = Returned st' false) ∧
    revoke st' tokenId = Returned st' false ∧
    (∀ other, other ≠ tokenId →
       jm_get other (tokens st') = jm_get other (tokens st)).
Proof.
  intros Hi Hnd. unfold revoke at 1. rewrite Hi. simpl.
  eexists _, _. split; [done|].
  assert (Hgone : jm_get tokenId (jm_delete tokenId (tokens st)) = None).
  { rewrite jm_get_delete by done. by rewrite decide_True. }
  split_and!.
  - apply jm_has_true.
  - simpl. by apply jm_delete_filter.
  - intros now. by apply validate_absent.
  - unfold revoke. simpl. rewrite Hi. simpl. unfold jm_has. rewrite Hgone.
    rewrite jm_delete_absent; [done|]. by apply jm_get_None.
  - intros other Hne. simpl. rewrite jm_get_delete by done.
    by rewrite decide_False.
Qed.

Lemma cleanup_loop now (rest : list (string * Token.t)) :
  ∀ seen kept n,
    NoDup (jm_keys (seen ++ rest)) →
    kept = filter (λ kv, ¬ (Token.expiresAt kv.2 < now)%Z) seen →
    n = length (filter (λ kv, (Token.expiresAt kv.2 < now)%Z) seen) →
    foldl (cleanup_step now) (kept ++ rest, n) rest
    = (filter (λ kv, ¬ (Token.expiresAt kv.2 < now)%Z) (seen ++ rest),
       length (filter (λ kv, (Token.expiresAt kv.2 < now)%Z) (seen ++ rest))).
Proof.
  induction rest as [|[k t] rest IH]; intros seen kept n Hnd -> ->.
  - by rewrite !app_nil_r.
  - cbn [foldl]. unfold cleanup_step at 2. cbn [fst snd].
    replace (seen ++ (k, t) :: rest) with ((seen ++ [(k, t)]) ++ rest) in *
      by by rewrite <- app_assoc.
    destruct (Token.expiresAt t <? now)%Z eqn:Hlt.
    + apply Z.ltb_lt in Hlt. rewrite jm_delete_app_fresh.
      * apply IH; [done| |].
        -- rewrite filter_app, filter_cons, decide_False by tauto.
           by rewrite app_nil_r.
        -- rewrite filter_app, filter_cons, decide_True by done.
           rewrite length_app. simpl. lia.
      * unfold jm_keys in *. rewrite !fmap_app in Hnd.
        apply NoDup_app in Hnd as [Hnd _].
        apply NoDup_app in Hnd as (_ & Hdisj & _).
        intros Hin. apply list_elem_of_fmap in Hin as ([k' t'] & Hk & Hin).
        simpl in Hk. subst k'.
        apply list_elem_of_filter in Hin as [_ Hin].
        apply (Hdisj k); [by apply (list_elem_of_fmap_2 fst) in Hin|].
        apply list_elem_of_here.
    + apply Z.ltb_ge in Hlt.
      replace (filter _ seen ++ (k, t) :: rest)
        with ((filter (λ kv, ¬ (Token.expiresAt kv.2 < now)%Z) seen ++ [(k, t)])
              ++ rest) by by rewrite <- app_assoc.
      apply IH; [done| |].
      * rewrite filter_app, filter_cons, decide_True by (simpl; lia). done.
      * rewrite filter_app, filter_cons, decide_False by (simpl; lia).
        by rewrite app_nil_r.
Qed.

(** X20: [cleanup] deletes exactly the tokens whose expiry the clock has passed
    and returns how many they were; the tokens left keep their order, each
    of them is accepted by [validate] at that time, and a second [cleanup]
    at that time finds nothing to delete. *)
Theorem cleanup_removes_expired st now :
  initialized st = true → NoDup (jm_keys (tokens st)) →
  ∃ st' cleaned, cleanup st now = Returned st' cleaned ∧
    tokens st'
    = filter (λ kv, ¬ (Token.expiresAt kv.2 < now)%Z) (tokens st) ∧
    cleaned
    = length (filter (λ kv, (Token.expiresAt kv.2 < now)%Z) (tokens st)) ∧
    cleaned + length (tokens st') = length (tokens st) ∧
    (∀ tokenId token, jm_get tokenId (tokens st') = Some token →
       validate st' tokenId now = Returned st' true) ∧
    cleanup st' now = Returned st' 0.
Proof.
  intros Hi Hnd.
  assert (Hloop : ∀ m, NoDup (jm_keys m) →
            foldl (cleanup_step now) (m, 0) m
            = (filter (λ kv, ¬ (Token.expiresAt kv.2 < now)%Z) m,
               length (filter (λ kv, (Token.expiresAt kv.2 < now)%Z) m))).
  { intros m Hm. by apply (cleanup_loop now m [] [] 0). }
  set (kept := filter (λ kv, ¬ (Token.expiresAt kv.2 < now)%Z) (tokens st)).
  assert (Hkept : Forall (λ kv, ¬ (Token.expiresAt kv.2 < now)%Z) kept).
  { apply Forall_forall. intros kv Hin. by apply list_elem_of_filter in Hin as [? _]. }
  assert (Hnd' : NoDup (jm_keys kept)).
  { unfold jm_keys. eapply sublist_NoDup; [exact Hnd|].
    apply (fmap_sublist fst), sublist_filter. }
  exists (with_tokens kept st),
    (length (filter (λ kv, (Token.expiresAt kv.2 < now)%Z) (tokens st))).
  split_and!.
  - unfold cleanup. rewrite Hi. simpl. by rewrite (Hloop _ Hnd).
  - done.
  - done.
  - simpl. unfold kept.
    rewrite <- (length_app (filter _ _) (filter _ _)).
    apply Permutation_length. apply filter_app_complement.
  - intros tokenId token Hg. simpl in Hg.
    erewrite validate_present; [|done|exact Hg].
    assert (Hin : (tokenId, token) ∈ kept).
    { clear -Hg. induction kept as [|[k v] m IH]; simpl in Hg; [done|].
      destruct (decide (tokenId = k)) as [->|Hne].
      - injection Hg as ->. left.
      - right. by apply IH. }
    rewrite Forall_forall in Hkept. specialize (Hkept _ Hin). simpl in Hkept.
    by rewrite (proj2 (Z.ltb_ge _ _)) by lia.
  - unfold cleanup. simpl. rewrite Hi. simpl. rewrite (Hloop _ Hnd').
    rewrite filter_all by done.
    by rewrite filter_none.
Qed.

Lemma generate_then_validate_witness :
  let st := Scenarios.vault in
  (∃ st' token,
     generate st "api" (Some Payload.empty) "t3" (Some "dG9rZW4") 200 201
     = Returned st' token ∧
     Token.id token = "t3" ∧ Token.type token = "api" ∧
     Token.value token = "dG9rZW4" ∧
     Token.createdAt token = 200%Z ∧
     Token.expiresAt token = number_or None (201 + 3600000)%Z ∧
     (Payload.expiresAt Payload.empty = None ∨
      Payload.expiresAt Payload.empty = Some 0%Z →
      Token.expiresAt token = (201 + 3600000)%Z) ∧
     (∀ now, (now ≤ Token.expiresAt token)%Z →
        validate st' "t3" now = Returned st' true ∧
        get st' "t3" now = Returned st' (Some token)) ∧
     (∀ other, other ≠ "t3" →
        jm_get other (tokens st') = jm_get other (tokens st))) ∧
  (∀ payload', generate st "api" payload' "t3" None 200 201
               = Threw st InvalidCharacter) ∧
  generate st "api" None "t3" (Some "dG9rZW4") 200 201 = Threw st PayloadNull.
Proof.
  apply (generate_then_validate Scenarios.vault "api" Payload.empty "t3"
           "dG9rZW4" 200 201).
  reflexivity.
Defined.

Lemma expired_token_is_revoked_witness :
  let st := Scenarios.vault in
  ∃ st', validate st "t1" 200 = Returned st' false ∧
    get st "t1" 200 = Returned st' None ∧
    tokens st' = filter (λ kv, kv.1 ≠ "t1") (tokens st) ∧
    (∀ now', validate st' "t1" now' = Returned st' false ∧
             get st' "t1" now' = Returned st' None) ∧
    (∀ other, other ≠ "t1" →
       jm_get other (tokens st') = jm_get other (tokens st)).
Proof.
  apply (expired_token_is_revoked Scenarios.vault "t1" Scenarios.stale 200).
  - reflexivity.
  - apply (bool_decide_unpack _). vm_compute. exact I.
  - reflexivity.
  - reflexivity.
Defined.

Lemma get_returns_only_valid_tokens_witness :
  let st := Scenarios.vault in
  st = st ∧ jm_get "t2" (tokens st) = Some Scenarios.lasting ∧
  (200 ≤ Token.expiresAt Scenarios.lasting)%Z ∧
  validate st "t2" 200 = Returned st true.
Proof.
  apply (get_returns_only_valid_tokens Scenarios.vault "t2" 200 Scenarios.vault
           Scenarios.lasting).
  reflexivity.
Defined.

Lemma revoke_then_invalid_witness :
  let st := Scenarios.vault in
  ∃ st' removed, revoke st "t2" = Returned st' removed ∧
    (removed = true ↔ "t2" ∈ jm_keys (tokens st)) ∧
    tokens st' = filter (λ kv, kv.1 ≠ "t2") (tokens st) ∧
    (∀ now, validate st' "t2" now = Returned st' false) ∧
    revoke st' "t2" = Returned st' false ∧
    (∀ other, other ≠ "t2" →
       jm_get other (tokens st') = jm_get other (tokens st)).
Proof.
  apply (revoke_then_invalid Scenarios.vault "t2").
  - reflexivity.
  - apply (bool_decide_unpack _). vm_compute. exact I.
Defined.

Lemma cleanup_removes_expired_witness :
  let st := Scenarios.vault in
  ∃ st' cleaned, cleanup st 200 = Returned st' cleaned ∧
    tokens st'
    = filter (λ kv, ¬ (Token.expiresAt kv.2 < 200)%Z) (tokens st) ∧
    cleaned
    = length (filter (λ kv, (Token.expiresAt kv.2 < 200)%Z) (tokens st)) ∧
    cleaned + length (tokens st') = length (tokens st) ∧
    (∀ tokenId token, jm_get tokenId (tokens st') = Some token →
       validate st' tokenId 200 = Returned st' true) ∧
    cleanup st' 200 = Returned st' 0.
Proof.
  apply (cleanup_removes_expired Scenarios.vault 200).
  - reflexivity.
  - apply (bool_decide_unpack _). vm_compute. exact I.
Defined.

(** The two sample tokens at time 200: the first is cleaned, the second
    stays. *)
Example cleanup_vault :
  cleanup Scenarios.vault 200
  = Returned (with_tokens [("t2", Scenarios.lasting)] Scenarios.vault) 1.
Proof. reflexivity. Qed.

End TokenFacts.

(** ** The authentication service *)
Module AuthFacts.
Import AuthService.

Local Abbreviation ts_tokens st := (TokenService.tokens (tokenService st)).
Local Abbreviation ts_initialized st :=
  (TokenService.initialized (tokenService st)).

Lemma with_tokenService_id st : with_tokenService (tokenService st) st = st.
Proof. by destruct st. Qed.

(** What [isAuthenticated] answers while the session token is in the token
    service. *)
Lemma isAuthenticated_session st user token stored now :
  initialized st = true → ts_initialized st = true →
  currentUser st = Some user → sessionToken st = Some token →
  jm_get (Token.id token) (ts_tokens st) = Some stored →
  isAuthenticated st now
  = if (Token.expiresAt stored <? now)%Z
    then Returned
           (with_tokenService
              (TokenService.with_tokens
                 (jm_delete (Token.id token) (ts_tokens st)) (tokenService st))
              st) false
    else Returned st true.
Proof.
  intros Hi Hti Hu Ht Hg. unfold isAuthenticated. rewrite Hi, Hu, Ht. simpl.
  rewrite (TokenFacts.validate_present _ _ stored now Hti Hg).
  destruct (Token.expiresAt stored <? now)%Z; simpl; [done|].
  by rewrite with_tokenService_id.
Qed.

(** What it answers once the session token is not there. *)
Lemma isAuthenticated_revoked st token now :
  ts_initialized st = true → sessionToken st = Some token →
  jm_get (Token.id token) (ts_tokens st) = None →
  isAuthenticated st now = Returned st false.
Proof.
  intros Hti Ht Hg. unfold isAuthenticated.
  destruct (initialized st); simpl; [|done].
  destruct (currentUser st); [|done]. rewrite Ht.
  destruct (TokenFacts.validate_absent _ (Token.id token) now Hti Hg) as [-> _].
  simpl. by rewrite with_tokenService_id.
Qed.

Lemma isAuthenticated_no_session st now :
  currentUser st = None ∨ sessionToken st = None →
  isAuthenticated st now = Returned st false.
Proof.
  intros Hno. unfold isAuthenticated. destruct (initialized st); simpl; [|done].
  destruct Hno as [-> | ->]; [done|]. by destruct (currentUser st).
Qed.

Lemma authorize_unauthenticated st action now1 now2 :
  initialized st = true → isAuthenticated st now1 = Returned st false →
  authorize st action now1 now2 = Returned st false.
Proof. intros Hi Ha. unfold authorize. by rewrite Hi, Ha. Qed.

(** X21: [authenticate] with a user name, when the value of the session token
    can be computed, opens a session: the user it builds has the role
    given, ['user'] when none or the empty one is given, and the session
    token expires 24 hours after the clock's reading.  Until the clock
    passes that expiry, [isAuthenticated] says yes and [getCurrentUser] and
    [getSessionToken] return the user and the token.  The tokens already in
    the token service stay, the token of an earlier session included.  When
    the encoding of the value throws, as it does for a user name with a
    character above U+00FF, [authenticate] throws and the session is as it
    was. *)
Theorem authenticate_opens_session st username role userId authNow sessionNow
    tokenId tokenValue createdNow expiryNow :
  initialized st = true → ts_initialized st = true → username ≠ "" →
  let credentials :=
    Some {| Credentials.username := Some username;
            Credentials.role := role |} in
  (∃ st' user token,
     authenticate st credentials userId authNow sessionNow tokenId
       (Some tokenValue) createdNow expiryNow = Returned st' (user, token) ∧
     User.id user = userId ∧ User.username user = username ∧
     User.role user = string_or role "user" ∧
     Token.id token = tokenId ∧ Token.value token = tokenValue ∧
     ((sessionNow + 86400000)%Z ≠ 0%Z →
      Token.expiresAt token = (sessionNow + 86400000)%Z) ∧
     (∀ now, (now ≤ Token.expiresAt token)%Z →
        isAuthenticated st' now = Returned st' true ∧
        getCurrentUser st' now = Returned st' (Some user) ∧
        getSessionToken st' now = Returned st' (Some token)) ∧
     (∀ other, other ≠ tokenId →
        jm_get other (ts_tokens st') = jm_get other (ts_tokens st))) ∧
  authenticate st credentials userId authNow sessionNow tokenId None
    createdNow expiryNow = Threw st InvalidCharacter.
Proof.
  intros Hi Hti Hname credentials.
  assert (Htruthy : truthy_string username = true).
  { unfold truthy_string. by destruct (String.eqb_spec username ""). }
  unfold authenticate, TokenService.generate. rewrite Hi, Hti. simpl.
  rewrite Htruthy. simpl. split; [|by rewrite with_tokenService_id].
  eexists _, _, _. split; [done|]. simpl. split_and!; try done.
  - intros Hne. by destruct (Z.eqb_spec (sessionNow + 86400000) 0).
  - intros now Hnow.
    match goal with
    | |- isAuthenticated ?s _ = _ ∧ _ = Returned _ (Some ?u) ∧
         _ = Returned _ (Some ?t) =>
        assert (Ha : isAuthenticated s now = Returned s true);
          [rewrite (isAuthenticated_session s u t t now);
             [by rewrite (proj2 (Z.ltb_ge _ _))|done|done|done|done|
              simpl; apply jm_get_set_eq]|]
    end.
    split; [done|]. unfold getCurrentUser, getSessionToken. simpl.
    by rewrite Ha.
  - intros other Hne. by apply jm_get_set_ne.
Qed.

(** X22: [authenticate] throws in four cases only: the service is not
    initialised; the credentials lack a user name, the empty one counting
    as none; the token service is not initialised; or the encoding of the
    token value throws.  It then changes nothing. *)
Theorem authenticate_throws_iff st credentials userId authNow sessionNow
    tokenId tokenValue createdNow expiryNow st' e :
  authenticate st credentials userId authNow sessionNow tokenId tokenValue
    createdNow expiryNow = Threw st' e ↔
  st' = st ∧
  (initialized st = false ∧ e = NotInitialized ∨
   initialized st = true ∧
   (string_or (credentials ≫= Credentials.username) "" = "" ∧
    e = InvalidCredentials ∨
    string_or (credentials ≫= Credentials.username) "" ≠ "" ∧
    (ts_initialized st = false ∧ e = TokenServiceNotInitialized ∨
     ts_initialized st = true ∧ tokenValue = None ∧ e = InvalidCharacter))).
Proof.
  unfold authenticate, TokenService.generate, string_or.
  destruct (initialized st); simpl;
    [|split; [intros [= <- <-]|intros (-> & [(_ & ->)|(? & _)])]; [tauto|done..]].
  destruct credentials as [[[username|] role]|]; simpl;
    [|split; [intros [= <- <-]|intros (-> & [(? & _)|(_ & [(_ & ->)|(? & _)])])];
      [tauto|done..]..].
  destruct (truthy_string username) eqn:Htruthy; simpl.
  - apply MachineRegistryFacts.truthy_string_true in Htruthy.
    destruct (TokenService.initialized (tokenService st)) eqn:Hti; simpl.
    + destruct tokenValue as [tokenValue|]; simpl.
      * split; [done|].
        intros (_ & [(? & _)|(_ & [(? & _)|(_ & [(? & _)|(_ & ? & _)])])]);
          done.
      * split.
        -- intros [= <- <-]. rewrite with_tokenService_id. split; [done|].
           tauto.
        -- intros (-> & [(? & _)|(_ & [(? & _)|(_ & [(? & _)|(_ & _ & ->)])])]);
             [done..|]. by rewrite with_tokenService_id.
    + split.
      * intros [= <- <-]. rewrite with_tokenService_id. split; [done|]. tauto.
      * intros (-> & [(? & _)|(_ & [(? & _)|(_ & [(_ & ->)|(? & _)])])]);
          [done|done| |done]. by rewrite with_tokenService_id.
  - split.
    + intros [= <- <-]. split; [done|]. right. split; [done|]. by left.
    + intros (-> & [(? & _)|(_ & [(_ & ->)|(? & _)])]); done.
Qed.

(** X23: For an open session whose token is valid at both readings of the clock,
    [authorize] decides by the role alone: ['admin'] may do anything,
    ['user'] may [read], [write] and [execute] and nothing else, and any
    other role may do nothing.  Nothing changes. *)
Theorem authorize_follows_role st user token stored action now1 now2 :
  initialized st = true → ts_initialized st = true →
  currentUser st = Some user → sessionToken st = Some token →
  jm_get (Token.id token) (ts_tokens st) = Some stored →
  (now1 ≤ Token.expiresAt stored)%Z → (now2 ≤ Token.expiresAt stored)%Z →
  ∃ allowed, authorize st action now1 now2 = Returned st allowed ∧
    (allowed = true ↔
     User.role user = "admin" ∨
     User.role user = "user" ∧ action ∈ ["read"; "write"; "execute"]).
Proof.
  intros Hi Hti Hu Ht Hg H1 H2.
  assert (Ha : ∀ now, (now ≤ Token.expiresAt stored)%Z →
                      isAuthenticated st now = Returned st true).
  { intros now Hnow. rewrite (isAuthenticated_session st user token stored) by done.
    by rewrite (proj2 (Z.ltb_ge _ _)). }
  unfold authorize, getCurrentUser. rewrite Hi. simpl.
  rewrite (Ha now1 H1), Hi. simpl. rewrite (Ha now2 H2), Hu.
  destruct (String.eqb_spec (User.role user) "admin") as [Hadmin|Hadmin].
  - eexists. split; [done|]. tauto.
  - destruct (String.eqb_spec (User.role user) "user") as [Huser|Huser].
    + eexists. split; [done|]. rewrite bool_decide_eq_true. tauto.
    + eexists. split; [done|]. split; [done|]. tauto.
Qed.

(** X24: When the session token is valid at the first reading of the clock and
    has expired at the second, [authorize] throws: the current user it asks
    for is [null] by then.  The token is revoked on the way. *)
Theorem authorize_across_expiry st user token stored action now1 now2 :
  initialized st = true → ts_initialized st = true →
  currentUser st = Some user → sessionToken st = Some token →
  jm_get (Token.id token) (ts_tokens st) = Some stored →
  (now1 ≤ Token.expiresAt stored)%Z → (Token.expiresAt stored < now2)%Z →
  ∃ st', authorize st action now1 now2 = Threw st' UserIsNull ∧
    ts_tokens st' = jm_delete (Token.id token) (ts_tokens st) ∧
    currentUser st' = Some user.
Proof.
  intros Hi Hti Hu Ht Hg H1 H2.
  unfold authorize, getCurrentUser. rewrite Hi. simpl.
  rewrite (isAuthenticated_session st user token stored now1) by done.
  rewrite (proj2 (Z.ltb_ge _ _)) by done. rewrite Hi. simpl.
  rewrite (isAuthenticated_session st user token stored now2) by done.
  rewrite (proj2 (Z.ltb_lt _ _)) by done.
  eexists. split; [done|]. done.
Qed.

(** X25: Once [isAuthenticated] has seen the session token expired, the session
    is over for good: the token is revoked, and [isAuthenticated] and
    [authorize] say no whatever the clock says afterwards, an earlier time
    included.  The user and the token stay recorded in the service. *)
Theorem expired_session_stays_closed st user token stored now :
  initialized st = true → ts_initialized st = true →
  NoDup (jm_keys (ts_tokens st)) →
  currentUser st = Some user → sessionToken st = Some token →
  jm_get (Token.id token) (ts_tokens st) = Some stored →
  (Token.expiresAt stored < now)%Z →
  ∃ st', isAuthenticated st now = Returned st' false ∧
    currentUser st' = Some user ∧ sessionToken st' = Some token ∧
    (∀ now', isAuthenticated st' now' = Returned st' false) ∧
    (∀ now', getCurrentUser st' now' = Returned st' None) ∧
    (∀ action now1 now2, authorize st' action now1 now2 = Returned st' false).
Proof.
  intros Hi Hti Hnd Hu Ht Hg Hlt.
  rewrite (isAuthenticated_session st user token stored now) by done.
  rewrite (proj2 (Z.ltb_lt _ _)) by done.
  eexists. split; [done|].
  match goal with |- currentUser ?s = _ ∧ _ => set (st' := s) end.
  assert (Ha : ∀ now', isAuthenticated st' now' = Returned st' false).
  { intros now'. apply (isAuthenticated_revoked st' token); [done|done|].
    simpl. rewrite jm_get_delete by done. by rewrite decide_True. }
  split_and!; [done|done|done| |].
  - intros now'. unfold getCurrentUser. simpl. by rewrite Hi, Ha.
  - intros action now1 now2. by apply authorize_unauthenticated.
Qed.

(** X26: [logout] revokes the session token and forgets the user.  Afterwards
    nobody is authenticated and nothing is authorised, whatever the role
    was and whatever the clock says, and the token service refuses the
    token; the other tokens stay. *)
Theorem logout_ends_session st :
  initialized st = true → ts_initialized st = true →
  NoDup (jm_keys (ts_tokens st)) →
  ∃ st', logout st = Returned st' tt ∧
    currentUser st' = None ∧ sessionToken st' = None ∧
    (∀ now, isAuthenticated st' now = Returned st' false) ∧
    (∀ now, getCurrentUser st' now = Returned st' None) ∧
    (∀ action now1 now2, authorize st' action now1 now2 = Returned st' false) ∧
    (∀ token now, sessionToken st = Some token →
       TokenService.validate (tokenService st') (Token.id token) now
       = TokenService.Returned (tokenService st') false) ∧
    (∀ other,
       (∀ token, sessionToken st = Some token → other ≠ Token.id token) →
       jm_get other (ts_tokens st') = jm_get other (ts_tokens st)).
Proof.
  intros Hi Hti Hnd. unfold logout, TokenService.revoke. rewrite Hi, Hti. simpl.
  assert (Hrest : ∀ st', initialized st' = true → currentUser st' = None →
    (∀ now, isAuthenticated st' now = Returned st' false) ∧
    (∀ now, getCurrentUser st' now = Returned st' None) ∧
    (∀ action now1 now2, authorize st' action now1 now2 = Returned st' false)).
  { intros st' Hi' Hu'.
    assert (Ha : ∀ now, isAuthenticated st' now = Returned st' false).
    { intros now. apply isAuthenticated_no_session. by left. }
    split_and!; [done| |].
    - intros now. unfold getCurrentUser. by rewrite Hi', Ha.
    - intros action now1 now2. by apply authorize_unauthenticated. }
  destruct (sessionToken st) as [token|] eqn:Ht.
  - eexists. split; [done|]. split; [done|]. split; [done|].
    destruct (Hrest
      {| tokenService :=
           TokenService.with_tokens (jm_delete (Token.id token) (ts_tokens st))
             (tokenService st);
         currentUser := None; sessionToken := None; initialized := true |})
      as (Ha & Hc & Hz); [done..|].
    split_and!; [done..| |].
    + intros token' now [= <-].
      apply TokenFacts.validate_absent; [done|]. simpl.
      rewrite jm_get_delete by done. by rewrite decide_True.
    + intros other Hother. simpl. rewrite jm_get_delete by done.
      rewrite decide_False; [done|]. by apply Hother.
  - eexists. split; [done|]. split; [done|]. split; [done|].
    destruct (Hrest
      {| tokenService := tokenService st; currentUser := None;
         sessionToken := None; initialized := true |}) as (Ha & Hc & Hz);
      [done..|].
    split_and!; [done..| |]; [by intros token now|by intros other Hne].
Qed.

(** X27: [init] never throws and restores a stored session only when the token
    service accepts its token at that time: when a user is current
    afterwards, it is the stored one and the stored token is the session
    token, held by the token service and not expired. *)
Theorem init_restores_only_valid_sessions ts session now :
  ∃ st', init (constructor ts) session now = Returned st' tt ∧
    initialized st' = true ∧
    (∀ user, currentUser st' = Some user →
       ∃ s token stored,
         session = Some s ∧ Session.user s = Some user ∧
         Session.token s = Some token ∧ sessionToken st' = Some token ∧
         jm_get (Token.id token) (TokenService.tokens ts) = Some stored ∧
         (now ≤ Token.expiresAt stored)%Z ∧ tokenService st' = ts).
Proof.
  unfold init. simpl. eexists. split; [done|]. split; [done|].
  intros user. destruct session as [[suser [token|]]|]; simpl; [|done..].
  unfold _restoreSession. simpl. unfold TokenService.validate.
  destruct (TokenService.initialized ts) eqn:Hti; simpl; [|done].
  destruct (jm_get (Token.id token) (TokenService.tokens ts)) as [stored|] eqn:Hg;
    simpl; [|done].
  unfold TokenService.revoke. rewrite Hti. simpl.
  destruct (Token.expiresAt stored <? now)%Z eqn:Hlt; simpl; [done|].
  intros ->. apply Z.ltb_ge in Hlt.
  eexists _, token, stored. by split_and!.
Qed.

(** The user [ada] signs in; for a user name that [btoa] cannot encode
    the call throws. *)
Lemma authenticate_opens_session_witness :
  let st := Scenarios.signed_out in
  let credentials username :=
    Some {| Credentials.username := Some username;
            Credentials.role := None |} in
  (∃ st' user token,
     authenticate st (credentials "ada") "u1" 300 301 "t3"
       (Some "c2Vzc2lvbg") 302 303
     = Returned st' (user, token) ∧
     User.id user = "u1" ∧ User.username user = "ada" ∧
     User.role user = "user" ∧
     Token.id token = "t3" ∧ Token.value token = "c2Vzc2lvbg" ∧
     Token.expiresAt token = (301 + 86400000)%Z ∧
     (∀ now, (now ≤ Token.expiresAt token)%Z →
        isAuthenticated st' now = Returned st' true ∧
        getCurrentUser st' now = Returned st' (Some user) ∧
        getSessionToken st' now = Returned st' (Some token)) ∧
     (∀ other, other ≠ "t3" →
        jm_get other (ts_tokens st') = jm_get other (ts_tokens st))) ∧
  authenticate st (credentials "Łukasz") "u1" 300 301 "t3" None 302 303
  = Threw st InvalidCharacter.
Proof.
  intros st credentials. split.
  - destruct (authenticate_opens_session Scenarios.signed_out "ada" None "u1"
                300 301 "t3" "c2Vzc2lvbg" 302 303)
      as [(st' & user & token & Hcall & Hid & Hname & Hrole & Htid & Hvalue
           & Hexpiry & Hopen & Hothers) _].
    + reflexivity.
    + reflexivity.
    + discriminate.
    + exists st', user, token. split_and!; try assumption.
      apply Hexpiry. discriminate.
  - destruct (authenticate_opens_session Scenarios.signed_out "Łukasz" None
                "u1" 300 301 "t3" "" 302 303) as [_ Hfails].
    + reflexivity.
    + reflexivity.
    + discriminate.
    + exact Hfails.
Defined.

(** With nobody signed in and a user name whose encoding fails,
    [authenticate] throws and changes nothing. *)
Lemma authenticate_throws_iff_witness :
  authenticate Scenarios.signed_out
    (Some {| Credentials.username := Some "Łukasz";
             Credentials.role := None |})
    "u1" 300 301 "t3" None 302 303
  = Threw Scenarios.signed_out InvalidCharacter.
Proof.
  apply (authenticate_throws_iff Scenarios.signed_out
           (Some {| Credentials.username := Some "Łukasz";
                    Credentials.role := None |})
           "u1" 300 301 "t3" None 302 303 Scenarios.signed_out
           InvalidCharacter).
  split; [reflexivity|]. right. split; [reflexivity|]. right.
  split; [discriminate|]. right. by split_and!.
Defined.

Lemma authorize_follows_role_witness :
  let st := Scenarios.signed_in in
  ∃ allowed, authorize st "write" 60 70 = Returned st allowed ∧
    (allowed = true ↔
     User.role Scenarios.ada = "admin" ∨
     User.role Scenarios.ada = "user" ∧
     "write" ∈ ["read"; "write"; "execute"]).
Proof.
  apply (authorize_follows_role Scenarios.signed_in Scenarios.ada
           Scenarios.lasting Scenarios.lasting "write" 60 70).
  - reflexivity.
  - reflexivity.
  - reflexivity.
  - reflexivity.
  - reflexivity.
  - vm_compute. discriminate.
  - vm_compute. discriminate.
Defined.

Lemma authorize_across_expiry_witness :
  let st := Scenarios.signed_in in
  ∃ st', authorize st "read" 5000 5001 = Threw st' UserIsNull ∧
    ts_tokens st' = jm_delete "t2" (ts_tokens st) ∧
    currentUser st' = Some Scenarios.ada.
Proof.
  apply (authorize_across_expiry Scenarios.signed_in Scenarios.ada
           Scenarios.lasting Scenarios.lasting "read" 5000 5001).
  - reflexivity.
  - reflexivity.
  - reflexivity.
  - reflexivity.
  - reflexivity.
  - vm_compute. discriminate.
  - reflexivity.
Defined.

Lemma expired_session_stays_closed_witness :
  let st := Scenarios.signed_in in
  ∃ st', isAuthenticated st 6000 = Returned st' false ∧
    currentUser st' = Some Scenarios.ada ∧
    sessionToken st' = Some Scenarios.lasting ∧
    (∀ now', isAuthenticated st' now' = Returned st' false) ∧
    (∀ now', getCurrentUser st' now' = Returned st' None) ∧
    (∀ action now1 now2, authorize st' action now1 now2 = Returned st' false).
Proof.
  apply (expired_session_stays_closed Scenarios.signed_in Scenarios.ada
           Scenarios.lasting Scenarios.lasting 6000).
  - reflexivity.
  - reflexivity.
  - apply (bool_decide_unpack _). vm_compute. exact I.
  - reflexivity.
  - reflexivity.
  - reflexivity.
  - reflexivity.
Defined.

Lemma logout_ends_session_witness :
  let st := Scenarios.signed_in in
  ∃ st', logout st = Returned st' tt ∧
    currentUser st' = None ∧ sessionToken st' = None ∧
    (∀ now, isAuthenticated st' now = Returned st' false) ∧
    (∀ now, getCurrentUser st' now = Returned st' None) ∧
    (∀ action now1 now2, authorize st' action now1 now2 = Returned st' false) ∧
    (∀ token now, sessionToken st = Some token →
       TokenService.validate (tokenService st') (Token.id token) now
       = TokenService.Returned (tokenService st') false) ∧
    (∀ other,
       (∀ token, sessionToken st = Some token → other ≠ Token.id token) →
       jm_get other (ts_tokens st') = jm_get other (ts_tokens st)).
Proof.
  apply (logout_ends_session Scenarios.signed_in).
  - reflexivity.
  - reflexivity.
  - apply (bool_decide_unpack _). vm_compute. exact I.
Defined.

(** The scenario of the test script: sign in as a user, be allowed to
    write, sign out, be authenticated no more. *)
Example sign_in_write_sign_out :
  ∃ st1 user token st2,
    authenticate Scenarios.signed_out
      (Some {| Credentials.username := Some "testuser";
               Credentials.role := Some "user" |})
      "u2" 300 301 "t3" (Some "c2Vzc2lvbg") 302 303
    = Returned st1 (user, token) ∧
    isAuthenticated st1 310 = Returned st1 true ∧
    authorize st1 "write" 311 312 = Returned st1 true ∧
    authorize st1 "delete" 311 312 = Returned st1 false ∧
    logout st1 = Returned st2 tt ∧
    isAuthenticated st2 313 = Returned st2 false.
Proof. eexists _, _, _, _. split_and!; reflexivity. Qed.

End AuthFacts.

(** ** The wallet service *)
Module WalletFacts.
Import WalletUnified.

Lemma with_authService_id st : with_authService (authService st) st = st.
Proof. by destruct st. Qed.

(** While the session is open, the two questions to the authentication
    service give the user and change nothing. *)
Lemma current_user_session st user until now1 now2 :
  session_until (authService st) = Some (user, until) →
  (now1 ≤ until)%Z → (now2 ≤ until)%Z →
  current_user st now1 now2 = Returned st (Some user).
Proof.
  unfold session_until. intros Hs H1 H2.
  destruct (AuthService.initialized (authService st)) eqn:Hi; [|done].
  destruct (TokenService.initialized _) eqn:Hti; [|done]. simpl in Hs.
  destruct (AuthService.currentUser (authService st)) as [u|] eqn:Hu; [|done].
  destruct (AuthService.sessionToken (authService st)) as [token|] eqn:Ht;
    [|done].
  destruct (jm_get _ _) as [stored|] eqn:Hg; [|done].
  injection Hs as -> <-.
  assert (Ha : ∀ now, (now ≤ Token.expiresAt stored)%Z →
             AuthService.isAuthenticated (authService st) now
             = AuthService.Returned (authService st) true).
  { intros now Hnow.
    rewrite (AuthFacts.isAuthenticated_session _ user token stored) by done.
    by rewrite (proj2 (Z.ltb_ge _ _)). }
  unfold current_user, AuthService.getCurrentUser.
  rewrite (Ha now1 H1), Hi. simpl. rewrite (Ha now2 H2), Hu.
  by rewrite with_authService_id.
Qed.

Lemma isAuthenticated_session_until st user until now :
  session_until (authService st) = Some (user, until) → (now ≤ until)%Z →
  AuthService.isAuthenticated (authService st) now
  = AuthService.Returned (authService st) true.
Proof.
  unfold session_until. intros Hs Hnow.
  destruct (AuthService.initialized (authService st)) eqn:Hi; [|done].
  destruct (TokenService.initialized _) eqn:Hti; [|done]. simpl in Hs.
  destruct (AuthService.currentUser (authService st)) as [u|] eqn:Hu; [|done].
  destruct (AuthService.sessionToken (authService st)) as [token|] eqn:Ht;
    [|done].
  destruct (jm_get _ _) as [stored|] eqn:Hg; [|done].
  injection Hs as -> <-.
  rewrite (AuthFacts.isAuthenticated_session _ user token stored) by done.
  by rewrite (proj2 (Z.ltb_ge _ _)).
Qed.

Lemma getWallet_session st user until walletId now1 now2 :
  initialized st = true →
  session_until (authService st) = Some (user, until) →
  (now1 ≤ until)%Z → (now2 ≤ until)%Z →
  getWallet st walletId now1 now2
  = Returned st
      (match jm_get walletId (wallets st) with
       | Some wallet =>
           if decide (Wallet.userId wallet = User.id user) then Some wallet
           else None
       | None => None
       end).
Proof.
  intros Hi Hs H1 H2. unfold getWallet. rewrite Hi. simpl.
  destruct (jm_get walletId (wallets st)) as [wallet|]; [|done].
  rewrite (current_user_session st user until) by done.
  by case_decide.
Qed.

(** X28: With a session open, [createWallet] makes a wallet of the current user
    with balance 0 and stores it under the generated id, where [getWallet]
    finds it while the session lasts.  The wallets under other ids stay.
    The wallet becomes the default one exactly when it is the only wallet
    in the service. *)
Theorem createWallet_then_getWallet st user until config now1 now2 walletId
    digits createdNow :
  initialized st = true →
  session_until (authService st) = Some (user, until) →
  (now1 ≤ until)%Z → (now2 ≤ until)%Z →
  ∃ st' wallet,
    createWallet st config now1 now2 walletId digits createdNow
    = Returned st' wallet ∧
    Wallet.id wallet = walletId ∧ Wallet.userId wallet = User.id user ∧
    Wallet.balance wallet = 0%float ∧
    Wallet.type wallet = string_or (WalletConfig.type config) "ethereum" ∧
    (∀ n1 n2, (n1 ≤ until)%Z → (n2 ≤ until)%Z →
       getWallet st' walletId n1 n2 = Returned st' (Some wallet)) ∧
    (∀ other, other ≠ walletId →
       jm_get other (wallets st') = jm_get other (wallets st)) ∧
    defaultWallet st'
    = (if decide (jm_size (wallets st') = 1) then Some walletId
       else defaultWallet st) ∧
    (wallets st = [] → walletId ≠ "" →
     ∀ n1 n2, (n1 ≤ until)%Z → (n2 ≤ until)%Z →
       getDefaultWallet st' n1 n2 = Returned st' (Some wallet)).
Proof.
  intros Hi Hs H1 H2. unfold createWallet. rewrite Hi. simpl.
  rewrite (current_user_session st user until) by done.
  eexists _, _. split; [done|].
  match goal with |- Wallet.id ?w = _ ∧ _ => set (wallet := w) end.
  match goal with |- context [getWallet ?s _ _ _] => set (st' := s) end.
  assert (Hget : ∀ n1 n2, (n1 ≤ until)%Z → (n2 ≤ until)%Z →
            getWallet st' walletId n1 n2 = Returned st' (Some wallet)).
  { intros n1 n2 Hn1 Hn2.
    rewrite (getWallet_session st' user until) by done.
    simpl. rewrite jm_get_set_eq. simpl. by rewrite decide_True. }
  split_and!; try done.
  - intros other Hne. simpl. by apply jm_get_set_ne.
  - intros Hempty Hid n1 n2 Hn1 Hn2. unfold getDefaultWallet. simpl.
    rewrite Hi, Hempty. simpl.
    apply MachineRegistryFacts.truthy_string_true in Hid. rewrite Hid.
    by apply Hget.
Qed.

(** X29: A wallet of another user is out of reach: with a session open,
    [getWallet] returns nothing for it, [updateBalance] and
    [setDefaultWallet] return [false], [createTransaction] from it throws
    'Wallet not found', and [getUserWallets] lists only wallets of the
    current user; none of these calls changes anything. *)
Theorem wallets_are_private st user until walletId wallet now0 now1 now2 :
  initialized st = true →
  session_until (authService st) = Some (user, until) →
  (now0 ≤ until)%Z → (now1 ≤ until)%Z → (now2 ≤ until)%Z →
  jm_get walletId (wallets st) = Some wallet →
  Wallet.userId wallet ≠ User.id user →
  getWallet st walletId now1 now2 = Returned st None ∧
  (∀ balance updatedNow,
     updateBalance st walletId balance now1 now2 updatedNow
     = Returned st false) ∧
  setDefaultWallet st walletId now1 now2 = Returned st false ∧
  (∀ toAddress amount type transactionId createdNow hash confirmedNow,
     createTransaction st
       {| TxData.fromWalletId := walletId; TxData.toAddress := toAddress;
          TxData.amount := amount; TxData.type := type |}
       now0 now1 now2 transactionId createdNow hash confirmedNow
     = Threw st WalletNotFound) ∧
  ∃ mine, getUserWallets st now1 now2 = Returned st mine ∧
    Forall (λ w, Wallet.userId w = User.id user) mine ∧ wallet ∉ mine.
Proof.
  intros Hi Hs H0 H1 H2 Hg Hother.
  assert (Hget : getWallet st walletId now1 now2 = Returned st None).
  { rewrite (getWallet_session st user until) by done.
    rewrite Hg. by rewrite decide_False. }
  split_and!.
  - done.
  - intros balance updatedNow. unfold updateBalance. by rewrite Hi, Hget.
  - unfold setDefaultWallet. by rewrite Hi, Hget.
  - intros toAddress amount type transactionId createdNow hash confirmedNow.
    unfold createTransaction. rewrite Hi. simpl.
    rewrite (isAuthenticated_session_until st user until) by done.
    by rewrite with_authService_id, Hget.
  - unfold getUserWallets. rewrite Hi. simpl.
    rewrite (isAuthenticated_session_until st user until now1) by done.
    pose proof (current_user_session st user until now1 now2 Hs H1 H2) as Hc.
    unfold current_user in Hc.
    rewrite (isAuthenticated_session_until st user until now1) in Hc by done.
    destruct (AuthService.getCurrentUser (authService st) now2)
      as [a' [u|]|a' e]; [|done..].
    injection Hc as Ha' ->. rewrite Ha'.
    eexists. split; [done|]. split.
    + apply Forall_forall. intros w Hin.
      by apply list_elem_of_filter in Hin as [? _].
    + intros Hin. by apply list_elem_of_filter in Hin as [? _].
Qed.

(** X30: With a session open, [createTransaction] from a wallet of the current
    user compares the balance with the amount as floating-point numbers.
    When the balance is below the amount it throws 'Insufficient balance'
    and changes nothing.  Otherwise, an amount that is not a number
    included, it returns the confirmed transaction and the wallet's balance
    becomes the rounded difference of the two; the other wallets, the
    default wallet and the session are as before. *)
Theorem createTransaction_moves_balance st user until txData wallet now0 now1
    now2 transactionId createdNow hash confirmedNow :
  initialized st = true →
  session_until (authService st) = Some (user, until) →
  (now0 ≤ until)%Z → (now1 ≤ until)%Z → (now2 ≤ until)%Z →
  jm_get (TxData.fromWalletId txData) (wallets st) = Some wallet →
  Wallet.userId wallet = User.id user →
  let call :=
    createTransaction st txData now0 now1 now2 transactionId createdNow hash
      confirmedNow in
  ((Wallet.balance wallet <? TxData.amount txData)%float = true →
   call = Threw st InsufficientBalance) ∧
  ((Wallet.balance wallet <? TxData.amount txData)%float = false →
   ∃ st' transaction wallet',
     call = Returned st' transaction ∧
     Transaction.amount transaction = TxData.amount txData ∧
     Transaction.fromAddress transaction = Wallet.address wallet ∧
     Transaction.toAddress transaction = TxData.toAddress txData ∧
     Transaction.status transaction = "confirmed" ∧
     jm_get (TxData.fromWalletId txData) (wallets st') = Some wallet' ∧
     Wallet.balance wallet'
     = (Wallet.balance wallet - TxData.amount txData)%float ∧
     Wallet.userId wallet' = Wallet.userId wallet ∧
     Wallet.address wallet' = Wallet.address wallet ∧
     (∀ other, other ≠ TxData.fromWalletId txData →
        jm_get other (wallets st') = jm_get other (wallets st)) ∧
     defaultWallet st' = defaultWallet st ∧
     authService st' = authService st).
Proof.
  intros Hi Hs H0 H1 H2 Hg Hown call.
  assert (Hcall : call
    = if (Wallet.balance wallet <? TxData.amount txData)%float
      then Threw st InsufficientBalance
      else Returned
             (with_wallets
                (jm_set (TxData.fromWalletId txData)
                   {| Wallet.id := Wallet.id wallet;
                      Wallet.userId := Wallet.userId wallet;
                      Wallet.type := Wallet.type wallet;
                      Wallet.address := Wallet.address wallet;
                      Wallet.balance :=
                        (Wallet.balance wallet - TxData.amount txData)%float;
                      Wallet.createdAt := Wallet.createdAt wallet;
                      Wallet.name := Wallet.name wallet;
                      Wallet.metadata := Wallet.metadata wallet;
                      Wallet.lastUpdated := Wallet.lastUpdated wallet |}
                   (wallets st)) st)
             {| Transaction.id := transactionId;
                Transaction.fromWalletId := TxData.fromWalletId txData;
                Transaction.fromAddress := Wallet.address wallet;
                Transaction.toAddress := TxData.toAddress txData;
                Transaction.amount := TxData.amount txData;
                Transaction.type := string_or (TxData.type txData) "transfer";
                Transaction.status := "confirmed";
                Transaction.createdAt := createdNow;
                Transaction.hash := hash;
                Transaction.confirmedAt := confirmedNow |}).
  { unfold call, createTransaction. rewrite Hi. simpl.
    rewrite (isAuthenticated_session_until st user until) by done.
    rewrite with_authService_id.
    rewrite (getWallet_session st user until) by done.
    rewrite Hg, decide_True by done. done. }
  rewrite Hcall. split.
  - by intros ->.
  - intros ->.
    eexists _, _, _. split; [done|]. simpl.
    split_and!; [done|done|done|done|by rewrite jm_get_set_eq|..]; try done.
    intros other Hne. by apply jm_get_set_ne.
Qed.

Lemma createWallet_then_getWallet_witness :
  let st := Scenarios.bank in
  let user := Scenarios.ada in
  let until := 5000%Z in
  ∃ st' wallet,
    createWallet st Scenarios.plain_wallet 100 101 "w3" "cafe" 102
    = Returned st' wallet ∧
    Wallet.id wallet = "w3" ∧ Wallet.userId wallet = User.id user ∧
    Wallet.balance wallet = 0%float ∧
    Wallet.type wallet = string_or None "ethereum" ∧
    (∀ n1 n2, (n1 ≤ until)%Z → (n2 ≤ until)%Z →
       getWallet st' "w3" n1 n2 = Returned st' (Some wallet)) ∧
    (∀ other, other ≠ "w3" →
       jm_get other (wallets st') = jm_get other (wallets st)) ∧
    defaultWallet st'
    = (if decide (jm_size (wallets st') = 1) then Some "w3"
       else defaultWallet st) ∧
    (wallets st = [] → "w3" ≠ "" →
     ∀ n1 n2, (n1 ≤ until)%Z → (n2 ≤ until)%Z →
       getDefaultWallet st' n1 n2 = Returned st' (Some wallet)).
Proof.
  apply (createWallet_then_getWallet Scenarios.bank Scenarios.ada 5000
           Scenarios.plain_wallet 100 101 "w3" "cafe" 102).
  - reflexivity.
  - reflexivity.
  - vm_compute. discriminate.
  - vm_compute. discriminate.
Defined.

Lemma wallets_are_private_witness :
  let st := Scenarios.bank in
  let user := Scenarios.ada in
  getWallet st "w2" 101 102 = Returned st None ∧
  (∀ balance updatedNow,
     updateBalance st "w2" balance 101 102 updatedNow = Returned st false) ∧
  setDefaultWallet st "w2" 101 102 = Returned st false ∧
  (∀ toAddress amount type transactionId createdNow hash confirmedNow,
     createTransaction st
       {| TxData.fromWalletId := "w2"; TxData.toAddress := toAddress;
          TxData.amount := amount; TxData.type := type |}
       100 101 102 transactionId createdNow hash confirmedNow
     = Threw st WalletNotFound) ∧
  ∃ mine, getUserWallets st 101 102 = Returned st mine ∧
    Forall (λ w, Wallet.userId w = User.id user) mine ∧
    Scenarios.strongbox ∉ mine.
Proof.
  apply (wallets_are_private Scenarios.bank Scenarios.ada 5000 "w2"
           Scenarios.strongbox 100 101 102).
  - reflexivity.
  - reflexivity.
  - vm_compute. discriminate.
  - vm_compute. discriminate.
  - vm_compute. discriminate.
  - reflexivity.
  - discriminate.
Defined.

(** From the wallet of 10: a payment of 1.5 leaves 8.5, and a payment of
    11 is refused. *)
Lemma createTransaction_moves_balance_witness :
  let st := Scenarios.bank in
  let wallet := Scenarios.purse in
  let overdraft :=
    {| TxData.fromWalletId := "w1"; TxData.toAddress := "0xef";
       TxData.amount := 11%float; TxData.type := None |} in
  (∃ st' transaction wallet',
     createTransaction st Scenarios.payment 100 101 102 "x1" 103 "0x99" 104
     = Returned st' transaction ∧
     Transaction.amount transaction = 1.5%float ∧
     Transaction.fromAddress transaction = Wallet.address wallet ∧
     Transaction.status transaction = "confirmed" ∧
     jm_get "w1" (wallets st') = Some wallet' ∧
     Wallet.balance wallet' = 8.5%float ∧
     Wallet.userId wallet' = Wallet.userId wallet ∧
     (∀ other, other ≠ "w1" →
        jm_get other (wallets st') = jm_get other (wallets st)) ∧
     defaultWallet st' = defaultWallet st ∧
     authService st' = authService st) ∧
  createTransaction st overdraft 100 101 102 "x1" 103 "0x99" 104
  = Threw st InsufficientBalance.
Proof.
  intros st wallet overdraft. split.
  - destruct (createTransaction_moves_balance Scenarios.bank Scenarios.ada
                5000 Scenarios.payment Scenarios.purse 100 101 102 "x1" 103
                "0x99" 104) as [_ Hpaid].
    + reflexivity.
    + reflexivity.
    + vm_compute. discriminate.
    + vm_compute. discriminate.
    + vm_compute. discriminate.
    + reflexivity.
    + reflexivity.
    + destruct (Hpaid eq_refl)
        as (st' & transaction & wallet' & Hcall & Hamount & Hfrom & _
            & Hstatus & Hget & Hbalance & Huser & _ & Hothers & Hdefault
            & Hauth).
      exists st', transaction, wallet'. split_and!; try assumption.
  - destruct (createTransaction_moves_balance Scenarios.bank Scenarios.ada
                5000 overdraft Scenarios.purse 100 101 102 "x1" 103 "0x99"
                104) as [Hrefused _].
    + reflexivity.
    + reflexivity.
    + vm_compute. discriminate.
    + vm_compute. discriminate.
    + vm_compute. discriminate.
    + reflexivity.
    + reflexivity.
    + apply Hrefused. reflexivity.
Defined.

(** The scenario of the test script: with a user signed in, a first wallet
    is created and becomes the default one, its balance is set to 10, and a
    transaction of 1.5 leaves 8.5. *)
Example first_wallet_and_payment :
  let st0 :=
    {| authService := Scenarios.signed_in; wallets := [];
       initialized := true; defaultWallet := None |} in
  ∃ st1 wallet st2 st3 transaction wallet',
    createWallet st0 Scenarios.plain_wallet 100 101 "w1" "cafe" 102
    = Returned st1 wallet ∧
    Wallet.name wallet = "Wallet 1" ∧ Wallet.address wallet = "0xcafe" ∧
    getDefaultWallet st1 103 104 = Returned st1 (Some wallet) ∧
    updateBalance st1 "w1" 10%float 105 106 107 = Returned st2 true ∧
    createTransaction st2 Scenarios.payment 108 109 110 "x1" 111 "0x99" 112
    = Returned st3 transaction ∧
    getWallet st3 "w1" 113 114 = Returned st3 (Some wallet') ∧
    Wallet.balance wallet' = 8.5%float.
Proof. eexists _, _, _, _, _, _. split_and!; reflexivity. Qed.

(** The subtraction rounds: one taken off a balance of 2^53 + 2 leaves
    2^53, and an amount that is not a number passes the test and leaves a
    balance that is not a number. *)
Example payment_is_rounded :
  let rich :=
    with_wallets
      [("w1", {| Wallet.id := "w1"; Wallet.userId := "u1";
                 Wallet.type := "ethereum"; Wallet.address := "0xab";
                 Wallet.balance := 9007199254740994%float;
                 Wallet.createdAt := 60; Wallet.name := "Wallet 1";
                 Wallet.metadata := ∅; Wallet.lastUpdated := None |})]
      Scenarios.bank in
  let pay amount :=
    {| TxData.fromWalletId := "w1"; TxData.toAddress := "0xef";
       TxData.amount := amount; TxData.type := None |} in
  ∃ st1 t1 w1 st2 t2 w2,
    createTransaction rich (pay 1%float) 100 101 102 "x1" 103 "0x99" 104
    = Returned st1 t1 ∧
    jm_get "w1" (wallets st1) = Some w1 ∧
    Wallet.balance w1 = 9007199254740992%float ∧
    createTransaction rich (pay nan) 100 101 102 "x1" 103 "0x99" 104
    = Returned st2 t2 ∧
    jm_get "w1" (wallets st2) = Some w2 ∧
    Wallet.balance w2 = nan.
Proof. eexists _, _, _, _, _, _. split_and!; reflexivity. Qed.

End WalletFacts.
